(** * The @replaces overlay generator of graphqltools

    A shallow embedding of [graphqltools/replaces_directive.go]: the marker
    extractor [GetReplaceInfo], the two indexing passes of [processSchema],
    and the five synthesis stages of [getSchemaAdditions], followed by the
    properties of the overlay that the specification states.

    Conventions of the embedding.
    - Go structs are records, Go string-typed enumerations are inductive
      types, Go maps are [gmap]s (a missing key reads as the zero value),
      Go slices are lists (a nil slice and an empty slice are both [[]]:
      the parser leaves an absent list nil and never builds an empty
      non-nil one).
    - A [*ast.Definition] is an address [ptr] into a [Heap]; all other
      pointers of the syntax tree are read-only in this program and are
      embedded as the value they point to.
    - [schema.Types] is a Go map; ranging over it yields its entries in an
      unspecified order, so a schema is given by the list of definition
      addresses in the order one particular run visits them. *)

From Stdlib Require Import String Ascii List ZArith Lia Bool Permutation Sorted.
From Stdlib Require Import OrderedTypeEx.
From stdpp Require Import gmap strings list fin_maps sorting.

Local Open Scope string_scope.
Local Open Scope list_scope.

(** ** errors/kind: the sentinel error kinds *)

Module kind.
Inductive Kind : Type :=
| NotFound | InvalidInput | NotAllowed | Unauthorized | Internal
| NotImplemented | GraphqlResponse | TransientKhanService | KhanService
| TransientService | Service | Unspecified.
End kind.

(** An error built by simplerr's [errors.WithStack], [errors.Wrap] or
    [errors.WrapWithFields] around a sentinel kind.  The stack trace is not
    modelled.  [Fields] values are strings, except for the ["errorlist"]
    field of the batch error, which carries the accumulated [ErrorList]. *)
#[warnings="-register-all"]
Inductive error : Type :=
| WithStack (k : kind.Kind)
| Wrap (k : kind.Kind) (message : string)
| WrapWithFields (k : kind.Kind) (fields : list (string * string))
| WrapWithErrorList (k : kind.Kind) (errorlist : list error).

Definition ErrorList := list error.

(** [errors.Is(err, k)] on the errors this program builds. *)
Definition kindOf (e : error) : kind.Kind :=
  match e with
  | WithStack k | Wrap k _ | WrapWithFields k _ | WrapWithErrorList k _ => k
  end.

Definition kind_eqb (a b : kind.Kind) : bool :=
  match a, b with
  | kind.NotFound, kind.NotFound | kind.InvalidInput, kind.InvalidInput
  | kind.NotAllowed, kind.NotAllowed | kind.Unauthorized, kind.Unauthorized
  | kind.Internal, kind.Internal | kind.NotImplemented, kind.NotImplemented
  | kind.GraphqlResponse, kind.GraphqlResponse
  | kind.TransientKhanService, kind.TransientKhanService
  | kind.KhanService, kind.KhanService
  | kind.TransientService, kind.TransientService
  | kind.Service, kind.Service | kind.Unspecified, kind.Unspecified => true
  | _, _ => false
  end.

Definition errors_Is (e : error) (k : kind.Kind) : bool := kind_eqb (kindOf e) k.

(** ** gqlparser's syntax tree, as far as this program reads it *)

Module ast.

(** [ast.DefinitionKind] is a string type; [NoKind] is its zero value, which
    a lookup in [definitionKinds] yields for a missing key. *)
Inductive DefinitionKind : Type :=
| NoKind | Scalar | Object | Interface | Union | Enum | InputObject.

Inductive ValueKind : Type :=
| VariableValue | IntValue | FloatValue | StringValue | BlockValue
| BooleanValue | NullValue | EnumValue | ListValue | ObjectValue.

(** [ast.Value]; the children of list and object values are not modelled
    (no directive argument this program reads or writes is one). *)
Record Value : Type := { Raw : string; VKind : ValueKind }.

Record Argument : Type := { argName : string; argValue : Value }.

Record Directive : Type := { dirName : string; dirArguments : list Argument }.

Definition DirectiveList := list Directive.

(** [ast.Type]: "Exactly one of NamedType and Elem is zero" (comment of
    [_isNonListField]); a named type carries a non-empty name. *)
Inductive Type_ : Type :=
| NamedT (NamedType : string) (NonNull : bool)
| ListT (Elem : Type_) (NonNull : bool).

Definition NamedType (t : Type_) : string :=
  match t with NamedT n _ => n | ListT _ _ => "" end.

Definition NonNull (t : Type_) : bool :=
  match t with NamedT _ b | ListT _ b => b end.

Record ArgumentDefinition : Type := {
  aDescription : string;
  aName : string;
  aDefaultValue : option Value;
  aType : Type_;
  aDirectives : DirectiveList }.

Record FieldDefinition : Type := {
  fDescription : string;
  fName : string;
  fArguments : list ArgumentDefinition;
  fDefaultValue : option Value;
  fType : Type_;
  fDirectives : DirectiveList }.

Record EnumValueDefinition : Type := {
  eDescription : string;
  eName : string;
  eDirectives : DirectiveList }.

(** [ast.Position]: [Start] is the byte offset of the definition's name,
    [SrcInput] the text of the source it was parsed from. *)
Record Position : Type := { Start : Z; SrcInput : string }.

(** [ast.Definition].  [dPosition] is [None] (nil) on the definitions that
    synthesis builds from scratch. *)
Record Definition_ : Type := {
  dKind : DefinitionKind;
  dDescription : string;
  dName : string;
  dDirectives : DirectiveList;
  dInterfaces : list string;
  dFields : list FieldDefinition;
  dTypes : list string;
  dEnumValues : list EnumValueDefinition;
  dPosition : option Position;
  dBuiltIn : bool }.

(** [directives.ForName(name)], [arguments.ForName(name)]: the first match. *)
Definition DirectiveList_ForName (ds : DirectiveList) (name : string) : option Directive :=
  List.find (fun d => String.eqb (dirName d) name) ds.

Definition ArgumentList_ForName (args : list Argument) (name : string) : option Argument :=
  List.find (fun a => String.eqb (argName a) name) args.

End ast.
Import ast.

(** Addresses of definitions and the heap that holds them. *)
Definition ptr := nat.
Definition Heap := ptr -> Definition_.

Definition heap_set (h : Heap) (p : ptr) (d : Definition_) : Heap :=
  fun q => if Nat.eqb q p then d else h q.

(** [*ast.Schema]: the addresses stored in [schema.Types], in the order in
    which [range schema.Types] yields them in the run under consideration. *)
Record Schema : Type := { Types : list ptr }.

(** ** Text utilities: the regular expressions and string functions used *)

(** RE2's ASCII character classes. *)
Definition isWordChar (c : ascii) : bool :=
  let n := nat_of_ascii c in
  (Nat.leb 48 n && Nat.leb n 57) || (Nat.leb 65 n && Nat.leb n 90)
  || (Nat.leb 97 n && Nat.leb n 122) || Nat.eqb n 95.

Definition isSpaceChar (c : ascii) : bool :=
  let n := nat_of_ascii c in
  Nat.eqb n 9 || Nat.eqb n 10 || Nat.eqb n 12 || Nat.eqb n 13 || Nat.eqb n 32.

Definition isBlankChar (c : ascii) : bool :=
  let n := nat_of_ascii c in Nat.eqb n 32 || Nat.eqb n 9.

Definition isWordAt (c : option ascii) : bool :=
  match c with Some a => isWordChar a | None => false end.

Definition firstChar (s : string) : option ascii :=
  match s with EmptyString => None | String c _ => Some c end.

(** The assertion [\b] at a position: [prev] is the byte before it, [rest]
    the text after it. *)
Definition wordBoundary (prev : option ascii) (rest : string) : bool :=
  xorb (isWordAt prev) (isWordAt (firstChar rest)).

(** Consume the literal [word] at the head of [text]; on success return the
    last byte before the new position and the remaining text. *)
Fixpoint stripLiteral (prev : option ascii) (word text : string)
  : option (option ascii * string) :=
  match word with
  | EmptyString => Some (prev, text)
  | String w word' =>
      match text with
      | EmptyString => None
      | String c text' =>
          if Ascii.eqb w c then stripLiteral (Some c) word' text' else None
      end
  end.

(** Does [\b word \b] match at this position?  [word] is spliced into the
    pattern unescaped; the model reads it as a literal, which is what the
    pattern means for the GraphQL names the source passes. *)
Definition matchWordHere (word : string) (prev : option ascii) (text : string) : bool :=
  wordBoundary prev text &&
  match stripLiteral prev word text with
  | Some (last, rest) => wordBoundary last rest
  | None => false
  end.

(** Is there a position of [text] (its end included) where [m] matches? *)
Fixpoint matchSomewhere (m : option ascii -> string -> bool)
    (prev : option ascii) (text : string) : bool :=
  m prev text ||
  match text with
  | EmptyString => false
  | String c rest => matchSomewhere m (Some c) rest
  end.

(** [regex.FindString(text) != ""] for [\b word \b]: some match exists and
    it is not the empty string. *)
Definition _containsExactWord (text word : string) : bool :=
  negb (String.eqb word "") && matchSomewhere (matchWordHere word) None text.

(** [regex.ReplaceAllString] for [\b word \b], [word] not empty: the
    leftmost match is replaced and the scan resumes behind it; [skip] counts
    the bytes of the current match that are still to be dropped. *)
Fixpoint replaceWordFrom (word replacement : string) (prev : option ascii)
    (skip : nat) (text : string) : string :=
  match text with
  | EmptyString => EmptyString
  | String c rest =>
      match skip with
      | S k => replaceWordFrom word replacement (Some c) k rest
      | O =>
          if matchWordHere word prev text
          then replacement +:+
               replaceWordFrom word replacement (Some c) (String.length word - 1) rest
          else String c (replaceWordFrom word replacement (Some c) 0 rest)
      end
  end.

(** For the empty [word] the pattern is [\b\b], which matches the empty
    string at every word boundary. *)
Fixpoint insertAtBoundaries (replacement : string) (prev : option ascii)
    (text : string) : string :=
  (if wordBoundary prev text then replacement else "") +:+
  match text with
  | EmptyString => EmptyString
  | String c rest => String c (insertAtBoundaries replacement (Some c) rest)
  end.

(** The replacement is taken literally: an old name has no [$] in it. *)
Definition _replaceExactWord (text word replacement : string) : string :=
  match word with
  | EmptyString => insertAtBoundaries replacement None text
  | String _ _ => replaceWordFrom word replacement None 0 text
  end.

(** Longest prefix whose bytes satisfy [p], and what follows it. *)
Fixpoint spanChars (p : ascii -> bool) (s : string) : nat * string :=
  match s with
  | EmptyString => (0, EmptyString)
  | String c rest =>
      if p c then let '(n, r) := spanChars p rest in (S n, r) else (0, s)
  end.

(** [_extendRegex], [\bextend[ \t]+\w+\s+$], matched at one position.  The
    three repeated classes are pairwise disjoint where they meet, so every
    repetition has to take its longest run. *)
Definition _extendRegex_matchHere (prev : option ascii) (text : string) : bool :=
  wordBoundary prev text &&
  match stripLiteral prev "extend" text with
  | None => false
  | Some (_, rest) =>
      let '(blanks, rest1) := spanChars isBlankChar rest in
      let '(letters, rest2) := spanChars isWordChar rest1 in
      let '(spaces, rest3) := spanChars isSpaceChar rest2 in
      Nat.ltb 0 blanks && Nat.ltb 0 letters && Nat.ltb 0 spaces
      && String.eqb rest3 ""
  end.

Definition _extendRegex_FindString_nonempty (text : string) : bool :=
  matchSomewhere _extendRegex_matchHere None text.

(** [_definitionHasExtends]: look at the (at most) 25 bytes of source text
    in front of the definition's name.  Go panics on a nil position and on
    a slice out of range; the parser sets [0 <= Start <= len(Input)]. *)
Definition _definitionHasExtends (definition : Definition_) : bool :=
  match dPosition definition with
  | None => false
  | Some pos =>
      let prefixLength := (Z.of_nat (String.length "extend")
                           + Z.of_nat (String.length "interface") + 10)%Z in
      let prefixStart := (Start pos - prefixLength)%Z in
      let '(prefixLength, prefixStart) :=
        if (prefixStart <? 0)%Z
        then ((prefixLength + prefixStart)%Z, 0%Z)
        else (prefixLength, prefixStart) in
      let substring :=
        String.substring (Z.to_nat prefixStart) (Z.to_nat prefixLength)
          (SrcInput pos) in
      _extendRegex_FindString_nonempty substring
  end.

(** [strings.Title] on ASCII text: the first letter of every word is put in
    upper case; letters, digits and the underscore do not separate words. *)
Definition isSeparator (c : ascii) : bool := negb (isWordChar c).

Definition toTitle (c : ascii) : ascii :=
  let n := nat_of_ascii c in
  if Nat.leb 97 n && Nat.leb n 122 then ascii_of_nat (n - 32) else c.

Fixpoint titleFrom (prev : ascii) (s : string) : string :=
  match s with
  | EmptyString => EmptyString
  | String c rest =>
      String (if isSeparator prev then toTitle c else c) (titleFrom c rest)
  end.

Definition strings_Title (s : string) : string := titleFrom " "%char s.

(** [strings.ReplaceAll(s, "\t", "    ")]. *)
Definition tab : ascii := "009"%char.

Fixpoint tabsToSpaces (s : string) : string :=
  match s with
  | EmptyString => EmptyString
  | String c rest =>
      if Ascii.eqb c tab then "    " +:+ tabsToSpaces rest
      else String c (tabsToSpaces rest)
  end.

(** ** The marker extractor *)

Record ReplaceInfo : Type := {
  OldName : string;
  OldTypeName : string;
  WasRequiredBeforeRename : bool;
  TreatZeroAsUnset : bool;
  TreatZeroAsUnsetPresent : bool }.

Definition GetReplaceInfo (directives : DirectiveList) : ReplaceInfo + error :=
  match DirectiveList_ForName directives "replaces" with
  | None => inr (WithStack kind.NotFound)
  | Some directive =>
      let arguments := dirArguments directive in
      match ArgumentList_ForName arguments "name" with
      | None => inr (Wrap kind.Internal "name required on @replaces directive")
      | Some arg =>
          let oldTypeName :=
            match ArgumentList_ForName arguments "type" with
            | Some a => Raw (argValue a)
            | None => ""
            end in
          let wasRequired :=
            match ArgumentList_ForName arguments "wasRequiredBeforeRename" with
            | Some a => String.eqb (Raw (argValue a)) "true"
            | None => false
            end in
          let '(treatZero, treatZeroPresent) :=
            match ArgumentList_ForName arguments "treatZeroAsUnset" with
            | Some a => (String.eqb (Raw (argValue a)) "true", true)
            | None => (false, false)
            end in
          inl {| OldName := Raw (argValue arg);
                 OldTypeName := oldTypeName;
                 WasRequiredBeforeRename := wasRequired;
                 TreatZeroAsUnset := treatZero;
                 TreatZeroAsUnsetPresent := treatZeroPresent |}
      end
  end.

(** ** The Replacer and its indices *)

Record _definitionInfo : Type := { di_definition : ptr; di_oldName : string }.

Record _fieldInfo : Type := {
  fi_field : FieldDefinition;
  fi_oldName : string;
  fi_oldTypeName : string }.

Record _enumValueInfo : Type := {
  ei_enumValue : EnumValueDefinition;
  ei_newName : string;
  ei_oldName : string }.

Record Replacer : Type := {
  errors : ErrorList;
  fields : gmap string (list _fieldInfo);
  definitions : list _definitionInfo;
  enumValues : gmap string (list _enumValueInfo);
  extraImplements : gmap string (list string);
  extraUnionMembers : gmap string (list string);
  cacheReplacedTypes : gmap string string;
  definitionKinds : gmap string DefinitionKind;
  federationKeys : gmap string (list string);
  hasProcessedSchema : bool }.

Definition NewReplacer : Replacer :=
  {| errors := []; fields := ∅; definitions := []; enumValues := ∅;
     extraImplements := ∅; extraUnionMembers := ∅; cacheReplacedTypes := ∅;
     definitionKinds := ∅; federationKeys := ∅; hasProcessedSchema := false |}.

(** Field updates of the Replacer, one per assignment form in the source. *)
Definition set_errors (r : Replacer) (v : ErrorList) : Replacer :=
  {| errors := v; fields := fields r; definitions := definitions r;
     enumValues := enumValues r; extraImplements := extraImplements r;
     extraUnionMembers := extraUnionMembers r;
     cacheReplacedTypes := cacheReplacedTypes r;
     definitionKinds := definitionKinds r; federationKeys := federationKeys r;
     hasProcessedSchema := hasProcessedSchema r |}.

Definition set_fields (r : Replacer) (v : gmap string (list _fieldInfo)) : Replacer :=
  {| errors := errors r; fields := v; definitions := definitions r;
     enumValues := enumValues r; extraImplements := extraImplements r;
     extraUnionMembers := extraUnionMembers r;
     cacheReplacedTypes := cacheReplacedTypes r;
     definitionKinds := definitionKinds r; federationKeys := federationKeys r;
     hasProcessedSchema := hasProcessedSchema r |}.

Definition set_definitions (r : Replacer) (v : list _definitionInfo) : Replacer :=
  {| errors := errors r; fields := fields r; definitions := v;
     enumValues := enumValues r; extraImplements := extraImplements r;
     extraUnionMembers := extraUnionMembers r;
     cacheReplacedTypes := cacheReplacedTypes r;
     definitionKinds := definitionKinds r; federationKeys := federationKeys r;
     hasProcessedSchema := hasProcessedSchema r |}.

Definition set_enumValues (r : Replacer) (v : gmap string (list _enumValueInfo)) : Replacer :=
  {| errors := errors r; fields := fields r; definitions := definitions r;
     enumValues := v; extraImplements := extraImplements r;
     extraUnionMembers := extraUnionMembers r;
     cacheReplacedTypes := cacheReplacedTypes r;
     definitionKinds := definitionKinds r; federationKeys := federationKeys r;
     hasProcessedSchema := hasProcessedSchema r |}.

Definition set_extraImplements (r : Replacer) (v : gmap string (list string)) : Replacer :=
  {| errors := errors r; fields := fields r; definitions := definitions r;
     enumValues := enumValues r; extraImplements := v;
     extraUnionMembers := extraUnionMembers r;
     cacheReplacedTypes := cacheReplacedTypes r;
     definitionKinds := definitionKinds r; federationKeys := federationKeys r;
     hasProcessedSchema := hasProcessedSchema r |}.

Definition set_extraUnionMembers (r : Replacer) (v : gmap string (list string)) : Replacer :=
  {| errors := errors r; fields := fields r; definitions := definitions r;
     enumValues := enumValues r; extraImplements := extraImplements r;
     extraUnionMembers := v;
     cacheReplacedTypes := cacheReplacedTypes r;
     definitionKinds := definitionKinds r; federationKeys := federationKeys r;
     hasProcessedSchema := hasProcessedSchema r |}.

Definition set_cacheReplacedTypes (r : Replacer) (v : gmap string string) : Replacer :=
  {| errors := errors r; fields := fields r; definitions := definitions r;
     enumValues := enumValues r; extraImplements := extraImplements r;
     extraUnionMembers := extraUnionMembers r;
     cacheReplacedTypes := v;
     definitionKinds := definitionKinds r; federationKeys := federationKeys r;
     hasProcessedSchema := hasProcessedSchema r |}.

Definition set_definitionKinds (r : Replacer) (v : gmap string DefinitionKind) : Replacer :=
  {| errors := errors r; fields := fields r; definitions := definitions r;
     enumValues := enumValues r; extraImplements := extraImplements r;
     extraUnionMembers := extraUnionMembers r;
     cacheReplacedTypes := cacheReplacedTypes r;
     definitionKinds := v; federationKeys := federationKeys r;
     hasProcessedSchema := hasProcessedSchema r |}.

Definition set_federationKeys (r : Replacer) (v : gmap string (list string)) : Replacer :=
  {| errors := errors r; fields := fields r; definitions := definitions r;
     enumValues := enumValues r; extraImplements := extraImplements r;
     extraUnionMembers := extraUnionMembers r;
     cacheReplacedTypes := cacheReplacedTypes r;
     definitionKinds := definitionKinds r; federationKeys := v;
     hasProcessedSchema := hasProcessedSchema r |}.

Definition set_hasProcessedSchema (r : Replacer) (v : bool) : Replacer :=
  {| errors := errors r; fields := fields r; definitions := definitions r;
     enumValues := enumValues r; extraImplements := extraImplements r;
     extraUnionMembers := extraUnionMembers r;
     cacheReplacedTypes := cacheReplacedTypes r;
     definitionKinds := definitionKinds r; federationKeys := federationKeys r;
     hasProcessedSchema := v |}.

(** [r.errors = append(r.errors, err)]. *)
Definition appendError (r : Replacer) (err : error) : Replacer :=
  set_errors r (errors r ++ [err]).

(** [m[k] = append(m[k], x)]: a missing key reads as the nil slice. *)
Definition mapAppend {A} (m : gmap string (list A)) (k : string) (x : A)
  : gmap string (list A) :=
  <[k := default [] (m !! k) ++ [x]]> m.

Definition DefinitionKind_eqb (a b : DefinitionKind) : bool :=
  match a, b with
  | NoKind, NoKind | Scalar, Scalar | Object, Object | Interface, Interface
  | Union, Union | Enum, Enum | InputObject, InputObject => true
  | _, _ => false
  end.

(** ** Index construction *)

Definition getReplaceInfo (r : Replacer) (directives : DirectiveList)
  : option ReplaceInfo * Replacer :=
  match GetReplaceInfo directives with
  | inl replaceInfo => (Some replaceInfo, r)
  | inr err =>
      if errors_Is err kind.NotFound then (None, r)
      else (None, appendError r err)
  end.

Definition _isNonListField (field : FieldDefinition) : bool :=
  negb (String.eqb (NamedType (fType field)) "").

Definition _processField (typeName : string) (definitionKind : DefinitionKind)
    (r : Replacer) (field : FieldDefinition) : Replacer :=
  match getReplaceInfo r (fDirectives field) with
  | (None, r) =>
      foldl (fun r arg =>
               match getReplaceInfo r (aDirectives arg) with
               | (Some _, r) =>
                   appendError r
                     (WrapWithFields kind.Internal
                        [("message", "@replaces directive on arguments can only be used on renamed fields");
                         ("type", typeName);
                         ("field", fName field);
                         ("argument", aName arg)])
               | (None, r) => r
               end)
            r (fArguments field)
  | (Some replaceInfo, r) =>
      let r :=
        if DefinitionKind_eqb definitionKind InputObject then
          let r :=
            if NonNull (fType field) then
              appendError r
                (WrapWithFields kind.InvalidInput
                   [("message", "input fields using the @replaces directive must be nullable");
                    ("type", typeName);
                    ("field", fName field)])
            else r in
          if _isNonListField field && negb (TreatZeroAsUnsetPresent replaceInfo) then
            appendError r
              (WrapWithFields kind.InvalidInput
                 [("message", "@replaces directive on non-list input fields must include treatZeroAsUnset:true or treatZeroAsUnset:false");
                  ("type", typeName);
                  ("field", fName field)])
          else r
        else r in
      set_fields r
        (mapAppend (fields r) typeName
           {| fi_field := field;
              fi_oldName := OldName replaceInfo;
              fi_oldTypeName := OldTypeName replaceInfo |})
  end.

Definition _processEnumValue (enumName : string) (r : Replacer)
    (enumValue : EnumValueDefinition) : Replacer :=
  match getReplaceInfo r (eDirectives enumValue) with
  | (None, r) => r
  | (Some replaceInfo, r) =>
      let r :=
        if negb (String.eqb (OldTypeName replaceInfo) "") then
          appendError r
            (WrapWithFields kind.InvalidInput
               [("message", "@replaces directive on enum values can only use `name` argument");
                ("enum", enumName);
                ("enumValue", eName enumValue)])
        else r in
      set_enumValues r
        (mapAppend (enumValues r) enumName
           {| ei_enumValue := enumValue;
              ei_newName := eName enumValue;
              ei_oldName := OldName replaceInfo |})
  end.

Definition _getFederationKeys (def : Definition_) : list string :=
  flat_map
    (fun directive =>
       if String.eqb (dirName directive) "key" then
         flat_map
           (fun arg =>
              if String.eqb (argName arg) "fields" then [Raw (argValue arg)]
              else [])
           (dirArguments directive)
       else [])
    (dDirectives def).

Definition _processDefinition (σ : Heap) (r : Replacer) (def : ptr) : Replacer :=
  let r := set_definitionKinds r (<[dName (σ def) := dKind (σ def)]> (definitionKinds r)) in
  let r := set_federationKeys r
             (<[dName (σ def) := _getFederationKeys (σ def)]> (federationKeys r)) in
  match getReplaceInfo r (dDirectives (σ def)) with
  | (None, r) => r
  | (Some replaceInfo, r) =>
      let r :=
        if negb (String.eqb (OldTypeName replaceInfo) "") then
          appendError r
            (WrapWithFields kind.InvalidInput
               [("message", "@replaces directive on definitions can only use `name` argument");
                ("definition", dName (σ def))])
        else r in
      let r := set_definitions r
                 (definitions r ++
                  [{| di_definition := def; di_oldName := OldName replaceInfo |}]) in
      set_cacheReplacedTypes r
        (<[dName (σ def) := OldName replaceInfo]> (cacheReplacedTypes r))
  end.

Definition _processInterfaceImplementation (objectName : string) (r : Replacer)
    (interfaceName : string) : Replacer :=
  match cacheReplacedTypes r !! interfaceName with
  | None => r
  | Some oldName =>
      set_extraImplements r (mapAppend (extraImplements r) objectName oldName)
  end.

Definition _processUnionMember (unionName : string) (r : Replacer)
    (memberName : string) : Replacer :=
  match cacheReplacedTypes r !! memberName with
  | None => r
  | Some oldName =>
      set_extraUnionMembers r (mapAppend (extraUnionMembers r) unionName oldName)
  end.

(** Body of the first loop of [processSchema], for one definition. *)
Definition processSchema_index (σ : Heap) (r : Replacer) (definition : ptr) : Replacer :=
  let r := _processDefinition σ r definition in
  match dKind (σ definition) with
  | Object | InputObject | Interface =>
      foldl (_processField (dName (σ definition)) (dKind (σ definition)))
        r (dFields (σ definition))
  | Enum =>
      foldl (_processEnumValue (dName (σ definition))) r (dEnumValues (σ definition))
  | _ => r
  end.

(** Body of the second loop of [processSchema], for one definition. *)
Definition processSchema_backfill (σ : Heap) (r : Replacer) (definition : ptr) : Replacer :=
  match dKind (σ definition) with
  | Object =>
      foldl (_processInterfaceImplementation (dName (σ definition)))
        r (dInterfaces (σ definition))
  | Union =>
      foldl (_processUnionMember (dName (σ definition))) r (dTypes (σ definition))
  | _ => r
  end.

Definition processSchema (σ : Heap) (r : Replacer) (schema : Schema) : Replacer :=
  if hasProcessedSchema r then
    appendError r (Wrap kind.Internal "processSchema called multiple times")
  else
    let r := set_hasProcessedSchema r true in
    let r := foldl (processSchema_index σ) r (Types schema) in
    foldl (processSchema_backfill σ) r (Types schema).

(** ** Overlay synthesis *)

Definition newline : string := String "010"%char EmptyString.

(** [_internalFormatter]: gqlparser's formatter, seen through the one method
    the source uses.  [FormatDefinition d extend] is the text the method
    writes to the buffer for [d]. *)
Class _internalFormatter : Type :=
  { FormatDefinition : Definition_ -> bool -> string }.

Fixpoint _updateType (typ : Type_) (newTypeName : string) : Type_ :=
  match typ with
  | NamedT _ nonNull => NamedT newTypeName nonNull
  | ListT elem nonNull => ListT (_updateType elem newTypeName) nonNull
  end.

(** [_removeReplacesDirective]: a nil list stays nil, any other list is
    filtered into a new slice made with capacity [len(directives)-1].  On a
    list that is empty without being nil that [make] panics; the parser
    builds no such list, so a synthesis over a parsed schema meets none. *)
Definition _removeReplacesDirective (directives : DirectiveList) : DirectiveList :=
  List.filter (fun directive => negb (String.eqb (dirName directive) "replaces"))
    directives.

(** [_removeReplacesDirective] on slices.  A Go slice is nil or has been
    made: the function returns nil for nil, and for any other slice calls
    [make] with the capacity [len(directives)-1], which panics when the
    slice is empty.  [None] is that panic.  [_removeReplacesDirective]
    above is this function on the contents, for the slices on which it
    returns. *)
Inductive GoSlice (A : Type) : Type :=
| nilSlice
| made (l : list A).
Arguments nilSlice {A}.
Arguments made {A} l.

Definition contents {A} (s : GoSlice A) : list A :=
  match s with nilSlice => [] | made l => l end.

Definition _removeReplacesDirective_slice (directives : GoSlice Directive)
  : option (GoSlice Directive) :=
  match directives with
  | nilSlice => Some nilSlice
  | made l =>
      if (Z.of_nat (length l) - 1 <? 0)%Z then None
      else Some (made (List.filter
                         (fun directive => negb (String.eqb (dirName directive) "replaces"))
                         l))
  end.

Definition stringArgument (name raw : string) : Argument :=
  {| argName := name; argValue := {| Raw := raw; VKind := StringValue |} |}.

Definition _addDeprecatedDirective (directives : DirectiveList) (message : string)
  : DirectiveList :=
  directives ++
  [{| dirName := "deprecated"; dirArguments := [stringArgument "reason" message] |}].

(** [sort.Slice] and [sort.Strings].  Go sorts a slice of at most twelve
    elements by insertion sort, which is what is written here; on longer
    slices the order of elements with equal keys is left open by Go.  The
    theorems use of the sort only that it returns a sorted rearrangement. *)
Fixpoint insertBy {A} (less : A -> A -> bool) (x : A) (sorted : list A) : list A :=
  match sorted with
  | [] => [x]
  | y :: rest => if less x y then x :: sorted else y :: insertBy less x rest
  end.

Definition sort_Slice {A} (less : A -> A -> bool) (l : list A) : list A :=
  foldl (fun sorted x => insertBy less x sorted) [] l.

Definition sort_Strings (l : list string) : list string := sort_Slice String.ltb l.

(** The keys of a map, collected by a [range] loop and then sorted. *)
Definition sortedKeys {A} (m : gmap string A) : list string :=
  sort_Strings (map fst (map_to_list m)).

(** An emitted definition: the two arguments of one [FormatDefinition] call. *)
Definition Emitted : Type := Definition_ * bool.

(** *** Stage 1: shadow definitions under the old names *)

Definition stripField (field : FieldDefinition) : FieldDefinition :=
  {| fDescription := fDescription field;
     fName := fName field;
     fArguments :=
       map (fun arg =>
              {| aDescription := aDescription arg; aName := aName arg;
                 aDefaultValue := aDefaultValue arg; aType := aType arg;
                 aDirectives := _removeReplacesDirective (aDirectives arg) |})
           (fArguments field);
     fDefaultValue := fDefaultValue field;
     fType := fType field;
     fDirectives := _removeReplacesDirective (fDirectives field) |}.

Definition stripEnumValue (enumValue : EnumValueDefinition) : EnumValueDefinition :=
  {| eDescription := eDescription enumValue;
     eName := eName enumValue;
     eDirectives := _removeReplacesDirective (eDirectives enumValue) |}.

Definition with_dEnumValues (d : Definition_) (v : list EnumValueDefinition)
  : Definition_ :=
  {| dKind := dKind d; dDescription := dDescription d; dName := dName d;
     dDirectives := dDirectives d; dInterfaces := dInterfaces d;
     dFields := dFields d; dTypes := dTypes d; dEnumValues := v;
     dPosition := dPosition d; dBuiltIn := dBuiltIn d |}.

(** Body of the loop over [r.definitions].  [oldDefinition] is a struct copy
    of the definition: its [Fields] are replaced by a fresh slice, but its
    [EnumValues] slice still shares the backing array of the input, so the
    assignments [oldDefinition.EnumValues[i] = &newEnumValue] also replace
    the enum values of the definition stored at that address. *)
Definition shadowDefinition (σ : Heap) (definitionInfo : _definitionInfo)
  : Emitted * Heap :=
  let definition := σ (di_definition definitionInfo) in
  let hasExtend := _definitionHasExtends definition in
  let deprecatedMessage := "Deprecated: Replaced by " +:+ dName definition +:+ "." in
  let description :=
    if String.eqb (dDescription definition) "" then
      if negb hasExtend then deprecatedMessage else dDescription definition
    else dDescription definition +:+ newline +:+ deprecatedMessage in
  let newEnumValues := map stripEnumValue (dEnumValues definition) in
  let oldDefinition :=
    {| dKind := dKind definition;
       dDescription := description;
       dName := di_oldName definitionInfo;
       dDirectives := _removeReplacesDirective (dDirectives definition);
       dInterfaces := dInterfaces definition;
       dFields := map stripField (dFields definition);
       dTypes := dTypes definition;
       dEnumValues := newEnumValues;
       dPosition := dPosition definition;
       dBuiltIn := dBuiltIn definition |} in
  ((oldDefinition, hasExtend),
   heap_set σ (di_definition definitionInfo)
     (with_dEnumValues definition newEnumValues)).

Definition definitionStage (σ : Heap) (infos : list _definitionInfo)
  : list Emitted * Heap :=
  foldl (fun '(out, σ) definitionInfo =>
           let '(e, σ) := shadowDefinition σ definitionInfo in (out ++ [e], σ))
        ([], σ) infos.

(** *** Stage 2: old fields, as type extensions *)

Definition oldArgumentOf (r : Replacer) (argument : ArgumentDefinition)
  : ArgumentDefinition * Replacer :=
  match getReplaceInfo r (aDirectives argument) with
  | (None, r) => (argument, r)
  | (Some replaceInfo, r) =>
      ({| aDescription := aDescription argument;
          aName := OldName replaceInfo;
          aDefaultValue := aDefaultValue argument;
          aType :=
            if negb (String.eqb (OldTypeName replaceInfo) "")
            then _updateType (aType argument) (OldTypeName replaceInfo)
            else aType argument;
          aDirectives := _removeReplacesDirective (aDirectives argument) |}, r)
  end.

Definition oldArgumentsOf (r : Replacer) (arguments : list ArgumentDefinition)
  : list ArgumentDefinition * Replacer :=
  foldl (fun '(out, r) argument =>
           let '(a, r) := oldArgumentOf r argument in (out ++ [a], r))
        ([], r) arguments.

(** The copy of the owner's federation keys, each with its [keyHasUpdates]
    flag (the source keeps two slices of equal length). *)
Definition KeyCopy : Type := list (string * bool).

Definition rewriteKeys (keys : KeyCopy) (newFieldName oldFieldName : string) : KeyCopy :=
  map (fun '((key, hasUpdates) : string * bool) =>
         if _containsExactWord key newFieldName
         then (_replaceExactWord key newFieldName oldFieldName, true)
         else (key, hasUpdates))
      keys.

Definition goFieldDirective (oldName : string) : Directive :=
  {| dirName := "goField";
     dirArguments := [stringArgument "name" ("Deprecated" +:+ strings_Title oldName)] |}.

(** Body of the loop over the renamed fields of one owner. *)
Definition oldFieldOf (ownerKind : DefinitionKind) (r : Replacer)
    (fieldInfo : _fieldInfo) : FieldDefinition * Replacer :=
  let field := fi_field fieldInfo in
  let oldType :=
    if negb (String.eqb (fi_oldTypeName fieldInfo) "")
    then _updateType (fType field) (fi_oldTypeName fieldInfo)
    else fType field in
  let '(oldArguments, r) := oldArgumentsOf r (fArguments field) in
  let directives := _removeReplacesDirective (fDirectives field) in
  let deprecatedMessage := "Replaced by " +:+ fName field +:+ "." in
  let '(directives, description) :=
    if negb (DefinitionKind_eqb ownerKind InputObject) then
      (_addDeprecatedDirective directives deprecatedMessage, fDescription field)
    else if String.eqb (fDescription field) "" then
      (directives, "Deprecated: " +:+ deprecatedMessage)
    else
      (directives,
       fDescription field +:+ newline +:+ "Deprecated: " +:+ deprecatedMessage) in
  ({| fDescription := description;
      fName := fi_oldName fieldInfo;
      fArguments := oldArguments;
      fDefaultValue := fDefaultValue field;
      fType := oldType;
      fDirectives := directives ++ [goFieldDirective (fi_oldName fieldInfo)] |}, r).

Definition keyDirective (key : string) : Directive :=
  {| dirName := "key"; dirArguments := [stringArgument "fields" key] |}.

Definition updatedKeyDirectives (keys : KeyCopy) : DirectiveList :=
  flat_map (fun '((key, hasUpdates) : string * bool) =>
              if hasUpdates then [keyDirective key] else [])
    keys.

Definition emptyDefinition (k : DefinitionKind) (name : string) : Definition_ :=
  {| dKind := k; dDescription := ""; dName := name; dDirectives := [];
     dInterfaces := []; dFields := []; dTypes := []; dEnumValues := [];
     dPosition := None; dBuiltIn := false |}.

(** Body of the loop over [allObjectNames]: the extension of [objectName].
    [keys] lives outside this loop, so the second name sees the keys as the
    first one left them. *)
Definition fieldExtension (ownerKind : DefinitionKind) (fieldInfos : list _fieldInfo)
    (st : KeyCopy * Replacer) (objectName : string)
  : Emitted * (KeyCopy * Replacer) :=
  let '(oldFields, keys, r) :=
    foldl (fun '(oldFields, keys, r) fieldInfo =>
             let '(oldField, r) := oldFieldOf ownerKind r fieldInfo in
             (oldFields ++ [oldField],
              rewriteKeys keys (fName (fi_field fieldInfo)) (fi_oldName fieldInfo),
              r))
          ([], st.1, st.2) fieldInfos in
  let object :=
    {| dKind := ownerKind; dDescription := ""; dName := objectName;
       dDirectives := updatedKeyDirectives keys;
       dInterfaces := []; dFields := oldFields; dTypes := []; dEnumValues := [];
       dPosition := None; dBuiltIn := false |} in
  ((object, true), (keys, r)).

(** The new name, followed by the old one if the definition was renamed. *)
Definition allNames (r : Replacer) (newName : string) : list string :=
  newName :: match cacheReplacedTypes r !! newName with
             | Some oldName => [oldName]
             | None => []
             end.

(** Body of the loop over [fieldsObjectNames]. *)
Definition fieldExtensions (r : Replacer) (newObjectName : string)
  : list Emitted * Replacer :=
  let fieldInfos := default [] (fields r !! newObjectName) in
  let ownerKind := default NoKind (definitionKinds r !! newObjectName) in
  let keys := map (fun key => (key, false))
                (default [] (federationKeys r !! newObjectName)) in
  let '(out, (_, r)) :=
    foldl (fun '(out, st) objectName =>
             let '(e, st) := fieldExtension ownerKind fieldInfos st objectName in
             (out ++ [e], st))
          ([], (keys, r)) (allNames r newObjectName) in
  (out, r).

Definition fieldStage (r : Replacer) : list Emitted * Replacer :=
  foldl (fun '(out, r) newObjectName =>
           let '(es, r) := fieldExtensions r newObjectName in (out ++ es, r))
        ([], r) (sortedKeys (fields r)).

(** *** Stage 3: old enum values, as enum extensions *)

Definition oldEnumValueOf (enumValueInfo : _enumValueInfo) : EnumValueDefinition :=
  let enumValue := ei_enumValue enumValueInfo in
  {| eDescription := eDescription enumValue;
     eName := ei_oldName enumValueInfo;
     eDirectives :=
       _addDeprecatedDirective (_removeReplacesDirective (eDirectives enumValue))
         ("Replaced by " +:+ ei_newName enumValueInfo +:+ ".") |}.

Definition enumExtensions (r : Replacer) (newName : string) : list Emitted :=
  let infos := default [] (enumValues r !! newName) in
  map (fun enumName =>
         ({| dKind := Enum; dDescription := ""; dName := enumName;
             dDirectives := []; dInterfaces := []; dFields := []; dTypes := [];
             dEnumValues := map oldEnumValueOf infos;
             dPosition := None; dBuiltIn := false |}, true))
      (allNames r newName).

Definition enumStage (r : Replacer) : list Emitted :=
  flat_map (enumExtensions r) (sortedKeys (enumValues r)).

(** *** Stage 4: old interface names on the implementing objects *)

Definition implementsExtensions (r : Replacer) (newName : string) : list Emitted :=
  let interfaceNames := default [] (extraImplements r !! newName) in
  map (fun objectName =>
         ({| dKind := Object; dDescription := ""; dName := objectName;
             dDirectives := []; dInterfaces := interfaceNames; dFields := [];
             dTypes := []; dEnumValues := [];
             dPosition := None; dBuiltIn := false |}, true))
      (allNames r newName).

Definition implementsStage (r : Replacer) : list Emitted :=
  flat_map (implementsExtensions r) (sortedKeys (extraImplements r)).

(** *** Stage 5: old member names on the unions *)

Definition unionExtensions (r : Replacer) (newName : string) : list Emitted :=
  let unionMembers := default [] (extraUnionMembers r !! newName) in
  map (fun unionName =>
         ({| dKind := Union; dDescription := ""; dName := unionName;
             dDirectives := []; dInterfaces := []; dFields := [];
             dTypes := unionMembers; dEnumValues := [];
             dPosition := None; dBuiltIn := false |}, true))
      (allNames r newName).

Definition unionStage (r : Replacer) : list Emitted :=
  flat_map (unionExtensions r) (sortedKeys (extraUnionMembers r)).

(** *** The whole of [getSchemaAdditions] *)

(** What the buffer holds after the given [FormatDefinition] calls, each
    followed by [buf.WriteByte('\n')]. *)
Definition render `{_internalFormatter} (out : list Emitted) : string :=
  String.concat ""
    (map (fun '(definition, extend) => FormatDefinition definition extend +:+ newline)
       out).

(** The sequence of definitions handed to the formatter, with the Replacer
    and the heap as the call leaves them. *)
Definition schemaAdditions (σ : Heap) (r : Replacer)
  : list Emitted * Replacer * Heap :=
  let r := set_definitions r
             (sort_Slice (fun i j => String.ltb (di_oldName i) (di_oldName j))
                (definitions r)) in
  let '(out1, σ) := definitionStage σ (definitions r) in
  let '(out2, r) := fieldStage r in
  (out1 ++ out2 ++ enumStage r ++ implementsStage r ++ unionStage r, r, σ).

Definition getSchemaAdditions `{_internalFormatter} (σ : Heap) (r : Replacer)
  : string * Replacer * Heap :=
  if negb (hasProcessedSchema r) then
    ("",
     appendError r
       (Wrap kind.Internal "must call processSchema before getSchemaAdditions"),
     σ)
  else
    let '(out, r, σ) := schemaAdditions σ r in
    (tabsToSpaces (render out), r, σ).

(** ** The two entry points *)

Definition ValidateReplacesDirectives (σ : Heap) (schema : Schema) : option error :=
  let replacer := processSchema σ NewReplacer schema in
  if Nat.ltb 0 (length (errors replacer))
  then Some (WrapWithErrorList kind.InvalidInput (errors replacer))
  else None.

(** Returns the two results of the Go function and the heap as the call
    leaves it (the schema is passed by reference). *)
Definition GetReplacesDirectiveUpdates `{_internalFormatter} (σ : Heap) (schema : Schema)
  : (string * option error) * Heap :=
  let replacer := processSchema σ NewReplacer schema in
  let '(additions, replacer, σ) := getSchemaAdditions σ replacer in
  if Nat.ltb 0 (length (errors replacer))
  then (("", Some (WrapWithErrorList kind.InvalidInput (errors replacer))), σ)
  else ((additions, None), σ).

(** ** A model of gqlparser's formatter

    The formatter belongs to gqlparser (v2.5.1), not to this repository.
    The general theorems below hold for every [_internalFormatter]; this
    model of the library's [formatter.go] serves the worked examples, where
    it reproduces the texts that [replaces_directive_test.go] expects. *)

Module formatter.

Definition dquote : string := String "034"%char EmptyString.

Record t : Type := {
  writer : string;
  indentSize : nat;
  padNext : bool;
  lineHead : bool }.

Definition NewFormatter : t :=
  {| writer := ""; indentSize := 0; padNext := false; lineHead := false |}.

Definition writeString (f : t) (s : string) : t :=
  {| writer := writer f +:+ s; indentSize := indentSize f;
     padNext := padNext f; lineHead := lineHead f |}.

Definition setPad (f : t) (b : bool) : t :=
  {| writer := writer f; indentSize := indentSize f;
     padNext := b; lineHead := lineHead f |}.

Definition NoPadding (f : t) : t := setPad f false.
Definition NeedPadding (f : t) : t := setPad f true.

Definition IncrementIndent (f : t) : t :=
  {| writer := writer f; indentSize := S (indentSize f);
     padNext := padNext f; lineHead := lineHead f |}.

Definition DecrementIndent (f : t) : t :=
  {| writer := writer f; indentSize := Nat.pred (indentSize f);
     padNext := padNext f; lineHead := lineHead f |}.

Fixpoint repeatString (s : string) (n : nat) : string :=
  match n with O => "" | S k => s +:+ repeatString s k end.

Definition writeIndent (f : t) : t :=
  let f := if lineHead f
           then writeString f (repeatString (String tab EmptyString) (indentSize f))
           else f in
  {| writer := writer f; indentSize := indentSize f;
     padNext := false; lineHead := false |}.

Definition WriteNewline (f : t) : t :=
  let f := writeString f newline in
  {| writer := writer f; indentSize := indentSize f;
     padNext := false; lineHead := true |}.

(** [strings.TrimSpace], on ASCII white space. *)
Fixpoint trimLeft (s : string) : string :=
  match s with
  | String c rest => if isSpaceChar c then trimLeft rest else s
  | EmptyString => EmptyString
  end.

Fixpoint trimRight (s : string) : string :=
  match s with
  | EmptyString => EmptyString
  | String c rest =>
      match trimRight rest with
      | EmptyString => if isSpaceChar c then EmptyString else String c EmptyString
      | rest' => String c rest'
      end
  end.

Definition TrimSpace (s : string) : string := trimRight (trimLeft s).

Definition WriteWord (f : t) (word : string) : t :=
  let f := if lineHead f then writeIndent f else f in
  let f := if padNext f then writeString f " " else f in
  setPad (writeString f (TrimSpace word)) true.

Definition WriteString (f : t) (s : string) : t :=
  let f := if lineHead f then writeIndent f else f in
  let f := if padNext f then writeString f " " else f in
  setPad (writeString f s) false.

(** [strings.Split(s, "\n")]. *)
Fixpoint splitLines (s : string) : list string :=
  match s with
  | EmptyString => [EmptyString]
  | String c rest =>
      if Ascii.eqb c "010"%char then EmptyString :: splitLines rest
      else match splitLines rest with
           | line :: lines => String c line :: lines
           | [] => [String c EmptyString]
           end
  end.

Definition tripleQuote : string := dquote +:+ dquote +:+ dquote.

Definition WriteDescription (f : t) (s : string) : t :=
  if String.eqb s "" then f
  else
    let f := WriteString f tripleQuote in
    let ss := splitLines s in
    let f :=
      if Nat.ltb 1 (length ss) then
        foldl (fun f line => WriteNewline (WriteString f line)) (WriteNewline f) ss
      else WriteString f s in
    WriteNewline (WriteString f tripleQuote).

(** The [String] method of [ast.Type]. *)
Fixpoint Type_String (ty : Type_) : string :=
  match ty with
  | NamedT name nonNull => name +:+ (if nonNull then "!" else "")
  | ListT elem nonNull => "[" +:+ Type_String elem +:+ "]" +:+ (if nonNull then "!" else "")
  end.

(** The [String] method of [ast.Value], on scalar values; [strconv.Quote] is modelled for
    raw strings that need no escaping. *)
Definition Value_String (v : Value) : string :=
  match VKind v with
  | VariableValue => "$" +:+ Raw v
  | StringValue | BlockValue => dquote +:+ Raw v +:+ dquote
  | _ => Raw v
  end.

Definition FormatArgument (f : t) (arg : Argument) : t :=
  let f := NeedPadding (WriteString (NoPadding (WriteWord f (argName arg))) ":") in
  WriteString f (Value_String (argValue arg)).

(** Writes the elements of a list with [NoPadding().WriteWord(",")] between
    them. *)
Fixpoint formatSeparated {A} (fmt : t -> A -> t) (f : t) (l : list A) : t :=
  match l with
  | [] => f
  | [x] => fmt f x
  | x :: rest => formatSeparated fmt (WriteWord (NoPadding (fmt f x)) ",") rest
  end.

Definition FormatArgumentList (f : t) (l : list Argument) : t :=
  match l with
  | [] => f
  | _ =>
      let f := WriteString (NoPadding f) "(" in
      NeedPadding (WriteString (formatSeparated FormatArgument f l) ")")
  end.

Definition FormatDirective (f : t) (dir : Directive) : t :=
  FormatArgumentList (WriteWord (WriteString f "@") (dirName dir)) (dirArguments dir).

Definition FormatDirectiveList (f : t) (l : DirectiveList) : t :=
  foldl FormatDirective f l.

Definition FormatType (f : t) (ty : Type_) : t := WriteWord f (Type_String ty).

Definition FormatDefault (f : t) (v : option Value) : t :=
  match v with
  | Some v => WriteString (WriteWord f "=") (Value_String v)
  | None => f
  end.

Definition FormatArgumentDefinition (f : t) (def : ArgumentDefinition) : t :=
  let described := negb (String.eqb (aDescription def) "") in
  let f := if described
           then WriteDescription (IncrementIndent (WriteNewline f)) (aDescription def)
           else f in
  let f := NeedPadding (WriteString (NoPadding (WriteWord f (aName def))) ":") in
  let f := FormatType f (aType def) in
  let f := FormatDefault f (aDefaultValue def) in
  let f := FormatDirectiveList (NeedPadding f) (aDirectives def) in
  if described then WriteNewline (DecrementIndent f) else f.

Definition FormatArgumentDefinitionList (f : t) (l : list ArgumentDefinition) : t :=
  match l with
  | [] => f
  | _ =>
      let f := WriteString f "(" in
      NeedPadding (WriteString (NoPadding (formatSeparated FormatArgumentDefinition f l)) ")")
  end.

Definition FormatFieldDefinition (f : t) (field : FieldDefinition) : t :=
  if String.prefix "__" (fName field) then f
  else
    let f := WriteDescription f (fDescription field) in
    let f := NoPadding (WriteWord f (fName field)) in
    let f := FormatArgumentDefinitionList f (fArguments field) in
    let f := NeedPadding (WriteString (NoPadding f) ":") in
    let f := FormatType f (fType field) in
    let f := FormatDefault f (fDefaultValue field) in
    WriteNewline (FormatDirectiveList f (fDirectives field)).

Definition FormatFieldList (f : t) (l : list FieldDefinition) : t :=
  match l with
  | [] => f
  | _ =>
      let f := IncrementIndent (WriteNewline (WriteString f "{")) in
      WriteString (DecrementIndent (foldl FormatFieldDefinition f l)) "}"
  end.

Definition FormatEnumValueDefinition (f : t) (def : EnumValueDefinition) : t :=
  let f := WriteWord (WriteDescription f (eDescription def)) (eName def) in
  WriteNewline (FormatDirectiveList f (eDirectives def)).

Definition FormatEnumValueList (f : t) (l : list EnumValueDefinition) : t :=
  match l with
  | [] => f
  | _ =>
      let f := IncrementIndent (WriteNewline (WriteString f "{")) in
      WriteString (DecrementIndent (foldl FormatEnumValueDefinition f l)) "}"
  end.

Definition Join (sep : string) (l : list string) : string := String.concat sep l.

Definition FormatDefinition_ (f : t) (def : Definition_) (extend : bool) : t :=
  if dBuiltIn def then f
  else
    let f := WriteDescription f (dDescription def) in
    let f := if extend then WriteWord f "extend" else f in
    let f :=
      match dKind def with
      | Scalar => WriteWord (WriteWord f "scalar") (dName def)
      | Object => WriteWord (WriteWord f "type") (dName def)
      | Interface => WriteWord (WriteWord f "interface") (dName def)
      | Union => WriteWord (WriteWord f "union") (dName def)
      | Enum => WriteWord (WriteWord f "enum") (dName def)
      | InputObject => WriteWord (WriteWord f "input") (dName def)
      | NoKind => f
      end in
    let f := match dInterfaces def with
             | [] => f
             | l => WriteWord (WriteWord f "implements") (Join " & " l)
             end in
    let f := FormatDirectiveList f (dDirectives def) in
    let f := match dTypes def with
             | [] => f
             | l => WriteWord (WriteWord f "=") (Join " | " l)
             end in
    let f := FormatFieldList f (dFields def) in
    let f := FormatEnumValueList f (dEnumValues def) in
    WriteNewline f.

End formatter.

#[local] Instance gqlFormatter : _internalFormatter :=
  {| FormatDefinition := fun def extend =>
       formatter.writer (formatter.FormatDefinition_ formatter.NewFormatter def extend) |}.

(** ** Schemas of replaces_directive_test.go, as syntax trees

    Each definition is built the way gqlparser builds it from the quoted
    source text; a position gives the source up to the definition's name. *)

Module Fixtures.

Definition directive0 (name : string) : Directive :=
  {| dirName := name; dirArguments := [] |}.

Definition replaces (oldName : string) : Directive :=
  {| dirName := "replaces"; dirArguments := [stringArgument "name" oldName] |}.

Definition replacesWithType (oldName oldType : string) : Directive :=
  {| dirName := "replaces";
     dirArguments := [stringArgument "name" oldName; stringArgument "type" oldType] |}.

Definition keyOn (selection : string) : Directive :=
  {| dirName := "key"; dirArguments := [stringArgument "fields" selection] |}.

Definition fieldWithArguments (name : string) (arguments : list ArgumentDefinition)
    (ty : Type_) (directives : DirectiveList) : FieldDefinition :=
  {| fDescription := ""; fName := name; fArguments := arguments;
     fDefaultValue := None; fType := ty; fDirectives := directives |}.

Definition field (name : string) (ty : Type_) (directives : DirectiveList)
  : FieldDefinition :=
  fieldWithArguments name [] ty directives.

Definition argument (name : string) (ty : Type_) (directives : DirectiveList)
  : ArgumentDefinition :=
  {| aDescription := ""; aName := name; aDefaultValue := None; aType := ty;
     aDirectives := directives |}.

Definition enumValue (name : string) (directives : DirectiveList)
  : EnumValueDefinition :=
  {| eDescription := ""; eName := name; eDirectives := directives |}.

Definition at_ (source : string) (start : Z) : option Position :=
  Some {| Start := start; SrcInput := source |}.

Definition object (name : string) (directives : DirectiveList)
    (fields : list FieldDefinition) (pos : option Position) : Definition_ :=
  {| dKind := Object; dDescription := ""; dName := name; dDirectives := directives;
     dInterfaces := []; dFields := fields; dTypes := []; dEnumValues := [];
     dPosition := pos; dBuiltIn := false |}.

Definition enum (name : string) (directives : DirectiveList)
    (values : list EnumValueDefinition) (pos : option Position) : Definition_ :=
  {| dKind := Enum; dDescription := ""; dName := name; dDirectives := directives;
     dInterfaces := []; dFields := []; dTypes := []; dEnumValues := values;
     dPosition := pos; dBuiltIn := false |}.

Definition described (description : string) (d : Definition_) : Definition_ :=
  {| dKind := dKind d; dDescription := description; dName := dName d;
     dDirectives := dDirectives d; dInterfaces := dInterfaces d;
     dFields := dFields d; dTypes := dTypes d; dEnumValues := dEnumValues d;
     dPosition := dPosition d; dBuiltIn := dBuiltIn d |}.

(** A heap holding the given definitions at addresses 0, 1, ..., and a
    schema that ranges over them in that order. *)
Definition heapOf (l : list Definition_) : Heap :=
  fun p => nth p l (emptyDefinition NoKind "").

Definition schemaOf (l : list Definition_) : Schema :=
  {| Types := seq 0 (length l) |}.

Definition String_ := NamedT "String" false.
Definition StringNN := NamedT "String" true.

(** [type Course @test { kaLocale: String @replaces(name: "locale") @test }] *)
Definition Course : Definition_ :=
  object "Course" [directive0 "test"]
    [field "kaLocale" String_ [replaces "locale"; directive0 "test"]]
    (at_ "type Course" 5).

(** [type Classroom @replaces(name: "StudentList", type: "StudentList") { id: String! }] *)
Definition ClassroomWithType : Definition_ :=
  object "Classroom" [replacesWithType "StudentList" "StudentList"]
    [field "id" StringNN []]
    (at_ "type Classroom" 5).

(** [type Classroom @replaces(name: "StudentList") @test
      { id: String!  teacherKaid: String! @replaces(name: "coachKaid") @test }] *)
Definition Classroom : Definition_ :=
  object "Classroom" [replaces "StudentList"; directive0 "test"]
    [field "id" StringNN [];
     field "teacherKaid" StringNN [replaces "coachKaid"; directive0 "test"]]
    (at_ "type Classroom" 5).

(** [extend type Classroom @replaces(name: "StudentList") @test { id: String! }] *)
Definition ClassroomExtended : Definition_ :=
  object "Classroom" [replaces "StudentList"; directive0 "test"]
    [field "id" StringNN []]
    (at_ "extend type Classroom" 12).

(** [type User { classroom(id: String!, teacherKaid: String! @replaces(name: "coachKaid")): Classroom }] *)
Definition UserWithRenamedArgument : Definition_ :=
  object "User" []
    [fieldWithArguments "classroom"
       [argument "id" StringNN [];
        argument "teacherKaid" StringNN [replaces "coachKaid"]]
       (NamedT "Classroom" false) []]
    (at_ "type User" 5).

(** [type User { classrooms: [Classroom!] @replaces(name: "studentLists", type: "StudentList") }] *)
Definition UserWithTypeOverride : Definition_ :=
  object "User" []
    [field "classrooms" (ListT (NamedT "Classroom" true) false)
       [replacesWithType "studentLists" "StudentList"]]
    (at_ "type User" 5).

(** [type UserKaLocaleCourse @key(fields: "id kaLocale kaid")
      { id: String!  kaid: String!  kaLocale: String @replaces(name: "locale") }] *)
Definition UserKaLocaleCourse : Definition_ :=
  object "UserKaLocaleCourse" [keyOn "id kaLocale kaid"]
    [field "id" StringNN []; field "kaid" StringNN [];
     field "kaLocale" String_ [replaces "locale"]]
    (at_ "type UserKaLocaleCourse" 5).

(** [enum ContentKind @replaces(name: "OldContentKind")
      { DOMAIN  COURSE @test @replaces(name: "TOPIC") }] *)
Definition ContentKind : Definition_ :=
  enum "ContentKind" [replaces "OldContentKind"]
    [enumValue "DOMAIN" [];
     enumValue "COURSE" [directive0 "test"; replaces "TOPIC"]]
    (at_ "enum ContentKind" 5).

(** [type A @replaces(name: "Old") { a: Int }] and
    [type B @replaces(name: "Old") { b: Int }] *)
Definition TypeA : Definition_ :=
  object "A" [replaces "Old"] [field "a" (NamedT "Int" false) []] (at_ "type A" 5).

Definition TypeB : Definition_ :=
  object "B" [replaces "Old"] [field "b" (NamedT "Int" false) []] (at_ "type A { a: Int } type B" 23).

(** [enum ContentKind @replaces(name: "OldContentKind", type: "OldContentKind")
      { DOMAIN  COURSE @test @replaces(name: "TOPIC") }] *)
Definition ContentKindWithType : Definition_ :=
  enum "ContentKind" [replacesWithType "OldContentKind" "OldContentKind"]
    [enumValue "DOMAIN" [];
     enumValue "COURSE" [directive0 "test"; replaces "TOPIC"]]
    (at_ "enum ContentKind" 5).

(** [type Course @key(fields: "id kaLocale") @key(fields: "id kaLocaleValue")
      { id: String!  kaLocale: String @replaces(name: "locale")
        kaLocaleValue: String }] *)
Definition CourseWithKeys : Definition_ :=
  object "Course" [keyOn "id kaLocale"; keyOn "id kaLocaleValue"]
    [field "id" StringNN []; field "kaLocale" String_ [replaces "locale"];
     field "kaLocaleValue" String_ []]
    (at_ "type Course" 5).

(** [type T @key(fields: "c")
      { c: Int @replaces(name: "b")  b: Int @replaces(name: "a") }] *)
Definition ChainedRenames : Definition_ :=
  object "T" [keyOn "c"]
    [field "c" (NamedT "Int" false) [replaces "b"];
     field "b" (NamedT "Int" false) [replaces "a"]]
    (at_ "type T" 5).

(** A field typed [[T!]!], renamed with [type: "U"]. *)
Definition ItemsInfo : _fieldInfo :=
  {| fi_field := field "items" (ListT (NamedT "T" true) true)
                   [replacesWithType "elements" "U"];
     fi_oldName := "elements"; fi_oldTypeName := "U" |}.

End Fixtures.

(** ** Specification-side notions

    The closed forms, relations and renamings in which the properties below
    are stated, each next to the source function it describes. *)

Import Fixtures.

(** The list/non-null nesting of a type, outermost first, and the named
    type at its core. *)
Fixpoint nesting (ty : Type_) : list bool :=
  match ty with
  | NamedT _ nonNull => [nonNull]
  | ListT elem nonNull => nonNull :: nesting elem
  end.

Fixpoint innermost (ty : Type_) : string :=
  match ty with
  | NamedT name _ => name
  | ListT elem _ => innermost elem
  end.

(** [r] with [es] appended to its error list. *)
Definition appendErrors (r : Replacer) (es : ErrorList) : Replacer :=
  set_errors r (errors r ++ es).

(** Two Replacers with the same indices: they agree on everything but the
    accumulated errors. *)
Definition sameIndices (r1 r2 : Replacer) : Prop :=
  fields r1 = fields r2 /\ definitions r1 = definitions r2
  /\ enumValues r1 = enumValues r2 /\ extraImplements r1 = extraImplements r2
  /\ extraUnionMembers r1 = extraUnionMembers r2
  /\ cacheReplacedTypes r1 = cacheReplacedTypes r2
  /\ definitionKinds r1 = definitionKinds r2
  /\ federationKeys r1 = federationKeys r2
  /\ hasProcessedSchema r1 = hasProcessedSchema r2.

(** A step that does not even read the indices. *)
Definition pureStep {X} (f : Replacer -> X * Replacer) : Prop :=
  forall r1 r2,
    exists x E, f r1 = (x, appendErrors r1 E) /\ f r2 = (x, appendErrors r2 E).

(** The old field and the errors its arguments raise, without the state. *)
Definition oldField (ownerKind : DefinitionKind) (fieldInfo : _fieldInfo)
  : FieldDefinition :=
  (oldFieldOf ownerKind NewReplacer fieldInfo).1.

Definition oldFieldErrors (ownerKind : DefinitionKind) (fieldInfo : _fieldInfo)
  : ErrorList :=
  errors (oldFieldOf ownerKind NewReplacer fieldInfo).2.

(** The keys after the rewriting loop has gone through all renamed fields. *)
Definition rewriteKeysAll (keys : KeyCopy) (fieldInfos : list _fieldInfo) : KeyCopy :=
  foldl (fun keys fieldInfo =>
           rewriteKeys keys (fName (fi_field fieldInfo)) (fi_oldName fieldInfo))
        keys fieldInfos.

(** The extension that stage 2 emits for [objectName]. *)
Definition fieldExtensionOf (ownerKind : DefinitionKind)
    (fieldInfos : list _fieldInfo) (keys : KeyCopy) (objectName : string)
  : Definition_ :=
  {| dKind := ownerKind; dDescription := ""; dName := objectName;
     dDirectives := updatedKeyDirectives (rewriteKeysAll keys fieldInfos);
     dInterfaces := []; dFields := map (oldField ownerKind) fieldInfos;
     dTypes := []; dEnumValues := [];
     dPosition := None; dBuiltIn := false |}.

(** The extensions emitted for the names of one owner, the key copy being
    handed from one name to the next. *)
Fixpoint fieldExtensionsFrom (ownerKind : DefinitionKind)
    (fieldInfos : list _fieldInfo) (keys : KeyCopy) (names : list string)
  : list Emitted :=
  match names with
  | [] => []
  | objectName :: rest =>
      (fieldExtensionOf ownerKind fieldInfos keys objectName, true)
      :: fieldExtensionsFrom ownerKind fieldInfos
           (rewriteKeysAll keys fieldInfos) rest
  end.

Definition fieldExtensionsOf (r : Replacer) (newObjectName : string) : list Emitted :=
  fieldExtensionsFrom
    (default NoKind (definitionKinds r !! newObjectName))
    (default [] (fields r !! newObjectName))
    (map (fun key => (key, false)) (default [] (federationKeys r !! newObjectName)))
    (allNames r newObjectName).

Definition fieldExtensionsErrors (r : Replacer) (newObjectName : string) : ErrorList :=
  flat_map
    (fun _ : string =>
       flat_map (oldFieldErrors (default NoKind (definitionKinds r !! newObjectName)))
         (default [] (fields r !! newObjectName)))
    (allNames r newObjectName).

(** Stage 2 as a whole. *)
Definition fieldStageOf (r : Replacer) : list Emitted :=
  flat_map (fieldExtensionsOf r) (sortedKeys (fields r)).

Definition fieldStageErrors (r : Replacer) : ErrorList :=
  flat_map (fieldExtensionsErrors r) (sortedKeys (fields r)).

(** The order of [sort.Slice] on a string key, and when [x] may stand in
    front of [y] in a slice sorted by it. *)
Definition lessBy {A} (key : A -> string) (x y : A) : bool :=
  String.ltb (key x) (key y).

Definition notAfter {A} (key : A -> string) (x y : A) : Prop :=
  lessBy key y x = false.

(** The marker of a directive list, and the error its extraction raises. *)
Definition marker (directives : DirectiveList) : option ReplaceInfo :=
  match GetReplaceInfo directives with inl info => Some info | inr _ => None end.

Definition markerErrors (directives : DirectiveList) : ErrorList :=
  match GetReplaceInfo directives with
  | inl _ => []
  | inr err => if errors_Is err kind.NotFound then [] else [err]
  end.

(** [m[k] = append(m[k], x)] for every [x] of [xs] in turn. *)
Definition mapAppendList {A} (m : gmap string (list A)) (k : string) (xs : list A)
  : gmap string (list A) :=
  match xs with
  | [] => m
  | _ :: _ => <[k := default [] (m !! k) ++ xs]> m
  end.

(** What pass 1 records and reports for a field, an enum value and a
    definition. *)
Definition argumentIndexErrors (typeName : string) (field : FieldDefinition)
    (arg : ArgumentDefinition) : ErrorList :=
  markerErrors (aDirectives arg) ++
  match marker (aDirectives arg) with
  | Some _ =>
      [WrapWithFields kind.Internal
         [("message", "@replaces directive on arguments can only be used on renamed fields");
          ("type", typeName); ("field", fName field); ("argument", aName arg)]]
  | None => []
  end.

Definition fieldIndexErrors (typeName : string) (definitionKind : DefinitionKind)
    (field : FieldDefinition) : ErrorList :=
  markerErrors (fDirectives field) ++
  match marker (fDirectives field) with
  | None => flat_map (argumentIndexErrors typeName field) (fArguments field)
  | Some replaceInfo =>
      if DefinitionKind_eqb definitionKind InputObject then
        (if NonNull (fType field) then
           [WrapWithFields kind.InvalidInput
              [("message", "input fields using the @replaces directive must be nullable");
               ("type", typeName); ("field", fName field)]]
         else []) ++
        (if _isNonListField field && negb (TreatZeroAsUnsetPresent replaceInfo) then
           [WrapWithFields kind.InvalidInput
              [("message", "@replaces directive on non-list input fields must include treatZeroAsUnset:true or treatZeroAsUnset:false");
               ("type", typeName); ("field", fName field)]]
         else [])
      else []
  end.

Definition fieldInfoOf (field : FieldDefinition) : list _fieldInfo :=
  match marker (fDirectives field) with
  | Some replaceInfo =>
      [{| fi_field := field; fi_oldName := OldName replaceInfo;
          fi_oldTypeName := OldTypeName replaceInfo |}]
  | None => []
  end.

Definition enumValueIndexErrors (enumName : string) (enumValue : EnumValueDefinition)
  : ErrorList :=
  markerErrors (eDirectives enumValue) ++
  match marker (eDirectives enumValue) with
  | Some replaceInfo =>
      if negb (String.eqb (OldTypeName replaceInfo) "") then
        [WrapWithFields kind.InvalidInput
           [("message", "@replaces directive on enum values can only use `name` argument");
            ("enum", enumName); ("enumValue", eName enumValue)]]
      else []
  | None => []
  end.

Definition enumValueInfoOf (enumValue : EnumValueDefinition) : list _enumValueInfo :=
  match marker (eDirectives enumValue) with
  | Some replaceInfo =>
      [{| ei_enumValue := enumValue; ei_newName := eName enumValue;
          ei_oldName := OldName replaceInfo |}]
  | None => []
  end.

Definition definitionIndexErrors (d : Definition_) : ErrorList :=
  markerErrors (dDirectives d) ++
  match marker (dDirectives d) with
  | Some replaceInfo =>
      if negb (String.eqb (OldTypeName replaceInfo) "") then
        [WrapWithFields kind.InvalidInput
           [("message", "@replaces directive on definitions can only use `name` argument");
            ("definition", dName d)]]
      else []
  | None => []
  end.

Definition definitionInfoOf (σ : Heap) (def : ptr) : list _definitionInfo :=
  match marker (dDirectives (σ def)) with
  | Some replaceInfo => [{| di_definition := def; di_oldName := OldName replaceInfo |}]
  | None => []
  end.

Definition hasFields (k : DefinitionKind) : bool :=
  match k with Object | InputObject | Interface => true | _ => false end.

Definition fieldInfosOf (d : Definition_) : list _fieldInfo :=
  if hasFields (dKind d) then flat_map fieldInfoOf (dFields d) else [].

Definition enumValueInfosOf (d : Definition_) : list _enumValueInfo :=
  if DefinitionKind_eqb (dKind d) Enum then flat_map enumValueInfoOf (dEnumValues d)
  else [].

Definition indexErrors (d : Definition_) : ErrorList :=
  definitionIndexErrors d ++
  (if hasFields (dKind d)
   then flat_map (fieldIndexErrors (dName d) (dKind d)) (dFields d) else []) ++
  (if DefinitionKind_eqb (dKind d) Enum
   then flat_map (enumValueIndexErrors (dName d)) (dEnumValues d) else []).

(** The effect of the first loop's body, written out. *)
Definition indexed (σ : Heap) (r : Replacer) (def : ptr) : Replacer :=
  let d := σ def in
  {| errors := errors r ++ indexErrors d;
     fields := mapAppendList (fields r) (dName d) (fieldInfosOf d);
     definitions := definitions r ++ definitionInfoOf σ def;
     enumValues := mapAppendList (enumValues r) (dName d) (enumValueInfosOf d);
     extraImplements := extraImplements r;
     extraUnionMembers := extraUnionMembers r;
     cacheReplacedTypes :=
       match marker (dDirectives d) with
       | Some replaceInfo => <[dName d := OldName replaceInfo]> (cacheReplacedTypes r)
       | None => cacheReplacedTypes r
       end;
     definitionKinds := <[dName d := dKind d]> (definitionKinds r);
     federationKeys := <[dName d := _getFederationKeys d]> (federationKeys r);
     hasProcessedSchema := hasProcessedSchema r |}.

(** The old names that [cacheReplacedTypes] has for the given names. *)
Definition oldNamesOf (r : Replacer) (names : list string) : list string :=
  flat_map (fun name => match cacheReplacedTypes r !! name with
                        | Some oldName => [oldName]
                        | None => []
                        end)
    names.

(** The effect of the second loop's body, written out. *)
Definition backfilled (σ : Heap) (r : Replacer) (def : ptr) : Replacer :=
  let d := σ def in
  {| errors := errors r; fields := fields r; definitions := definitions r;
     enumValues := enumValues r;
     extraImplements :=
       if DefinitionKind_eqb (dKind d) Object
       then mapAppendList (extraImplements r) (dName d) (oldNamesOf r (dInterfaces d))
       else extraImplements r;
     extraUnionMembers :=
       if DefinitionKind_eqb (dKind d) Union
       then mapAppendList (extraUnionMembers r) (dName d) (oldNamesOf r (dTypes d))
       else extraUnionMembers r;
     cacheReplacedTypes := cacheReplacedTypes r;
     definitionKinds := definitionKinds r; federationKeys := federationKeys r;
     hasProcessedSchema := hasProcessedSchema r |}.

(** Two Replacers that agree up to the order of the recorded definitions
    and of the accumulated errors. *)
Definition indexEquiv (r1 r2 : Replacer) : Prop :=
  errors r1 ≡ₚ errors r2
  /\ fields r1 = fields r2 /\ definitions r1 ≡ₚ definitions r2
  /\ enumValues r1 = enumValues r2 /\ extraImplements r1 = extraImplements r2
  /\ extraUnionMembers r1 = extraUnionMembers r2
  /\ cacheReplacedTypes r1 = cacheReplacedTypes r2
  /\ definitionKinds r1 = definitionKinds r2
  /\ federationKeys r1 = federationKeys r2
  /\ hasProcessedSchema r1 = hasProcessedSchema r2.

(** Stages 2 to 5 read the maps of the Replacer and nothing else. *)
Definition sameMaps (r1 r2 : Replacer) : Prop :=
  fields r1 = fields r2
  /\ enumValues r1 = enumValues r2 /\ extraImplements r1 = extraImplements r2
  /\ extraUnionMembers r1 = extraUnionMembers r2
  /\ cacheReplacedTypes r1 = cacheReplacedTypes r2
  /\ definitionKinds r1 = definitionKinds r2
  /\ federationKeys r1 = federationKeys r2.

Definition sortedDefinitions (r : Replacer) : list _definitionInfo :=
  sort_Slice (lessBy di_oldName) (definitions r).

(** The old names of the renamed definitions of a schema. *)
Definition renamedOldNames (σ : Heap) (schema : Schema) : list string :=
  flat_map (fun p => map di_oldName (definitionInfoOf σ p)) (Types schema).

(** Stage 1 changes nothing of a stored definition but its enum values. *)
Definition sameButEnumValues (d d' : Definition_) : Prop :=
  dKind d = dKind d' /\ dDescription d = dDescription d' /\ dName d = dName d'
  /\ dDirectives d = dDirectives d' /\ dInterfaces d = dInterfaces d'
  /\ dFields d = dFields d' /\ dTypes d = dTypes d'
  /\ dPosition d = dPosition d' /\ dBuiltIn d = dBuiltIn d'.

(** The entry of a slice-valued map after [xs] has been appended to it. *)
Definition appendedAt {A} (entry : option (list A)) (xs : list A) : option (list A) :=
  match xs with
  | [] => entry
  | _ :: _ => Some (default [] entry ++ xs)
  end.

(** The four entries that pass 1 writes under a name. *)
Record Entries : Type := {
  en_fields : option (list _fieldInfo);
  en_cache : option string;
  en_kind : option DefinitionKind;
  en_keys : option (list string) }.

Definition entriesOf (r : Replacer) (name : string) : Entries :=
  {| en_fields := fields r !! name; en_cache := cacheReplacedTypes r !! name;
     en_kind := definitionKinds r !! name; en_keys := federationKeys r !! name |}.

Definition indexedEntries (d : Definition_) (e : Entries) : Entries :=
  {| en_fields := appendedAt (en_fields e) (fieldInfosOf d);
     en_cache := match marker (dDirectives d) with
                 | Some replaceInfo => Some (OldName replaceInfo)
                 | None => en_cache e
                 end;
     en_kind := Some (dKind d);
     en_keys := Some (_getFederationKeys d) |}.

(** A non-empty string of word bytes, as every GraphQL name is. *)
Fixpoint allWordChars (s : string) : bool :=
  match s with
  | EmptyString => true
  | String c rest => isWordChar c && allWordChars rest
  end.

Definition isWordString (s : string) : bool :=
  negb (String.eqb s "") && allWordChars s.

(** The longest prefix of word bytes, and what follows it. *)
Fixpoint wordRun (s : string) : string :=
  match s with
  | EmptyString => EmptyString
  | String c rest => if isWordChar c then String c (wordRun rest) else EmptyString
  end.

Fixpoint afterRun (s : string) : string :=
  match s with
  | EmptyString => EmptyString
  | String c rest => if isWordChar c then afterRun rest else s
  end.

(** A text cut into its whole words (the maximal runs of word bytes) and
    the single bytes between them. *)
Fixpoint wordItems (s : string) : list string :=
  match s with
  | EmptyString => []
  | String c rest =>
      if isWordChar c then
        match wordItems rest with
        | String d t :: items =>
            if isWordChar d then String c (String d t) :: items
            else String c EmptyString :: String d t :: items
        | items => String c EmptyString :: items
        end
      else String c EmptyString :: wordItems rest
  end.

Definition startsWithWordChar (s : string) : bool := isWordAt (firstChar s).

(** The items of a text, put together again. *)
Definition joinItems (items : list string) : string := foldr String.append "" items.

(** An item, renamed if it is the word. *)
Definition replaceItem (word replacement item : string) : string :=
  if String.eqb item word then replacement else item.

(** One step of the key-rewriting loop, on the whole words of the key. *)
Definition rewriteKey (key newName oldName : string) : string :=
  if _containsExactWord key newName
  then _replaceExactWord key newName oldName else key.

(** The key rewriting that the specification asks for, on whole words: every
    whole word of the key that is the new name of a renamed field becomes
    that field's old name, and a key is attached when it has such a word. *)
Definition renameWord (infos : list _fieldInfo) (item : string) : string :=
  match List.find (fun fi => String.eqb (fName (fi_field fi)) item) infos with
  | Some fi => fi_oldName fi
  | None => item
  end.

Definition renameWords (infos : list _fieldInfo) (key : string) : string :=
  joinItems (map (renameWord infos) (wordItems key)).

Definition anyRenamedWord (infos : list _fieldInfo) (key : string) : bool :=
  existsb (fun fi => existsb (String.eqb (fName (fi_field fi))) (wordItems key))
    infos.

(** The names of the renamed fields are words, and no old name is the new
    name of a renamed field of the same owner. *)
Definition namesAreWords (infos : list _fieldInfo) : Prop :=
  forall fi, fi ∈ infos ->
    isWordString (fName (fi_field fi)) = true /\ isWordString (fi_oldName fi) = true.

Definition noRenameChain (infos : list _fieldInfo) : Prop :=
  forall f g, f ∈ infos -> g ∈ infos -> fi_oldName f <> fName (fi_field g).

(** What the loop over the renamed fields does to one key and its flag. *)
Definition rewriteEntry (infos : list _fieldInfo) (entry : string * bool)
  : string * bool :=
  foldl (fun '((key, hasUpdates) : string * bool) fi =>
           (rewriteKey key (fName (fi_field fi)) (fi_oldName fi),
            hasUpdates || _containsExactWord key (fName (fi_field fi))))
        entry infos.

Definition renamedKeys (infos : list _fieldInfo) (keys : list string) : KeyCopy :=
  map (fun key => (renameWords infos key, anyRenamedWord infos key)) keys.

(** ** Further notions for the properties of the overlay *)

Definition unmarked (directives : DirectiveList) : Prop :=
  forall d, d ∈ directives -> dirName d <> "replaces".

Definition noMarkers (d : Definition_) : Prop :=
  unmarked (dDirectives d)
  /\ (forall f, f ∈ dFields d ->
        unmarked (fDirectives f)
        /\ forall a, a ∈ fArguments f -> unmarked (aDirectives a))
  /\ (forall v, v ∈ dEnumValues d -> unmarked (eDirectives v)).

Definition PlainCourse : Definition_ :=
  object "Course" [directive0 "test"] [field "kaLocale" String_ []] (at_ "type Course" 5).

(** [interface CurationNode @replaces(name: "Topic") { id: String! }] and
    [type Domain implements CurationNode @replaces(name: "OldDomain") @test
    { id: String! }], of TestReplacedInterfaceOnReplacedObject. *)
Definition CurationNode : Definition_ :=
  {| dKind := Interface; dDescription := ""; dName := "CurationNode";
     dDirectives := [replaces "Topic"]; dInterfaces := [];
     dFields := [field "id" StringNN []]; dTypes := []; dEnumValues := [];
     dPosition := at_ "interface CurationNode" 10; dBuiltIn := false |}.

Definition Domain : Definition_ :=
  {| dKind := Object; dDescription := ""; dName := "Domain";
     dDirectives := [replaces "OldDomain"; directive0 "test"];
     dInterfaces := ["CurationNode"];
     dFields := [field "id" StringNN []]; dTypes := []; dEnumValues := [];
     dPosition := at_ "type Domain" 5; dBuiltIn := false |}.

(** The two entries that pass 2 writes under a name. *)
Definition extrasOf (r : Replacer) (name : string)
  : option (list string) * option (list string) :=
  (extraImplements r !! name, extraUnionMembers r !! name).

Definition backfilledExtras (r : Replacer) (d : Definition_)
    (e : option (list string) * option (list string))
  : option (list string) * option (list string) :=
  (if DefinitionKind_eqb (dKind d) Object
   then appendedAt e.1 (oldNamesOf r (dInterfaces d)) else e.1,
   if DefinitionKind_eqb (dKind d) Union
   then appendedAt e.2 (oldNamesOf r (dTypes d)) else e.2).

(** The old argument, without the state. *)
Definition oldArgument (argument : ArgumentDefinition) : ArgumentDefinition :=
  (oldArgumentOf NewReplacer argument).1.

Definition deprecatedDirective (message : string) : Directive :=
  {| dirName := "deprecated"; dirArguments := [stringArgument "reason" message] |}.

(** A non-empty string of bytes of one class. *)
Fixpoint allChars (p : ascii -> bool) (s : string) : bool :=
  match s with
  | EmptyString => true
  | String c rest => p c && allChars p rest
  end.

Definition isRunOf (p : ascii -> bool) (s : string) : bool :=
  negb (String.eqb s "") && allChars p s.

(** The last byte of a text, if it has one. *)
Fixpoint lastChar (s : string) : option ascii :=
  match s with
  | EmptyString => None
  | String c EmptyString => Some c
  | String _ rest => lastChar rest
  end.

(** The source text in front of a definition's name, and the last [n]
    bytes of a text. *)
Definition textBefore (pos : Position) : string :=
  String.substring 0 (Z.to_nat (Start pos)) (SrcInput pos).

Fixpoint dropBytes (n : nat) (s : string) : string :=
  match n, s with
  | S n, String _ rest => dropBytes n rest
  | _, _ => s
  end.

Definition lastBytes (n : nat) (s : string) : string :=
  dropBytes (String.length s - n) s.

(** A text that ends with a declaration's "extend": the word extend, a run
    of bytes of the class [between], the keyword of the declaration, and
    white space up to the end. *)
Definition endsWithExtend (between : ascii -> bool) (seen : string) : Prop :=
  exists before gap keyword spaces : string,
    seen = before +:+ "extend" +:+ gap +:+ keyword +:+ spaces
    /\ isWordAt (lastChar before) = false
    /\ isRunOf between gap = true
    /\ isWordString keyword = true
    /\ isRunOf isSpaceChar spaces = true.

(** The declaration in front of the name uses the keyword "extend": white
    space of any kind, line breaks included, may stand between "extend" and
    the keyword of the declaration. *)
Definition declaredWithExtend (pos : Position) : Prop :=
  endsWithExtend isSpaceChar (textBefore pos).

(** What the source looks for: "extend" within the last 25 bytes in front
    of the name, with spaces and tabs only between it and the keyword. *)
Definition recognisedExtend (pos : Position) : Prop :=
  endsWithExtend isBlankChar (lastBytes 25 (textBefore pos)).

(** [extend], a line break, [type Classroom @replaces(name: "StudentList")
    @test { id: String! }]: the declaration of
    TestExtendedDefinitionStaysExtendedAndOmitsDescription with a line
    break behind "extend". *)
Definition ClassroomExtendedOnTwoLines : Definition_ :=
  object "Classroom" [replaces "StudentList"; directive0 "test"]
    [field "id" StringNN []]
    (at_ ("extend" +:+ newline +:+ "type Classroom") 12).

(** ** The ReplacesDirective plugin: what it reads off the schema

    Package gqlgen_plugins, [_getSchemaInfo] and the two predicates on its
    result.  The plugin's structs share names with those of graphqltools;
    their fields carry a prefix here. *)

Module gqlgen_plugins.

Record _typeInfo : Type := {
  ti_kind : DefinitionKind;
  ti_oldName : string;
  ti_newName : string }.

Record _fieldInfo : Type := {
  pf_newName : string;
  pf_oldName : string;
  pf_wasRequiredBeforeRename : bool;
  pf_treatZeroAsUnset : bool }.

Record _fieldInfoGroup : Type := {
  fg_objectKind : DefinitionKind;
  fg_fields : list _fieldInfo }.

Record _schemaInfo : Type := {
  renamedTypes : gmap string _typeInfo;
  renamedFields : gmap string _fieldInfoGroup }.

(** [hasInputObjectFieldRenames], [hasObjectRenames]: a [range] over the
    map that returns at the first hit. *)
Definition hasInputObjectFieldRenames (s : _schemaInfo) : bool :=
  existsb (fun '((_, fieldGroup) : string * _fieldInfoGroup) =>
             DefinitionKind_eqb (fg_objectKind fieldGroup) InputObject)
    (map_to_list (renamedFields s)).

Definition hasObjectRenames (s : _schemaInfo) : bool :=
  existsb (fun '((_, typeInfo) : string * _typeInfo) =>
             DefinitionKind_eqb (ti_kind typeInfo) Object)
    (map_to_list (renamedTypes s)).

(** Body of the loop over [definition.Fields]; an error that has been
    returned stays returned. *)
Definition getSchemaInfo_field (definition : Definition_)
    (acc : _schemaInfo + error) (field : FieldDefinition) : _schemaInfo + error :=
  match acc with
  | inr err => inr err
  | inl replacements =>
      match GetReplaceInfo (fDirectives field) with
      | inr err => if errors_Is err kind.NotFound then inl replacements else inr err
      | inl replaceInfo =>
          let group :=
            default {| fg_objectKind := dKind definition; fg_fields := [] |}
              (renamedFields replacements !! dName definition) in
          inl {| renamedTypes := renamedTypes replacements;
                 renamedFields :=
                   <[dName definition :=
                       {| fg_objectKind := fg_objectKind group;
                          fg_fields :=
                            fg_fields group ++
                            [{| pf_newName := fName field;
                                pf_oldName := OldName replaceInfo;
                                pf_wasRequiredBeforeRename :=
                                  WasRequiredBeforeRename replaceInfo;
                                pf_treatZeroAsUnset := TreatZeroAsUnset replaceInfo |}] |}]>
                     (renamedFields replacements) |}
      end
  end.

(** Body of the loop over [schema.Types]. *)
Definition getSchemaInfo_definition (σ : Heap) (acc : _schemaInfo + error)
    (p : ptr) : _schemaInfo + error :=
  match acc with
  | inr err => inr err
  | inl replacements =>
      let definition := σ p in
      match dKind definition with
      | Object | InputObject =>
          match GetReplaceInfo (dDirectives definition) with
          | inr err =>
              if errors_Is err kind.NotFound
              then foldl (getSchemaInfo_field definition) (inl replacements)
                     (dFields definition)
              else inr err
          | inl replaceInfo =>
              foldl (getSchemaInfo_field definition)
                (inl {| renamedTypes :=
                          <[dName definition :=
                              {| ti_kind := dKind definition;
                                 ti_oldName := OldName replaceInfo;
                                 ti_newName := dName definition |}]>
                            (renamedTypes replacements);
                        renamedFields := renamedFields replacements |})
                (dFields definition)
          end
      | _ => inl replacements
      end
  end.

(** [_getSchemaInfo].  [schema] is the order in which the validation ranges
    over [schema.Types], [types] the order of the function's own loop over
    the same map. *)
Definition _getSchemaInfo (σ : Heap) (schema : Schema) (types : list ptr)
  : _schemaInfo + error :=
  match ValidateReplacesDirectives σ schema with
  | Some err => inr err
  | None =>
      foldl (getSchemaInfo_definition σ)
        (inl {| renamedTypes := ∅; renamedFields := ∅ |}) types
  end.

End gqlgen_plugins.

Section PluginSpecification.
Import gqlgen_plugins.

(** What [_getSchemaInfo] records for a field and for a definition. *)
Definition isObjectKind (k : DefinitionKind) : bool :=
  match k with Object | InputObject => true | _ => false end.

Definition pluginField (field : FieldDefinition) : list _fieldInfo :=
  match marker (fDirectives field) with
  | Some replaceInfo =>
      [{| pf_newName := fName field; pf_oldName := OldName replaceInfo;
          pf_wasRequiredBeforeRename := WasRequiredBeforeRename replaceInfo;
          pf_treatZeroAsUnset := TreatZeroAsUnset replaceInfo |}]
  | None => []
  end.

Definition pluginFieldInfosOf (d : Definition_) : list _fieldInfo :=
  flat_map pluginField (dFields d).

Definition pluginTypeInfoOf (d : Definition_) : option _typeInfo :=
  if isObjectKind (dKind d) then
    (fun replaceInfo =>
       {| ti_kind := dKind d; ti_oldName := OldName replaceInfo;
          ti_newName := dName d |})
      <$> marker (dDirectives d)
  else None.

Definition pluginFieldGroupOf (d : Definition_) : option _fieldInfoGroup :=
  if isObjectKind (dKind d) then
    match pluginFieldInfosOf d with
    | [] => None
    | infos => Some {| fg_objectKind := dKind d; fg_fields := infos |}
    end
  else None.

(** The group of [d] after the renamed fields [infos] have been appended
    to it. *)
Definition groupAppended (d : Definition_) (entry : option _fieldInfoGroup)
    (infos : list _fieldInfo) : option _fieldInfoGroup :=
  match infos with
  | [] => entry
  | _ :: _ =>
      let group := default {| fg_objectKind := dKind d; fg_fields := [] |} entry in
      Some {| fg_objectKind := fg_objectKind group;
              fg_fields := fg_fields group ++ infos |}
  end.

(** The two entries that the loop writes under a name. *)
Definition pluginEntriesOf (s : _schemaInfo) (name : string)
  : option _typeInfo * option _fieldInfoGroup :=
  (renamedTypes s !! name, renamedFields s !! name).

Definition pluginIndexedEntries (d : Definition_)
    (e : option _typeInfo * option _fieldInfoGroup)
  : option _typeInfo * option _fieldInfoGroup :=
  if isObjectKind (dKind d) then
    (match pluginTypeInfoOf d with Some typeInfo => Some typeInfo | None => e.1 end,
     groupAppended d e.2 (pluginFieldInfosOf d))
  else e.

(** A definition whose markers the extractor reads without error. *)
Definition readable (d : Definition_) : Prop :=
  markerErrors (dDirectives d) = []
  /\ forall f, f ∈ dFields d -> markerErrors (fDirectives f) = [].

End PluginSpecification.

(** ** operation_metadata.go: the metadata of an operation

    A selection of a validated query is a field (with the definition of the
    object it is selected on, its own definition in the schema and its
    selection set), a fragment spread (with the selection set of the
    fragment's definition) or an inline fragment.  A field without an alias
    has its name as [Alias]. *)

#[warnings="-register-all"]
Inductive Selection : Type :=
| Field (Alias Name : string) (ObjectDefinition : Definition_)
    (Definition' : FieldDefinition) (SelectionSet : list Selection)
| FragmentSpread (Definition_SelectionSet : list Selection)
| InlineFragment (SelectionSet : list Selection).

Definition SelectionSet := list Selection.

Record OperationMetadata : Type := {
  HasCanaryFields : bool;
  HasSideBySideFields : bool;
  HasMixedAliases : bool }.

Record _aliasFields : Type := {
  aliasFields : list string;
  nonAliasFields : list string }.

(** [new(_aliasFields)] and the zero [OperationMetadata]. *)
Definition new_aliasFields : _aliasFields := {| aliasFields := []; nonAliasFields := [] |}.

Definition zeroMetadata : OperationMetadata :=
  {| HasCanaryFields := false; HasSideBySideFields := false; HasMixedAliases := false |}.

Definition _hasCommonElement (a b : list string) : bool :=
  let valueInA : gmap string bool := foldl (fun m x => <[x := true]> m) ∅ a in
  existsb (fun x => default false (valueInA !! x)) b.

(** The loop over the directives of the field's definition: [isCanary] and
    [isSideBySide] after it.  The [break] leaves the loop over the
    arguments, not the one over the directives. *)
Definition migrateState (directives : DirectiveList) : bool * bool :=
  foldl (fun '((isCanary, isSideBySide) : bool * bool) directive =>
           if String.eqb (dirName directive) "migrate" then
             match ArgumentList_ForName (dirArguments directive) "state" with
             | Some argument =>
                 (String.eqb (Raw (argValue argument)) "canary",
                  String.eqb (Raw (argValue argument)) "side-by-side")
             | None => (isCanary, isSideBySide)
             end
           else (isCanary, isSideBySide))
        (false, false) directives.

(** The end of [processSelectionSetMetadata], after the loop. *)
Definition withCommonElement (metadata : OperationMetadata) (aliasInfo : _aliasFields)
  : OperationMetadata :=
  {| HasCanaryFields := HasCanaryFields metadata;
     HasSideBySideFields := HasSideBySideFields metadata;
     HasMixedAliases :=
       HasMixedAliases metadata
       || _hasCommonElement (aliasFields aliasInfo) (nonAliasFields aliasInfo) |}.

(** Body of the loop of [processSelectionSetMetadata], for one selection:
    [metadata] and the shared [aliasInfo] after it.  The metadata that the
    recursive call returns for a fragment is dropped by the source. *)
Fixpoint processSelectionMetadata (selection : Selection)
    (st : OperationMetadata * _aliasFields) {struct selection}
  : OperationMetadata * _aliasFields :=
  let '(metadata, aliasInfo) := st in
  match selection with
  | Field alias name _ definition selectionSet =>
      let '(isCanary, isSideBySide) := migrateState (fDirectives definition) in
      let aliasInfo :=
        if negb (String.eqb alias name)
        then {| aliasFields := aliasFields aliasInfo ++ [name];
                nonAliasFields := nonAliasFields aliasInfo |}
        else {| aliasFields := aliasFields aliasInfo;
                nonAliasFields := nonAliasFields aliasInfo ++ [name] |} in
      let sub :=
        fold_left (fun st s => processSelectionMetadata s st) selectionSet
          (zeroMetadata, new_aliasFields) in
      let subselectionMetadata := withCommonElement sub.1 sub.2 in
      ({| HasCanaryFields :=
            HasCanaryFields metadata || isCanary
            || HasCanaryFields subselectionMetadata;
          HasSideBySideFields :=
            isSideBySide || HasSideBySideFields metadata
            || HasSideBySideFields subselectionMetadata;
          HasMixedAliases :=
            HasMixedAliases metadata || HasMixedAliases subselectionMetadata |},
       aliasInfo)
  | FragmentSpread selectionSet | InlineFragment selectionSet =>
      let inner :=
        fold_left (fun st s => processSelectionMetadata s st) selectionSet
          (zeroMetadata, aliasInfo) in
      (metadata, inner.2)
  end.

Definition processSelectionSetMetadata (selectionSet : SelectionSet)
    (aliasInfo : _aliasFields) : OperationMetadata * _aliasFields :=
  let '(metadata, aliasInfo) :=
    fold_left (fun st s => processSelectionMetadata s st) selectionSet
      (zeroMetadata, aliasInfo) in
  (withCommonElement metadata aliasInfo, aliasInfo).

(** The fields of a selection set at the level of its object: its own
    fields and those of its fragments, each with alias and name. *)
Fixpoint levelFields (selection : Selection) : list (string * string) :=
  match selection with
  | Field alias name _ _ _ => [(alias, name)]
  | FragmentSpread selectionSet | InlineFragment selectionSet =>
      flat_map levelFields selectionSet
  end.

Definition aliasedNames (selectionSet : SelectionSet) : list string :=
  flat_map (fun '((alias, name) : string * string) =>
              if negb (String.eqb alias name) then [name] else [])
    (flat_map levelFields selectionSet).

Definition plainNames (selectionSet : SelectionSet) : list string :=
  flat_map (fun '((alias, name) : string * string) =>
              if negb (String.eqb alias name) then [] else [name])
    (flat_map levelFields selectionSet).

(** A field that satisfies [flag], reached through fields only. *)
Fixpoint anyField (flag : DirectiveList -> bool) (selection : Selection) : bool :=
  match selection with
  | Field _ _ _ definition selectionSet =>
      flag (fDirectives definition) || existsb (anyField flag) selectionSet
  | FragmentSpread _ | InlineFragment _ => false
  end.

(** A field, reached through fields only, whose selection set names a field
    both with and without an alias. *)
Fixpoint mixedBelow (selection : Selection) : bool :=
  match selection with
  | Field _ _ _ _ selectionSet =>
      existsb mixedBelow selectionSet
      || _hasCommonElement (aliasedNames selectionSet) (plainNames selectionSet)
  | FragmentSpread _ | InlineFragment _ => false
  end.

(** The two flags that the loop over the directives computes. *)
Definition canaryFlag (directives : DirectiveList) : bool := (migrateState directives).1.
Definition sideBySideFlag (directives : DirectiveList) : bool := (migrateState directives).2.

(** What one selection adds to the metadata and to the alias bookkeeping. *)
Definition selectionAdds (selection : Selection)
    (st : OperationMetadata * _aliasFields) : OperationMetadata * _aliasFields :=
  ({| HasCanaryFields := HasCanaryFields st.1 || anyField canaryFlag selection;
      HasSideBySideFields := HasSideBySideFields st.1 || anyField sideBySideFlag selection;
      HasMixedAliases := HasMixedAliases st.1 || mixedBelow selection |},
   {| aliasFields := aliasFields st.2 ++ aliasedNames [selection];
      nonAliasFields := nonAliasFields st.2 ++ plainNames [selection] |}).

Definition selectionSetAdds (selectionSet : SelectionSet)
    (st : OperationMetadata * _aliasFields) : OperationMetadata * _aliasFields :=
  ({| HasCanaryFields := HasCanaryFields st.1 || existsb (anyField canaryFlag) selectionSet;
      HasSideBySideFields :=
        HasSideBySideFields st.1 || existsb (anyField sideBySideFlag) selectionSet;
      HasMixedAliases := HasMixedAliases st.1 || existsb mixedBelow selectionSet |},
   {| aliasFields := aliasFields st.2 ++ aliasedNames selectionSet;
      nonAliasFields := nonAliasFields st.2 ++ plainNames selectionSet |}).

(** ** The services of an operation

    [ServicesForOperation] and the functions under it.  They read a
    composed schema through [schema.Types] and [schema.PossibleTypes], and
    a validated query through its selections. *)

(** A call returns, panics, or (in the embedding only) runs out of the fuel
    that bounds the recursion of [serviceForField] through the possible
    types of interfaces. *)
Inductive Outcome (A : Type) : Type :=
| Returns (a : A)
| Panics
| OutOfFuel.
Arguments Returns {A} a.
Arguments Panics {A}.
Arguments OutOfFuel {A}.

Definition andThen {A B} (o : Outcome A) (f : A -> Outcome B) : Outcome B :=
  match o with
  | Returns a => f a
  | Panics => Panics
  | OutOfFuel => OutOfFuel
  end.

(** [*ast.Schema], as these functions read it. *)
Record ComposedSchema : Type := {
  cTypes : gmap string Definition_;
  PossibleTypes : gmap string (list Definition_) }.

(** The first element for which a nested search returns: loops whose body
    returns from the function on a hit and goes on otherwise. *)
Fixpoint firstHit {A B} (f : A -> option B) (l : list A) : option B :=
  match l with
  | [] => None
  | x :: rest => match f x with Some b => Some b | None => firstHit f rest end
  end.

(** The [Raw] value of the first argument [argument] of the first directive
    [directive] that has one. *)
Definition directiveArgument (directive argument : string) (directives : DirectiveList)
  : option string :=
  firstHit (fun d =>
              if String.eqb (dirName d) directive then
                firstHit (fun a => if String.eqb (argName a) argument
                                   then Some (Raw (argValue a)) else None)
                  (dirArguments d)
              else None)
    directives.

(** [serviceNameFromEnum]: a missing "join__Graph" type is a nil
    dereference, no matching enum value the explicit panic. *)
Definition serviceNameFromEnum (schema : ComposedSchema) (enumName : string)
  : Outcome string :=
  match cTypes schema !! "join__Graph" with
  | None => Panics
  | Some graph =>
      match firstHit (fun enum =>
                        if String.eqb (eName enum) enumName
                        then directiveArgument "join__graph" "name" (eDirectives enum)
                        else None)
              (dEnumValues graph) with
      | Some name => Returns name
      | None => Panics
      end
  end.

Definition serviceForConcreteType (schema : ComposedSchema) (objectDefinition : Definition_)
  : Outcome string :=
  match directiveArgument "join__owner" "graph" (dDirectives objectDefinition) with
  | Some enumName => serviceNameFromEnum schema enumName
  | None => Returns ""
  end.

Definition servicesForType (schema : ComposedSchema) (objectDefinition : Definition_)
  : Outcome (list string) :=
  foldl (fun acc concreteType =>
           andThen acc (fun services =>
           andThen (serviceForConcreteType schema concreteType) (fun service =>
           Returns (if negb (String.eqb service "") then services ++ [service]
                    else services))))
        (Returns [])
        (default [] (PossibleTypes schema !! dName objectDefinition)).

(** Body of the loop of [serviceForInterfaceField] for one concrete type,
    with the call of [serviceForField] on it as [forField].  The state of
    the loop is [service] and [previousConcreteTypeName]; the inner loop
    stops at the first field of that name. *)
Definition interfaceFieldStep
    (forField : Definition_ -> FieldDefinition -> Outcome string) (fieldName : string)
    (st : string * string) (concreteType : Definition_) : Outcome (string * string) :=
  let '(service, previousConcreteTypeName) := st in
  match List.find (fun field => String.eqb (fName field) fieldName)
          (dFields concreteType) with
  | None => Returns (service, previousConcreteTypeName)
  | Some field =>
      let isFirstConcreteType := String.eqb previousConcreteTypeName "" in
      andThen (forField concreteType field) (fun serviceForThisType =>
      if negb isFirstConcreteType && negb (String.eqb serviceForThisType service)
      then Panics
      else Returns (serviceForThisType, dName concreteType))
  end.

Definition serviceForInterfaceField_with
    (forField : Definition_ -> FieldDefinition -> Outcome string)
    (schema : ComposedSchema) (objectDefinition : Definition_) (fieldName : string)
  : Outcome string :=
  andThen
    (foldl (fun acc concreteType =>
              andThen acc (fun st => interfaceFieldStep forField fieldName st concreteType))
           (Returns ("", ""))
           (default [] (PossibleTypes schema !! dName objectDefinition)))
    (fun st => Returns st.1).

Fixpoint serviceForField (fuel : nat) (schema : ComposedSchema)
    (objectDefinition : Definition_) (fieldDefinition : FieldDefinition)
  : Outcome string :=
  match fuel with
  | O => OutOfFuel
  | S fuel =>
      if DefinitionKind_eqb (dKind objectDefinition) Interface then
        serviceForInterfaceField_with (serviceForField fuel schema) schema
          objectDefinition (fName fieldDefinition)
      else
        match directiveArgument "join__field" "graph" (fDirectives fieldDefinition) with
        | Some enumName => serviceNameFromEnum schema enumName
        | None => Returns ""
        end
  end.

Definition serviceForInterfaceField (fuel : nat) (schema : ComposedSchema)
    (objectDefinition : Definition_) (fieldName : string) : Outcome string :=
  serviceForInterfaceField_with (serviceForField fuel schema) schema objectDefinition
    fieldName.

Definition uniqueServices := gset string.

(** The loop of [processSelectionSet]: the services of every selection are
    entered into one set, selection after selection; a panic ends it. *)
Definition servicesOfAll {A} (f : A -> Outcome uniqueServices) (l : list A)
  : Outcome uniqueServices :=
  fold_left (fun acc s =>
               andThen acc (fun services =>
               andThen (f s) (fun more => Returns (services ∪ more))))
    l (Returns ∅).

(** What [processSelectionSet] enters into [services] for one selection. *)
Fixpoint selectionServices (fuel : nat) (schema : ComposedSchema)
    (selection : Selection) {struct selection} : Outcome uniqueServices :=
  match selection with
  | Field _ _ objectDefinition fieldDefinition selectionSet =>
      andThen (servicesForType schema objectDefinition) (fun objectServices =>
      andThen (serviceForField fuel schema objectDefinition fieldDefinition)
        (fun fieldService =>
      andThen (servicesOfAll (selectionServices fuel schema) selectionSet)
        (fun below =>
      Returns (list_to_set objectServices
               ∪ (if negb (String.eqb fieldService "") then {[fieldService]} else ∅)
               ∪ below))))
  | FragmentSpread selectionSet | InlineFragment selectionSet =>
      servicesOfAll (selectionServices fuel schema) selectionSet
  end.

Definition processSelectionSet (fuel : nat) (schema : ComposedSchema)
    (selectionSet : SelectionSet) : Outcome uniqueServices :=
  servicesOfAll (selectionServices fuel schema) selectionSet.

(** [ServicesForOperation], from the operations of the query that
    [gqlparser.LoadQuery] has loaded and validated; the keys of [services]
    are collected in the order the map yields them and then sorted. *)
Definition ServicesForOperation (fuel : nat) (schema : ComposedSchema)
    (operations : list SelectionSet) : Outcome (list string + error) :=
  match operations with
  | [operation] =>
      andThen (processSelectionSet fuel schema operation) (fun services =>
      Returns (inl (sort_Strings (elements services))))
  | _ => Returns (inr (Wrap kind.Internal "each query must contain exactly one operation"))
  end.

(** *** The composed schema of testdata/schema.graphql, as far as the
    queries below reach it *)
Module OperationFixtures.

Definition joinField (graph : string) : Directive :=
  {| dirName := "join__field";
     dirArguments := [{| argName := "graph";
                         argValue := {| Raw := graph; VKind := EnumValue |} |}] |}.

Definition joinOwner (graph : string) : Directive :=
  {| dirName := "join__owner";
     dirArguments := [{| argName := "graph";
                         argValue := {| Raw := graph; VKind := EnumValue |} |}] |}.

Definition joinType (graph : string) : Directive :=
  {| dirName := "join__type";
     dirArguments := [stringArgument "key" "id";
                      {| argName := "graph";
                         argValue := {| Raw := graph; VKind := EnumValue |} |}] |}.

Definition joinGraph (name : string) : Directive :=
  {| dirName := "join__graph";
     dirArguments := [stringArgument "name" name; stringArgument "url" "unused"] |}.

Definition federated : DirectiveList :=
  [joinOwner "SERVICE_A"; joinType "SERVICE_A"; joinType "SERVICE_B"].

Definition implementing (interface : string) (d : Definition_) : Definition_ :=
  {| dKind := dKind d; dDescription := dDescription d; dName := dName d;
     dDirectives := dDirectives d; dInterfaces := [interface];
     dFields := dFields d; dTypes := dTypes d; dEnumValues := dEnumValues d;
     dPosition := dPosition d; dBuiltIn := dBuiltIn d |}.

Definition ID_ := NamedT "ID" true.

Definition join__Graph : Definition_ :=
  enum "join__Graph" []
    [enumValue "SERVICE_A" [joinGraph "serviceA"];
     enumValue "SERVICE_B" [joinGraph "serviceB"]] None.

Definition SameServiceOwnerInterface : Definition_ :=
  {| dKind := Interface; dDescription := ""; dName := "SameServiceOwnerInterface";
     dDirectives := []; dInterfaces := [];
     dFields := [field "id" ID_ []; field "serviceAField" StringNN [];
                 field "serviceBField" StringNN []];
     dTypes := []; dEnumValues := []; dPosition := None; dBuiltIn := false |}.

Definition SameServiceOwnerConcreteOne : Definition_ :=
  implementing "SameServiceOwnerInterface"
    (object "SameServiceOwnerConcreteOne" federated
       [field "id" ID_ []; field "serviceAField" StringNN [];
        field "serviceBField" StringNN [joinField "SERVICE_B"]] None).

Definition SameServiceOwnerConcreteTwo : Definition_ :=
  implementing "SameServiceOwnerInterface"
    (object "SameServiceOwnerConcreteTwo" federated
       [field "id" ID_ []; field "serviceAField" StringNN [];
        field "serviceBField" StringNN [joinField "SERVICE_B"];
        field "fieldOnlyInServiceB" StringNN [joinField "SERVICE_B"]] None).

Definition sameServiceOwnerInterface : FieldDefinition :=
  field "sameServiceOwnerInterface"
    (ListT (NamedT "SameServiceOwnerInterface" true) true) [joinField "SERVICE_A"].

Definition Query : Definition_ :=
  object "Query" [] [sameServiceOwnerInterface] None.

Definition composed : ComposedSchema :=
  {| cTypes :=
       list_to_map
         (map (fun d => (dName d, d))
            [join__Graph; SameServiceOwnerInterface; SameServiceOwnerConcreteOne;
             SameServiceOwnerConcreteTwo; Query]);
     PossibleTypes :=
       list_to_map
         [("SameServiceOwnerInterface",
           [SameServiceOwnerConcreteOne; SameServiceOwnerConcreteTwo]);
          ("SameServiceOwnerConcreteOne", [SameServiceOwnerConcreteOne]);
          ("SameServiceOwnerConcreteTwo", [SameServiceOwnerConcreteTwo]);
          ("Query", [Query])] |}.

Definition selected (objectDefinition : Definition_) (name : string)
    (selectionSet : SelectionSet) : Selection :=
  Field name name objectDefinition
    (default (field name String_ [])
       (List.find (fun f => String.eqb (fName f) name) (dFields objectDefinition)))
    selectionSet.

(** [query { sameServiceOwnerInterface { serviceAField serviceBField } }]
    (TestInterfaceMultipleServices) *)
Definition interfaceMultipleServices : SelectionSet :=
  [selected Query "sameServiceOwnerInterface"
     [selected SameServiceOwnerInterface "serviceAField" [];
      selected SameServiceOwnerInterface "serviceBField" []]].

(** [query { sameServiceOwnerInterface { serviceAField
    ... on SameServiceOwnerConcreteTwo { fieldOnlyInServiceB } } }]
    (TestInterfaceMultipleServicesInlineFragment) *)
Definition interfaceInlineFragment : SelectionSet :=
  [selected Query "sameServiceOwnerInterface"
     [selected SameServiceOwnerInterface "serviceAField" [];
      InlineFragment
        [selected SameServiceOwnerConcreteTwo "fieldOnlyInServiceB" []]]].

End OperationFixtures.

(** The fields that a selection reaches, below fields and through
    fragments, each with the object it is selected on, in source order. *)
Fixpoint reachedFields (selection : Selection) : list (Definition_ * FieldDefinition) :=
  match selection with
  | Field _ _ objectDefinition fieldDefinition selectionSet =>
      (objectDefinition, fieldDefinition) :: flat_map reachedFields selectionSet
  | FragmentSpread selectionSet | InlineFragment selectionSet =>
      flat_map reachedFields selectionSet
  end.

(** The services that one field contributes: the owners of the possible
    types of its object, and its own service when it has one. *)
Definition fieldServices (fuel : nat) (schema : ComposedSchema)
    (reached : Definition_ * FieldDefinition) : Outcome uniqueServices :=
  andThen (servicesForType schema reached.1) (fun objectServices =>
  andThen (serviceForField fuel schema reached.1 reached.2) (fun fieldService =>
  Returns (list_to_set objectServices
           ∪ (if negb (String.eqb fieldService "") then {[fieldService]} else ∅)))).

(** No interface is a possible type of anything. *)
Definition concretePossibleTypes (schema : ComposedSchema) : Prop :=
  forall name types,
    PossibleTypes schema !! name = Some types ->
    Forall (fun t => dKind t <> Interface) types.

(** * Properties *)

(** ** The text utilities on the examples of the specification *)

Example containsExactWord_whole : _containsExactWord "id kaLocale" "kaLocale" = true.
Proof. reflexivity. Qed.
Example containsExactWord_sub : _containsExactWord "id kaLocaleValue" "kaLocale" = false.
Proof. reflexivity. Qed.
Example replaceExactWord_ex : _replaceExactWord "id kaLocale kaid" "kaLocale" "locale" = "id locale kaid".
Proof. reflexivity. Qed.
Example title_ex : strings_Title "studentLists" = "StudentLists".
Proof. reflexivity. Qed.

(** The table of TestDefinitionHasExtends: each source text with the offset
    of the definition's name in it. *)
Example definitionHasExtends_table :
  map (fun '((source, start) : string * Z) =>
         _definitionHasExtends (object "" [] [] (at_ source start)))
    [("extend type StudentList { kaid: String! }", 12%Z);
     ("enum ContentKind { ARTICLE VIDEO EXERCISE } extend type StudentList { kaid: String! }", 56%Z);
     (" extend   type     StudentList { kaid: String! }", 19%Z);
     ("extend type SomeReallyReallyLongTypeName { kaid: String! }", 12%Z);
     ("type StudentList { kaid: String! }", 5%Z);
     ("enum ContentKind { ARTICLE VIDEO EXERCISE } type StudentList { kaid: String! }", 49%Z);
     ("extend interface CurationNode { kind: String! }", 17%Z);
     ("extend input CurationNode { kind: String! }", 13%Z);
     ("#extend" +:+ newline +:+ "type StudentList { kaid: String! }", 13%Z)]
  = [true; true; true; true; false; false; true; true; false].
Proof. vm_compute. reflexivity. Qed.

(** TestFieldName, end to end: the overlay for
    [type Course @test { kaLocale: String @replaces(name: "locale") @test }]. *)
Example overlay_of_Course :
  (GetReplacesDirectiveUpdates (heapOf [Course]) (schemaOf [Course])).1
  = ("extend type Course {" +:+ newline
     +:+ "    locale: String @test @deprecated(reason: "
     +:+ formatter.dquote +:+ "Replaced by kaLocale." +:+ formatter.dquote
     +:+ ") @goField(name: "
     +:+ formatter.dquote +:+ "DeprecatedLocale" +:+ formatter.dquote +:+ ")" +:+ newline
     +:+ "}" +:+ newline +:+ newline,
     None).
Proof. vm_compute. reflexivity. Qed.

(** ** Pass 1 on a definition (C5) *)

(** C5, as stated, does not hold: a Definition whose marker carries a type
    override is recorded all the same.  [type Classroom @replaces(name:
    "StudentList", type: "StudentList")] ends up in [cacheReplacedTypes]. *)
Lemma type_override_definition_is_recorded :
  ~ (forall (σ : Heap) (r : Replacer) (def : ptr) (info : ReplaceInfo),
        GetReplaceInfo (dDirectives (σ def)) = inl info ->
        OldTypeName info <> "" ->
        cacheReplacedTypes (_processDefinition σ r def) = cacheReplacedTypes r
        /\ definitions (_processDefinition σ r def) = definitions r).
Proof.
  intros H.
  destruct (H (heapOf [ClassroomWithType]) NewReplacer 0%nat _ eq_refl) as [_ Hd].
  - discriminate.
  - vm_compute in Hd. discriminate.
Qed.

(** C5, amended: in pass 1 a Definition whose marker carries a type override
    gets an InvalidInput error accumulated, and every marked Definition,
    with or without a type override, is recorded as [{definition, oldName}]
    and in the new-name to old-name table; an unmarked one is not. *)
Theorem processDefinition_records_every_marked_definition :
  forall (σ : Heap) (r : Replacer) (def : ptr),
    let r' := _processDefinition σ r def in
    match GetReplaceInfo (dDirectives (σ def)) with
    | inl info =>
        definitions r' =
          definitions r ++ [{| di_definition := def; di_oldName := OldName info |}]
        /\ cacheReplacedTypes r' =
             <[dName (σ def) := OldName info]> (cacheReplacedTypes r)
        /\ errors r' =
             errors r ++
             (if String.eqb (OldTypeName info) "" then []
              else [WrapWithFields kind.InvalidInput
                      [("message", "@replaces directive on definitions can only use `name` argument");
                       ("definition", dName (σ def))]])
    | inr _ =>
        definitions r' = definitions r
        /\ cacheReplacedTypes r' = cacheReplacedTypes r
    end.
Proof.
  intros σ r def. unfold _processDefinition, getReplaceInfo. cbn zeta.
  destruct (GetReplaceInfo (dDirectives (σ def))) as [info | err]; cbn.
  - destruct (String.eqb (OldTypeName info) ""); cbn.
    + repeat split. by rewrite app_nil_r.
    + repeat split.
  - destruct (errors_Is err kind.NotFound); cbn; split; reflexivity.
Qed.

(** ** The kinds of the accumulated violations (C4) *)

(** The three violations that the source wraps in [kind.InvalidInput]. *)
Lemma processField_nonNull_input_is_InvalidInput typeName r field info :
  GetReplaceInfo (fDirectives field) = inl info ->
  NonNull (fType field) = true ->
  exists e, In e (errors (_processField typeName InputObject r field))
            /\ kindOf e = kind.InvalidInput
            /\ e = WrapWithFields kind.InvalidInput
                     [("message", "input fields using the @replaces directive must be nullable");
                      ("type", typeName); ("field", fName field)].
Proof.
  intros Hinfo Hnn. unfold _processField, getReplaceInfo. rewrite Hinfo, Hnn. cbn.
  eexists. split; [|split; [|reflexivity]; reflexivity].
  destruct (_isNonListField field && negb (TreatZeroAsUnsetPresent info)); cbn;
    rewrite !in_app_iff; cbn; tauto.
Qed.

Lemma processField_missing_treatZero_is_InvalidInput typeName r field info :
  GetReplaceInfo (fDirectives field) = inl info ->
  _isNonListField field = true ->
  TreatZeroAsUnsetPresent info = false ->
  exists e, In e (errors (_processField typeName InputObject r field))
            /\ kindOf e = kind.InvalidInput.
Proof.
  intros Hinfo Hnl Hp. unfold _processField, getReplaceInfo.
  rewrite Hinfo, Hnl, Hp. cbn.
  exists (WrapWithFields kind.InvalidInput
            [("message", "@replaces directive on non-list input fields must include treatZeroAsUnset:true or treatZeroAsUnset:false");
             ("type", typeName); ("field", fName field)]).
  split; [|reflexivity].
  destruct (NonNull (fType field)); cbn; rewrite !in_app_iff; cbn; tauto.
Qed.

Lemma processEnumValue_type_override_is_InvalidInput enumName r enumValue info :
  GetReplaceInfo (eDirectives enumValue) = inl info ->
  OldTypeName info <> "" ->
  exists e, In e (errors (_processEnumValue enumName r enumValue))
            /\ kindOf e = kind.InvalidInput.
Proof.
  intros Hinfo Hty. unfold _processEnumValue, getReplaceInfo. rewrite Hinfo. cbn.
  destruct (String.eqb_spec (OldTypeName info) ""); [contradiction|]. cbn.
  exists (WrapWithFields kind.InvalidInput
            [("message", "@replaces directive on enum values can only use `name` argument");
             ("enum", enumName); ("enumValue", eName enumValue)]).
  split; [|reflexivity]. rewrite in_app_iff; cbn; tauto.
Qed.

(** C4 fails for one of the four violations: an argument rename on a field
    that carries no marker is accumulated as [kind.Internal].  The schema is
    the one of TestFieldMustBeReplacedIfArgumentReplaced,
    [type User { classroom(id: String!, teacherKaid: String!
    @replaces(name: "coachKaid")): Classroom }]. *)
Theorem argument_rename_without_field_rename_is_Internal :
  errors (processSchema (heapOf [UserWithRenamedArgument]) NewReplacer
            (schemaOf [UserWithRenamedArgument]))
  = [WrapWithFields kind.Internal
       [("message", "@replaces directive on arguments can only be used on renamed fields");
        ("type", "User"); ("field", "classroom"); ("argument", "teacherKaid")]].
Proof. vm_compute. reflexivity. Qed.

(** ** The shape of a rebuilt type (C7) *)

Lemma updateType_nesting ty name : nesting (_updateType ty name) = nesting ty.
Proof. induction ty as [n b | e IH b]; cbn; [reflexivity | by rewrite IH]. Qed.

Lemma updateType_innermost ty name : innermost (_updateType ty name) = name.
Proof. induction ty as [n b | e IH b]; cbn; [reflexivity | exact IH]. Qed.

(** A type is its nesting around its innermost name. *)
Lemma nesting_innermost_inj ty1 ty2 :
  nesting ty1 = nesting ty2 -> innermost ty1 = innermost ty2 -> ty1 = ty2.
Proof.
  revert ty2. induction ty1 as [n1 b1 | e1 IH b1]; intros [n2 b2 | e2 b2]; cbn;
    intros Hn Hi.
  - congruence.
  - destruct e2; discriminate.
  - destruct e1; discriminate.
  - injection Hn as -> Hn. f_equal. by apply IH.
Qed.

Lemma oldFieldOf_type ownerKind r fieldInfo :
  fType (oldFieldOf ownerKind r fieldInfo).1 =
    if negb (String.eqb (fi_oldTypeName fieldInfo) "")
    then _updateType (fType (fi_field fieldInfo)) (fi_oldTypeName fieldInfo)
    else fType (fi_field fieldInfo).
Proof.
  unfold oldFieldOf.
  destruct (oldArgumentsOf r (fArguments (fi_field fieldInfo))) as [args r'].
  destruct (negb (DefinitionKind_eqb ownerKind InputObject));
    [|destruct (String.eqb (fDescription (fi_field fieldInfo)) "")]; reflexivity.
Qed.

(** C7: for a renamed field with an old-type override, the old field that
    stage 2 emits has a type with exactly the list/non-null nesting of the
    new field's type, and the override as its innermost named type; it is
    the only type with that nesting and that innermost name. *)
Theorem old_field_type_keeps_nesting :
  forall (ownerKind : DefinitionKind) (r : Replacer) (fieldInfo : _fieldInfo),
    fi_oldTypeName fieldInfo <> "" ->
    let oldField := (oldFieldOf ownerKind r fieldInfo).1 in
    nesting (fType oldField) = nesting (fType (fi_field fieldInfo))
    /\ innermost (fType oldField) = fi_oldTypeName fieldInfo
    /\ forall ty, nesting ty = nesting (fType (fi_field fieldInfo)) ->
                  innermost ty = fi_oldTypeName fieldInfo ->
                  fType oldField = ty.
Proof.
  intros ownerKind r fieldInfo Hov oldField. subst oldField.
  rewrite oldFieldOf_type.
  destruct (String.eqb_spec (fi_oldTypeName fieldInfo) ""); [contradiction|]. cbn.
  split; [apply updateType_nesting | split; [apply updateType_innermost |]].
  intros ty Hn Hi. apply nesting_innermost_inj.
  - by rewrite updateType_nesting.
  - by rewrite updateType_innermost.
Qed.

(** The instance of the specification: [[T!]!] renamed with [type: "U"]
    yields an old field typed exactly [[U!]!]. *)
Lemma old_field_type_keeps_nesting_witness :
  fi_oldTypeName ItemsInfo <> ""
  /\ fType (oldFieldOf Object NewReplacer ItemsInfo).1 = ListT (NamedT "U" true) true.
Proof.
  assert (Hov : fi_oldTypeName ItemsInfo <> "") by discriminate.
  split; [exact Hov|].
  exact (proj2 (proj2 (old_field_type_keeps_nesting Object NewReplacer ItemsInfo Hov))
           (ListT (NamedT "U" true) true) eq_refl eq_refl).
Defined.

(** ** Synthesis only ever appends to the error list *)

Lemma Replacer_eq (r1 r2 : Replacer) :
  errors r1 = errors r2 -> sameIndices r1 r2 -> r1 = r2.
Proof.
  destruct r1, r2; unfold sameIndices; cbn.
  intros -> (-> & -> & -> & -> & -> & -> & -> & -> & ->). reflexivity.
Qed.

Lemma sameIndices_sym r1 r2 : sameIndices r1 r2 -> sameIndices r2 r1.
Proof. unfold sameIndices. intuition congruence. Qed.

Lemma sameIndices_appendErrors_l r E : sameIndices r (appendErrors r E).
Proof. repeat split. Qed.

Lemma appendErrors_nil r : appendErrors r [] = r.
Proof.
  apply Replacer_eq; [cbn; apply app_nil_r | apply sameIndices_sym, sameIndices_appendErrors_l].
Qed.

Lemma appendErrors_app r E1 E2 :
  appendErrors (appendErrors r E1) E2 = appendErrors r (E1 ++ E2).
Proof. unfold appendErrors, set_errors. cbn. by rewrite app_assoc. Qed.

Lemma appendError_appendErrors r e : appendError r e = appendErrors r [e].
Proof. reflexivity. Qed.

Lemma getReplaceInfo_pureStep directives :
  pureStep (fun r => getReplaceInfo r directives).
Proof.
  intros r1 r2. unfold getReplaceInfo.
  destruct (GetReplaceInfo directives) as [info | err].
  - exists (Some info), []. by rewrite !appendErrors_nil.
  - destruct (errors_Is err kind.NotFound).
    + exists None, []. by rewrite !appendErrors_nil.
    + exists None, [err]. split; reflexivity.
Qed.

Lemma oldArgumentOf_pureStep argument :
  pureStep (fun r => oldArgumentOf r argument).
Proof.
  intros r1 r2. unfold oldArgumentOf.
  destruct (getReplaceInfo_pureStep (aDirectives argument) r1 r2)
    as (x & E & -> & ->).
  destruct x as [info|]; eauto.
Qed.

Lemma oldArgumentsOf_pureStep_from arguments :
  forall out, pureStep (fun r =>
    foldl (fun '(out, r) argument =>
             let '(a, r) := oldArgumentOf r argument in (out ++ [a], r))
          (out, r) arguments).
Proof.
  induction arguments as [|a l IH]; intros out r1 r2; cbn.
  - exists out, []. by rewrite !appendErrors_nil.
  - destruct (oldArgumentOf_pureStep a r1 r2) as (x & E & -> & ->).
    destruct (IH (out ++ [x]) (appendErrors r1 E) (appendErrors r2 E))
      as (y & E' & -> & ->).
    exists y, (E ++ E'). by rewrite !appendErrors_app.
Qed.

Lemma oldArgumentsOf_pureStep arguments :
  pureStep (fun r => oldArgumentsOf r arguments).
Proof. apply oldArgumentsOf_pureStep_from. Qed.

Lemma oldFieldOf_pureStep ownerKind fieldInfo :
  pureStep (fun r => oldFieldOf ownerKind r fieldInfo).
Proof.
  intros r1 r2. unfold oldFieldOf.
  destruct (oldArgumentsOf_pureStep (fArguments (fi_field fieldInfo)) r1 r2)
    as (x & E & -> & ->).
  destruct (negb (DefinitionKind_eqb ownerKind InputObject));
    [|destruct (String.eqb (fDescription (fi_field fieldInfo)) "")]; eauto.
Qed.

Lemma oldFieldOf_spec ownerKind r fieldInfo :
  oldFieldOf ownerKind r fieldInfo
  = (oldField ownerKind fieldInfo, appendErrors r (oldFieldErrors ownerKind fieldInfo)).
Proof.
  unfold oldField, oldFieldErrors.
  destruct (oldFieldOf_pureStep ownerKind fieldInfo r NewReplacer)
    as (x & E & -> & ->).
  reflexivity.
Qed.

Lemma fieldExtension_fold_spec ownerKind fieldInfos :
  forall oldFields keys r,
    foldl (fun '(oldFields, keys, r) fieldInfo =>
             let '(oldField, r) := oldFieldOf ownerKind r fieldInfo in
             (oldFields ++ [oldField],
              rewriteKeys keys (fName (fi_field fieldInfo)) (fi_oldName fieldInfo),
              r))
          (oldFields, keys, r) fieldInfos
    = (oldFields ++ map (oldField ownerKind) fieldInfos,
       rewriteKeysAll keys fieldInfos,
       appendErrors r (flat_map (oldFieldErrors ownerKind) fieldInfos)).
Proof.
  induction fieldInfos as [|fi l IH]; intros oldFields keys r; cbn.
  - by rewrite app_nil_r, appendErrors_nil.
  - rewrite oldFieldOf_spec, IH, appendErrors_app, <- app_assoc. reflexivity.
Qed.

Lemma fieldExtension_spec ownerKind fieldInfos keys r objectName :
  fieldExtension ownerKind fieldInfos (keys, r) objectName
  = ((fieldExtensionOf ownerKind fieldInfos keys objectName, true),
     (rewriteKeysAll keys fieldInfos,
      appendErrors r (flat_map (oldFieldErrors ownerKind) fieldInfos))).
Proof.
  unfold fieldExtension. cbn [fst snd]. rewrite fieldExtension_fold_spec. reflexivity.
Qed.

Lemma fieldExtensions_fold_spec ownerKind fieldInfos names :
  forall out keys r,
    foldl (fun '(out, st) objectName =>
             let '(e, st) := fieldExtension ownerKind fieldInfos st objectName in
             (out ++ [e], st))
          (out, (keys, r)) names
    = (out ++ fieldExtensionsFrom ownerKind fieldInfos keys names,
       (foldl (fun keys _ => rewriteKeysAll keys fieldInfos) keys names,
        appendErrors r
          (flat_map (fun _ : string => flat_map (oldFieldErrors ownerKind) fieldInfos)
             names))).
Proof.
  induction names as [|n l IH]; intros out keys r; cbn [foldl].
  - cbn. by rewrite app_nil_r, appendErrors_nil.
  - rewrite fieldExtension_spec, IH, appendErrors_app, <- app_assoc. reflexivity.
Qed.

Lemma fieldExtensions_spec r newObjectName :
  fieldExtensions r newObjectName
  = (fieldExtensionsOf r newObjectName,
     appendErrors r (fieldExtensionsErrors r newObjectName)).
Proof.
  unfold fieldExtensions. rewrite fieldExtensions_fold_spec. reflexivity.
Qed.

Lemma fieldStage_fold_spec r names :
  forall out E,
    foldl (fun '(out, r) newObjectName =>
             let '(es, r) := fieldExtensions r newObjectName in (out ++ es, r))
          (out, appendErrors r E) names
    = (out ++ flat_map (fieldExtensionsOf r) names,
       appendErrors r (E ++ flat_map (fieldExtensionsErrors r) names)).
Proof.
  induction names as [|n l IH]; intros out E; cbn [foldl].
  - cbn. by rewrite !app_nil_r.
  - rewrite fieldExtensions_spec, appendErrors_app.
    change (fieldExtensionsOf (appendErrors r E) n) with (fieldExtensionsOf r n).
    change (fieldExtensionsErrors (appendErrors r E) n) with (fieldExtensionsErrors r n).
    rewrite IH. cbn [flat_map]. by rewrite <- !app_assoc.
Qed.

Lemma fieldStage_spec r :
  fieldStage r = (fieldStageOf r, appendErrors r (fieldStageErrors r)).
Proof.
  unfold fieldStage. rewrite <- (appendErrors_nil r) at 1.
  change (fields (appendErrors r [])) with (fields r).
  rewrite fieldStage_fold_spec. reflexivity.
Qed.

(** ** Sorting by a string key *)

Lemma ltb_lt a b : String.ltb a b = true <-> String_as_OT.lt a b.
Proof.
  unfold String.ltb. rewrite <- String_as_OT.cmp_lt. unfold String_as_OT.cmp.
  destruct (String.compare a b); split; congruence.
Qed.

Lemma ltb_irrefl a : String.ltb a a = false.
Proof.
  destruct (String.ltb a a) eqn:H; [|reflexivity].
  apply ltb_lt in H. by apply String_as_OT.lt_not_eq in H.
Qed.

Lemma ltb_trans a b c :
  String.ltb a b = true -> String.ltb b c = true -> String.ltb a c = true.
Proof. rewrite !ltb_lt. apply String_as_OT.lt_trans. Qed.

Lemma ltb_asym a b : String.ltb a b = true -> String.ltb b a = false.
Proof.
  intros H. destruct (String.ltb b a) eqn:H'; [|reflexivity].
  pose proof (ltb_trans _ _ _ H H') as Haa. by rewrite ltb_irrefl in Haa.
Qed.

Lemma ltb_total a b : String.ltb a b = false -> String.ltb b a = false -> a = b.
Proof.
  unfold String.ltb. rewrite (String.compare_antisym a b).
  destruct (String.compare b a) eqn:H; cbn; try discriminate.
  intros _ _. symmetry. by apply String.compare_eq_iff.
Qed.

Section KeyedSort.
Context {A : Type} (key : A -> string).

Lemma notAfter_trans x y z : (notAfter key) x y -> (notAfter key) y z -> (notAfter key) x z.
Proof.
  unfold notAfter, lessBy. intros Hyx Hzy.
  destruct (String.ltb (key z) (key x)) eqn:Hzx; [|reflexivity].
  destruct (String.ltb (key x) (key y)) eqn:Hxy.
  - by rewrite (ltb_trans _ _ _ Hzx Hxy) in Hzy.
  - rewrite <- (ltb_total _ _ Hxy Hyx) in Hzy. congruence.
Qed.

Lemma insertBy_Permutation x l : insertBy (lessBy key) x l ≡ₚ x :: l.
Proof.
  induction l as [|y l IH]; cbn; [reflexivity|].
  destruct ((lessBy key) x y); [reflexivity|].
  rewrite IH. apply perm_swap.
Qed.

Lemma sort_Slice_from_Permutation l :
  forall sorted,
    foldl (fun sorted x => insertBy (lessBy key) x sorted) sorted l ≡ₚ sorted ++ l.
Proof.
  induction l as [|x l IH]; intros sorted; cbn.
  - by rewrite app_nil_r.
  - rewrite IH, insertBy_Permutation. cbn. apply Permutation_middle.
Qed.

Lemma sort_Slice_Permutation l : sort_Slice (lessBy key) l ≡ₚ l.
Proof. apply (sort_Slice_from_Permutation l []). Qed.

Lemma insertBy_StronglySorted x l :
  StronglySorted (notAfter key) l -> StronglySorted (notAfter key) (insertBy (lessBy key) x l).
Proof.
  induction 1 as [|y l Hl IH Hy]; cbn.
  - repeat constructor.
  - destruct ((lessBy key) x y) eqn:Hxy.
    + constructor; [by constructor|].
      assert (Hx : (notAfter key) x y) by (by apply ltb_asym).
      constructor; [exact Hx|].
      eapply Forall_impl; [exact Hy|]. intros z. by apply notAfter_trans.
    + constructor; [exact IH|].
      rewrite insertBy_Permutation. by constructor.
Qed.

Lemma sort_Slice_from_StronglySorted l :
  forall sorted,
    StronglySorted (notAfter key) sorted ->
    StronglySorted (notAfter key) (foldl (fun sorted x => insertBy (lessBy key) x sorted) sorted l).
Proof.
  induction l as [|x l IH]; intros sorted Hs; cbn; [exact Hs|].
  by apply IH, insertBy_StronglySorted.
Qed.

Lemma sort_Slice_StronglySorted l : StronglySorted (notAfter key) (sort_Slice (lessBy key) l).
Proof. apply sort_Slice_from_StronglySorted. constructor. Qed.

(** When no two elements share a key, the sorted slice does not depend on
    the order the elements came in. *)
Lemma sort_Slice_unique l1 l2 :
  l1 ≡ₚ l2 ->
  (forall x y, x ∈ l1 -> y ∈ l1 -> key x = key y -> x = y) ->
  sort_Slice (lessBy key) l1 = sort_Slice (lessBy key) l2.
Proof.
  intros Hp Hinj.
  apply (StronglySorted_unique_strong (notAfter key)).
  - intros x y Hx Hy Hxy Hyx.
    rewrite sort_Slice_Permutation in Hx.
    rewrite sort_Slice_Permutation, <- Hp in Hy.
    apply Hinj; [done..|]. by apply ltb_total.
  - apply sort_Slice_StronglySorted.
  - apply sort_Slice_StronglySorted.
  - by rewrite !sort_Slice_Permutation.
Qed.
End KeyedSort.

(** The keys of a Go map come out of the [range] loop in any order; once
    sorted, the order they came in is gone. *)
Lemma sort_Strings_any_order {A} (m : gmap string A) (l : list string) :
  l ≡ₚ map fst (map_to_list m) -> sort_Strings l = sortedKeys m.
Proof.
  intros Hl. unfold sortedKeys, sort_Strings.
  apply (sort_Slice_unique (fun s : string => s)); [exact Hl|].
  intros x y _ _ H. exact H.
Qed.

(** ** Index construction in closed form *)

Lemma getReplaceInfo_spec r directives :
  getReplaceInfo r directives
  = (marker directives, appendErrors r (markerErrors directives)).
Proof.
  unfold getReplaceInfo, marker, markerErrors.
  destruct (GetReplaceInfo directives) as [info | err].
  - by rewrite appendErrors_nil.
  - destruct (errors_Is err kind.NotFound); [by rewrite appendErrors_nil | reflexivity].
Qed.

Lemma mapAppendList_app {A} (m : gmap string (list A)) k xs ys :
  mapAppendList (mapAppendList m k xs) k ys = mapAppendList m k (xs ++ ys).
Proof.
  destruct xs as [|x xs]; [reflexivity|].
  destruct ys as [|y ys]; [by rewrite app_nil_r|].
  cbn. rewrite lookup_insert_eq. cbn. rewrite insert_insert_eq.
  by rewrite <- app_assoc.
Qed.

Lemma mapAppend_mapAppendList {A} (m : gmap string (list A)) k x :
  mapAppend m k x = mapAppendList m k [x].
Proof. reflexivity. Qed.

Lemma argumentFold_spec typeName field arguments :
  forall r,
    foldl (fun r arg =>
             match getReplaceInfo r (aDirectives arg) with
             | (Some _, r) =>
                 appendError r
                   (WrapWithFields kind.Internal
                      [("message", "@replaces directive on arguments can only be used on renamed fields");
                       ("type", typeName);
                       ("field", fName field);
                       ("argument", aName arg)])
             | (None, r) => r
             end)
          r arguments
    = appendErrors r (flat_map (argumentIndexErrors typeName field) arguments).
Proof.
  induction arguments as [|a l IH]; intros r; cbn.
  - by rewrite appendErrors_nil.
  - rewrite getReplaceInfo_spec, IH. unfold argumentIndexErrors at 2.
    destruct (marker (aDirectives a)).
    + by rewrite appendError_appendErrors, !appendErrors_app, <- !app_assoc.
    + by rewrite appendErrors_app, app_nil_r.
Qed.

Lemma processField_spec typeName definitionKind r field :
  _processField typeName definitionKind r field
  = set_fields (appendErrors r (fieldIndexErrors typeName definitionKind field))
      (mapAppendList (fields r) typeName (fieldInfoOf field)).
Proof.
  unfold _processField, fieldIndexErrors, fieldInfoOf.
  rewrite getReplaceInfo_spec.
  destruct (marker (fDirectives field)) as [info|].
  - destruct (DefinitionKind_eqb definitionKind InputObject);
      [destruct (NonNull (fType field));
       destruct (_isNonListField field && negb (TreatZeroAsUnsetPresent info))|];
      rewrite ?appendError_appendErrors, ?appendErrors_app, ?app_nil_r;
      reflexivity.
  - rewrite argumentFold_spec, appendErrors_app.
    apply Replacer_eq; [reflexivity | repeat split].
Qed.

Lemma processEnumValue_spec enumName r enumValue :
  _processEnumValue enumName r enumValue
  = set_enumValues (appendErrors r (enumValueIndexErrors enumName enumValue))
      (mapAppendList (enumValues r) enumName (enumValueInfoOf enumValue)).
Proof.
  unfold _processEnumValue, enumValueIndexErrors, enumValueInfoOf.
  rewrite getReplaceInfo_spec.
  destruct (marker (eDirectives enumValue)) as [info|].
  - destruct (negb (String.eqb (OldTypeName info) ""));
      rewrite ?appendError_appendErrors, ?appendErrors_app, ?app_nil_r; reflexivity.
  - rewrite app_nil_r. apply Replacer_eq; [reflexivity | repeat split].
Qed.

Lemma processField_fold_spec typeName definitionKind fs :
  forall r,
    foldl (_processField typeName definitionKind) r fs
    = set_fields
        (appendErrors r (flat_map (fieldIndexErrors typeName definitionKind) fs))
        (mapAppendList (fields r) typeName (flat_map fieldInfoOf fs)).
Proof.
  induction fs as [|f l IH]; intros r; cbn [foldl flat_map].
  - rewrite appendErrors_nil. apply Replacer_eq; [reflexivity | repeat split].
  - rewrite processField_spec, IH. cbn [fields set_fields appendErrors set_errors].
    rewrite mapAppendList_app.
    apply Replacer_eq; [cbn; by rewrite app_assoc | repeat split].
Qed.

Lemma processEnumValue_fold_spec enumName vs :
  forall r,
    foldl (_processEnumValue enumName) r vs
    = set_enumValues
        (appendErrors r (flat_map (enumValueIndexErrors enumName) vs))
        (mapAppendList (enumValues r) enumName (flat_map enumValueInfoOf vs)).
Proof.
  induction vs as [|v l IH]; intros r; cbn [foldl flat_map].
  - rewrite appendErrors_nil. apply Replacer_eq; [reflexivity | repeat split].
  - rewrite processEnumValue_spec, IH.
    cbn [enumValues set_enumValues appendErrors set_errors].
    rewrite mapAppendList_app.
    apply Replacer_eq; [cbn; by rewrite app_assoc | repeat split].
Qed.

Lemma processSchema_index_spec σ r def :
  processSchema_index σ r def = indexed σ r def.
Proof.
  unfold processSchema_index, _processDefinition, indexed, indexErrors,
    fieldInfosOf, enumValueInfosOf, definitionIndexErrors, definitionInfoOf.
  rewrite getReplaceInfo_spec. cbn zeta.
  destruct (marker (dDirectives (σ def))) as [info|];
    [destruct (negb (String.eqb (OldTypeName info) ""))|];
    destruct (dKind (σ def)) eqn:Hk; cbn [hasFields DefinitionKind_eqb];
    rewrite ?processField_fold_spec, ?processEnumValue_fold_spec;
    (apply Replacer_eq;
     [cbn; rewrite ?app_nil_r, <- ?app_assoc; reflexivity
     |unfold sameIndices; cbn; rewrite ?app_nil_r; repeat split]).
Qed.

Ltac replacer_eq :=
  apply Replacer_eq;
  [cbn; rewrite ?app_nil_r, <- ?app_assoc; reflexivity
  |unfold sameIndices; cbn; rewrite ?app_nil_r; repeat split].

Lemma set_extraImplements_id r : set_extraImplements r (extraImplements r) = r.
Proof. replacer_eq. Qed.

Lemma set_extraUnionMembers_id r : set_extraUnionMembers r (extraUnionMembers r) = r.
Proof. replacer_eq. Qed.

Lemma processInterfaceImplementation_fold_spec objectName names :
  forall r,
    foldl (_processInterfaceImplementation objectName) r names
    = set_extraImplements r
        (mapAppendList (extraImplements r) objectName (oldNamesOf r names)).
Proof.
  induction names as [|n l IH]; intros r; cbn [foldl].
  - cbn. apply eq_sym, set_extraImplements_id.
  - rewrite IH. unfold _processInterfaceImplementation, oldNamesOf.
    cbn [flat_map]. destruct (cacheReplacedTypes r !! n) as [oldName|]; [|reflexivity].
    cbn [extraImplements set_extraImplements cacheReplacedTypes].
    rewrite mapAppend_mapAppendList, mapAppendList_app. replacer_eq.
Qed.

Lemma processUnionMember_fold_spec unionName names :
  forall r,
    foldl (_processUnionMember unionName) r names
    = set_extraUnionMembers r
        (mapAppendList (extraUnionMembers r) unionName (oldNamesOf r names)).
Proof.
  induction names as [|n l IH]; intros r; cbn [foldl].
  - cbn. apply eq_sym, set_extraUnionMembers_id.
  - rewrite IH. unfold _processUnionMember, oldNamesOf.
    cbn [flat_map]. destruct (cacheReplacedTypes r !! n) as [oldName|]; [|reflexivity].
    cbn [extraUnionMembers set_extraUnionMembers cacheReplacedTypes].
    rewrite mapAppend_mapAppendList, mapAppendList_app. replacer_eq.
Qed.

Lemma processSchema_backfill_spec σ r def :
  processSchema_backfill σ r def = backfilled σ r def.
Proof.
  unfold processSchema_backfill, backfilled.
  destruct (dKind (σ def)); cbn [DefinitionKind_eqb];
    rewrite ?processInterfaceImplementation_fold_spec, ?processUnionMember_fold_spec;
    replacer_eq.
Qed.

Lemma foldl_ext_eq {A B} (f g : A -> B -> A) (l : list B) (a : A) :
  (forall a b, f a b = g a b) -> foldl f a l = foldl g a l.
Proof.
  intros H. revert a. induction l as [|b l IH]; intros a; cbn; [reflexivity|].
  by rewrite H, IH.
Qed.

Lemma processSchema_spec σ r schema :
  processSchema σ r schema =
    if hasProcessedSchema r then
      appendError r (Wrap kind.Internal "processSchema called multiple times")
    else
      foldl (backfilled σ)
        (foldl (indexed σ) (set_hasProcessedSchema r true) (Types schema))
        (Types schema).
Proof.
  unfold processSchema. destruct (hasProcessedSchema r); [reflexivity|].
  rewrite (foldl_ext_eq _ _ _ _ (processSchema_index_spec σ)).
  apply foldl_ext_eq, processSchema_backfill_spec.
Qed.

(** ** The order of [schema.Types] does not show in the indices *)

Lemma indexEquiv_refl r : indexEquiv r r.
Proof. repeat split; reflexivity. Qed.

Lemma indexEquiv_trans r1 r2 r3 :
  indexEquiv r1 r2 -> indexEquiv r2 r3 -> indexEquiv r1 r3.
Proof.
  unfold indexEquiv.
  intros (E1 & F1 & D1 & V1 & I1 & U1 & C1 & K1 & G1 & H1)
         (E2 & F2 & D2 & V2 & I2 & U2 & C2 & K2 & G2 & H2).
  repeat split; try congruence; etrans; eassumption.
Qed.

Lemma mapAppendList_comm {A} (m : gmap string (list A)) k1 k2 xs ys :
  k1 <> k2 ->
  mapAppendList (mapAppendList m k1 xs) k2 ys
  = mapAppendList (mapAppendList m k2 ys) k1 xs.
Proof.
  intros Hne. destruct xs as [|x xs], ys as [|y ys]; try reflexivity. cbn.
  rewrite !lookup_insert_ne by congruence. by apply insert_insert_ne.
Qed.

Lemma indexed_proper σ r1 r2 def :
  indexEquiv r1 r2 -> indexEquiv (indexed σ r1 def) (indexed σ r2 def).
Proof.
  intros (E & F & D & V & I & U & C & K & G & H).
  unfold indexEquiv, indexed. cbn.
  rewrite E, F, D, V, I, U, C, K, G, H. repeat split; reflexivity.
Qed.

Lemma indexed_swap σ r p q :
  dName (σ p) <> dName (σ q) ->
  indexEquiv (indexed σ (indexed σ r p) q) (indexed σ (indexed σ r q) p).
Proof.
  intros Hne. unfold indexEquiv, indexed. cbn.
  split; [rewrite <- !app_assoc; apply Permutation_app_head, Permutation_app_comm|].
  split; [by apply mapAppendList_comm|].
  split; [rewrite <- !app_assoc; apply Permutation_app_head, Permutation_app_comm|].
  split; [by apply mapAppendList_comm|].
  split; [reflexivity|]. split; [reflexivity|].
  split.
  { destruct (marker (dDirectives (σ p))), (marker (dDirectives (σ q)));
      try reflexivity. by apply insert_insert_ne. }
  split; [by apply insert_insert_ne|].
  split; [by apply insert_insert_ne|reflexivity].
Qed.

Lemma backfilled_proper σ r1 r2 def :
  indexEquiv r1 r2 -> indexEquiv (backfilled σ r1 def) (backfilled σ r2 def).
Proof.
  intros (E & F & D & V & I & U & C & K & G & H).
  unfold indexEquiv, backfilled, oldNamesOf. cbn.
  rewrite E, F, D, V, I, U, C, K, G, H. repeat split; reflexivity.
Qed.

Lemma backfilled_swap σ r p q :
  dName (σ p) <> dName (σ q) ->
  indexEquiv (backfilled σ (backfilled σ r p) q) (backfilled σ (backfilled σ r q) p).
Proof.
  intros Hne. unfold indexEquiv, backfilled, oldNamesOf. cbn.
  do 4 (split; [reflexivity|]).
  split.
  { destruct (DefinitionKind_eqb (dKind (σ p)) Object),
      (DefinitionKind_eqb (dKind (σ q)) Object); try reflexivity.
    by apply mapAppendList_comm. }
  split.
  { destruct (DefinitionKind_eqb (dKind (σ p)) Union),
      (DefinitionKind_eqb (dKind (σ q)) Union); try reflexivity.
    by apply mapAppendList_comm. }
  repeat split.
Qed.

(** A loop over the definitions whose body commutes, up to [indexEquiv], on
    definitions of different names visits them in any order to the same
    effect. *)
Section OrderOfTypes.
Context (σ : Heap) (body : Replacer -> ptr -> Replacer).
Hypothesis body_proper :
  forall r1 r2 p, indexEquiv r1 r2 -> indexEquiv (body r1 p) (body r2 p).
Hypothesis body_swap :
  forall r p q, dName (σ p) <> dName (σ q) ->
                indexEquiv (body (body r p) q) (body (body r q) p).

Lemma foldl_body_proper l :
  forall r1 r2, indexEquiv r1 r2 -> indexEquiv (foldl body r1 l) (foldl body r2 l).
Proof.
  induction l as [|p l IH]; intros r1 r2 H; cbn; [exact H|].
  by apply IH, body_proper.
Qed.

Lemma foldl_body_Permutation l1 l2 :
  l1 ≡ₚ l2 ->
  NoDup (map (fun p => dName (σ p)) l1) ->
  forall r1 r2, indexEquiv r1 r2 -> indexEquiv (foldl body r1 l1) (foldl body r2 l2).
Proof.
  induction 1 as [|p l1 l2 Hp IH|p q l|l1 l2 l3 H12 IH12 H23 IH23];
    intros Hnd r1 r2 Hr.
  - exact Hr.
  - cbn. apply IH; [by inversion Hnd | by apply body_proper].
  - cbn. apply foldl_body_proper.
    eapply indexEquiv_trans; [apply body_swap|].
    + cbn in Hnd. inversion Hnd as [|? ? Hnotin _]; subst.
      intros Heq. apply Hnotin. rewrite Heq. by left.
    + by apply body_proper, body_proper.
  - eapply indexEquiv_trans.
    + apply IH12; [exact Hnd | apply indexEquiv_refl].
    + apply IH23; [|exact Hr].
      assert (Hm : map (fun p => dName (σ p)) l1 ≡ₚ map (fun p => dName (σ p)) l2)
        by (by apply Permutation_map).
      by rewrite <- Hm.
Qed.
End OrderOfTypes.

Lemma processSchema_order σ (schema1 schema2 : Schema) :
  Types schema1 ≡ₚ Types schema2 ->
  NoDup (map (fun p => dName (σ p)) (Types schema1)) ->
  indexEquiv (processSchema σ NewReplacer schema1) (processSchema σ NewReplacer schema2).
Proof.
  intros Hp Hnd. rewrite !processSchema_spec. cbn [hasProcessedSchema NewReplacer].
  apply (foldl_body_Permutation σ (backfilled σ));
    [apply backfilled_proper | apply backfilled_swap | exact Hp | exact Hnd |].
  apply (foldl_body_Permutation σ (indexed σ));
    [apply indexed_proper | apply indexed_swap | exact Hp | exact Hnd |].
  apply indexEquiv_refl.
Qed.

Lemma foldl_indexed_frame σ l :
  forall r,
    hasProcessedSchema (foldl (indexed σ) r l) = hasProcessedSchema r
    /\ definitions (foldl (indexed σ) r l)
       = definitions r ++ flat_map (definitionInfoOf σ) l
    /\ errors (foldl (indexed σ) r l) = errors r ++ flat_map (fun p => indexErrors (σ p)) l.
Proof.
  induction l as [|p l IH]; intros r; cbn [foldl flat_map].
  - by rewrite !app_nil_r.
  - destruct (IH (indexed σ r p)) as (-> & -> & ->). cbn.
    by rewrite <- !app_assoc.
Qed.

Lemma foldl_backfilled_frame σ l :
  forall r,
    hasProcessedSchema (foldl (backfilled σ) r l) = hasProcessedSchema r
    /\ definitions (foldl (backfilled σ) r l) = definitions r
    /\ errors (foldl (backfilled σ) r l) = errors r
    /\ cacheReplacedTypes (foldl (backfilled σ) r l) = cacheReplacedTypes r
    /\ fields (foldl (backfilled σ) r l) = fields r
    /\ enumValues (foldl (backfilled σ) r l) = enumValues r
    /\ definitionKinds (foldl (backfilled σ) r l) = definitionKinds r
    /\ federationKeys (foldl (backfilled σ) r l) = federationKeys r.
Proof.
  induction l as [|p l IH]; intros r; cbn [foldl]; [repeat split|].
  destruct (IH (backfilled σ r p)) as (-> & -> & -> & -> & -> & -> & -> & ->).
  repeat split.
Qed.

(** What indexing a fresh Replacer leaves in the flag, the list of renamed
    definitions and the error list. *)
Lemma processSchema_fresh σ schema :
  let r := processSchema σ NewReplacer schema in
  hasProcessedSchema r = true
  /\ definitions r = flat_map (definitionInfoOf σ) (Types schema)
  /\ errors r = flat_map (fun p => indexErrors (σ p)) (Types schema).
Proof.
  cbn zeta. rewrite processSchema_spec. cbn [hasProcessedSchema NewReplacer].
  destruct (foldl_backfilled_frame σ (Types schema)
              (foldl (indexed σ) (set_hasProcessedSchema NewReplacer true) (Types schema)))
    as (-> & -> & -> & _).
  destruct (foldl_indexed_frame σ (Types schema) (set_hasProcessedSchema NewReplacer true))
    as (-> & -> & ->).
  repeat split.
Qed.

(** ** Synthesis in closed form *)

Lemma stages_sameMaps r1 r2 :
  sameMaps r1 r2 ->
  fieldStageOf r1 = fieldStageOf r2 /\ fieldStageErrors r1 = fieldStageErrors r2
  /\ enumStage r1 = enumStage r2 /\ implementsStage r1 = implementsStage r2
  /\ unionStage r1 = unionStage r2.
Proof.
  destruct r1, r2. unfold sameMaps. cbn.
  intros (-> & -> & -> & -> & -> & -> & ->). repeat split.
Qed.

Lemma indexEquiv_sameMaps r1 r2 : indexEquiv r1 r2 -> sameMaps r1 r2.
Proof. unfold indexEquiv, sameMaps. tauto. Qed.

Lemma schemaAdditions_spec σ r :
  schemaAdditions σ r
  = ((definitionStage σ (sortedDefinitions r)).1
       ++ fieldStageOf r ++ enumStage r ++ implementsStage r ++ unionStage r,
     appendErrors (set_definitions r (sortedDefinitions r)) (fieldStageErrors r),
     (definitionStage σ (sortedDefinitions r)).2).
Proof.
  unfold schemaAdditions. cbn [definitions set_definitions].
  fold (lessBy di_oldName). fold (sortedDefinitions r).
  destruct (definitionStage σ (sortedDefinitions r)) as [out1 σ'].
  rewrite fieldStage_spec. reflexivity.
Qed.

Lemma getSchemaAdditions_spec `{_internalFormatter} σ r :
  hasProcessedSchema r = true ->
  getSchemaAdditions σ r
  = (tabsToSpaces
       (render ((definitionStage σ (sortedDefinitions r)).1
                  ++ fieldStageOf r ++ enumStage r ++ implementsStage r
                  ++ unionStage r)),
     appendErrors (set_definitions r (sortedDefinitions r)) (fieldStageErrors r),
     (definitionStage σ (sortedDefinitions r)).2).
Proof.
  intros Hp. unfold getSchemaAdditions. rewrite Hp. cbn [negb].
  rewrite schemaAdditions_spec. reflexivity.
Qed.

(** ** Determinism of the overlay text (C10) *)

Lemma map_flat_map {A B C} (f : B -> C) (g : A -> list B) (l : list A) :
  map f (flat_map g l) = flat_map (fun x => map f (g x)) l.
Proof.
  induction l as [|x l IH]; cbn; [reflexivity|]. by rewrite map_app, IH.
Qed.

Lemma NoDup_map_inj_on {A B} (f : A -> B) (l : list A) :
  NoDup (map f l) -> forall x y, x ∈ l -> y ∈ l -> f x = f y -> x = y.
Proof.
  induction l as [|a l IH]; cbn; intros Hnd x y Hx Hy Hf.
  - by apply elem_of_nil in Hx.
  - apply NoDup_cons in Hnd as [Ha Hnd].
    apply elem_of_cons in Hx as [->|Hx]; apply elem_of_cons in Hy as [->|Hy].
    + reflexivity.
    + exfalso. apply Ha. rewrite Hf. apply list_elem_of_In, in_map, list_elem_of_In, Hy.
    + exfalso. apply Ha. rewrite <- Hf. apply list_elem_of_In, in_map, list_elem_of_In, Hx.
    + by apply IH.
Qed.

(** C10, as stated, does not hold: two definitions renamed from the same
    old name, [type A @replaces(name: "Old") { a: Int }] and [type B
    @replaces(name: "Old") { b: Int }], come out of the sort in the order in
    which the map yielded them. *)
Lemma overlay_text_depends_on_map_order :
  ~ (forall (F : _internalFormatter) (σ : Heap) (schema1 schema2 : Schema),
        Types schema1 ≡ₚ Types schema2 ->
        NoDup (map (fun p => dName (σ p)) (Types schema1)) ->
        (getSchemaAdditions σ (processSchema σ NewReplacer schema1)).1.1
        = (getSchemaAdditions σ (processSchema σ NewReplacer schema2)).1.1).
Proof.
  intros H.
  specialize (H gqlFormatter (heapOf [TypeA; TypeB])
                {| Types := [0; 1]%nat |} {| Types := [1; 0]%nat |}
                (perm_swap _ _ _)).
  assert (Hnd : NoDup (map (fun p => dName (heapOf [TypeA; TypeB] p)) [0; 1]%nat)).
  { cbn. apply NoDup_cons. split; [|apply NoDup_singleton].
    intros Hin. apply list_elem_of_singleton in Hin. discriminate. }
  specialize (H Hnd). vm_compute in H. discriminate.
Qed.

(** C10, amended: provided no two renamed definitions share an old name,
    the overlay text does not depend on the order in which the Go maps are
    ranged over.  For [schema.Types] any two orders of the same definitions
    (which a map stores under distinct names) give the same text, from
    [getSchemaAdditions] as well as from [GetReplacesDirectiveUpdates]; for
    the Replacer's own maps the keys, sorted, are the same list whatever
    order they were collected in. *)
Theorem overlay_text_independent_of_map_order :
  forall (F : _internalFormatter) (σ : Heap) (schema1 schema2 : Schema),
    Types schema1 ≡ₚ Types schema2 ->
    NoDup (map (fun p => dName (σ p)) (Types schema1)) ->
    NoDup (renamedOldNames σ schema1) ->
    (getSchemaAdditions σ (processSchema σ NewReplacer schema1)).1.1
    = (getSchemaAdditions σ (processSchema σ NewReplacer schema2)).1.1
    /\ (GetReplacesDirectiveUpdates σ schema1).1.1
       = (GetReplacesDirectiveUpdates σ schema2).1.1
    /\ forall (A : Type) (m : gmap string A) (keys : list string),
         keys ≡ₚ map fst (map_to_list m) -> sort_Strings keys = sortedKeys m.
Proof.
  intros F σ schema1 schema2 Hp Hnd Hold.
  pose proof (processSchema_order σ schema1 schema2 Hp Hnd) as Heq.
  destruct (processSchema_fresh σ schema1) as (Hf1 & Hd1 & _).
  destruct (processSchema_fresh σ schema2) as (Hf2 & _ & _).
  set (r1 := processSchema σ NewReplacer schema1) in *.
  set (r2 := processSchema σ NewReplacer schema2) in *.
  assert (Hsorted : sortedDefinitions r1 = sortedDefinitions r2).
  { apply sort_Slice_unique; [apply Heq|].
    apply NoDup_map_inj_on. rewrite Hd1, map_flat_map. exact Hold. }
  destruct (stages_sameMaps r1 r2 (indexEquiv_sameMaps _ _ Heq))
    as (Hs2 & He2 & Hs3 & Hs4 & Hs5).
  assert (Htext : (getSchemaAdditions σ r1).1.1 = (getSchemaAdditions σ r2).1.1).
  { rewrite !getSchemaAdditions_spec by assumption. cbn [fst].
    by rewrite Hsorted, Hs2, Hs3, Hs4, Hs5. }
  split; [exact Htext|]. split; [|intros A m keys; apply sort_Strings_any_order].
  unfold GetReplacesDirectiveUpdates. fold r1 r2.
  rewrite !getSchemaAdditions_spec in * by assumption. cbn [fst] in Htext.
  cbn [errors appendErrors set_errors set_definitions]. rewrite He2.
  assert (Hlen : length (errors r1 ++ fieldStageErrors r2)
                 = length (errors r2 ++ fieldStageErrors r2)).
  { rewrite !length_app. f_equal. apply Permutation_length, Heq. }
  rewrite Hlen.
  destruct (Nat.ltb 0 (length (errors r2 ++ fieldStageErrors r2))); [reflexivity|].
  exact Htext.
Qed.

(** Closed sets of strings and addresses are duplicate-free by evaluation. *)
Ltac by_evaluation := refine (bool_decide_unpack _ _); vm_compute; exact I.

(** An instance: [Classroom] (renamed from [StudentList]) and [ContentKind]
    (renamed from [OldContentKind]), visited in either order. *)
Lemma overlay_text_independent_of_map_order_witness :
  let σ := heapOf [Classroom; ContentKind] in
  Types {| Types := [0; 1]%nat |} ≡ₚ Types {| Types := [1; 0]%nat |}
  /\ NoDup (map (fun p => dName (σ p)) [0; 1]%nat)
  /\ NoDup (renamedOldNames σ {| Types := [0; 1]%nat |})
  /\ (GetReplacesDirectiveUpdates σ {| Types := [0; 1]%nat |}).1.1
     = (GetReplacesDirectiveUpdates σ {| Types := [1; 0]%nat |}).1.1.
Proof.
  intros σ.
  assert (H1 : Types {| Types := [0; 1]%nat |} ≡ₚ Types {| Types := [1; 0]%nat |})
    by apply perm_swap.
  assert (H2 : NoDup (map (fun p => dName (σ p)) (Types {| Types := [0; 1]%nat |})))
    by by_evaluation.
  assert (H3 : NoDup (renamedOldNames σ {| Types := [0; 1]%nat |}))
    by by_evaluation.
  split; [exact H1|]. split; [exact H2|]. split; [exact H3|].
  exact (proj1 (proj2 (overlay_text_independent_of_map_order gqlFormatter σ
                         {| Types := [0; 1]%nat |} {| Types := [1; 0]%nat |}
                         H1 H2 H3))).
Defined.

(** ** Stage 1: the shadow definitions *)

Lemma sameButEnumValues_refl d : sameButEnumValues d d.
Proof. repeat split. Qed.

Lemma sameButEnumValues_trans d1 d2 d3 :
  sameButEnumValues d1 d2 -> sameButEnumValues d2 d3 -> sameButEnumValues d1 d3.
Proof. unfold sameButEnumValues. intuition congruence. Qed.

Lemma shadowDefinition_heap σ info q :
  sameButEnumValues (σ q) ((shadowDefinition σ info).2 q).
Proof.
  unfold shadowDefinition, heap_set. cbn.
  destruct (Nat.eqb_spec q (di_definition info)) as [->|_]; repeat split.
Qed.

Lemma definitionStage_from infos :
  forall out σ,
    let res := foldl (fun '(out, σ) definitionInfo =>
                        let '(e, σ) := shadowDefinition σ definitionInfo in
                        (out ++ [e], σ))
                     (out, σ) infos in
    (forall q, sameButEnumValues (σ q) (res.2 q))
    /\ (forall e, e ∈ out -> e ∈ res.1)
    /\ (forall info, info ∈ infos ->
          exists σi, (forall q, sameButEnumValues (σ q) (σi q))
                     /\ (shadowDefinition σi info).1 ∈ res.1).
Proof.
  induction infos as [|i l IH]; intros out σ; cbn [foldl].
  - cbn. split; [intros; apply sameButEnumValues_refl|]. split; [tauto|].
    intros info Hin. by apply elem_of_nil in Hin.
  - destruct (shadowDefinition σ i) as [e σ1] eqn:Hsh.
    specialize (IH (out ++ [e]) σ1). cbn zeta in IH |- *.
    destruct IH as (Hheap & Hout & Hin).
    assert (Hstep : forall q, sameButEnumValues (σ q) (σ1 q)).
    { intros q. pose proof (shadowDefinition_heap σ i q) as Hq.
      by rewrite Hsh in Hq. }
    split; [|split].
    + intros q. eapply sameButEnumValues_trans; [apply Hstep | apply Hheap].
    + intros e' He'. apply Hout. apply elem_of_app. by left.
    + intros info Hinfo. apply elem_of_cons in Hinfo as [->|Hinfo].
      * exists σ. split; [intros; apply sameButEnumValues_refl|].
        rewrite Hsh. cbn. apply Hout. apply elem_of_app. right. by left.
      * destruct (Hin info Hinfo) as (σi & Hσi & Hmem).
        exists σi. split; [|exact Hmem].
        intros q. eapply sameButEnumValues_trans; [apply Hstep | apply Hσi].
Qed.

(** What stage 1 emits for a recorded definition: the clone under the old
    name, with the flag and the description that the loop body gives it. *)
Lemma shadowDefinition_emitted :
  forall (σ : Heap) (r : Replacer) (info : _definitionInfo),
    info ∈ definitions r ->
    let definition := σ (di_definition info) in
    let deprecatedMessage := "Deprecated: Replaced by " +:+ dName definition +:+ "." in
    exists clone : Definition_,
      (clone, _definitionHasExtends definition) ∈ (schemaAdditions σ r).1.1
      /\ dName clone = di_oldName info
      /\ dDescription clone
         = if String.eqb (dDescription definition) "" then
             if _definitionHasExtends definition then "" else deprecatedMessage
           else dDescription definition +:+ newline +:+ deprecatedMessage.
Proof.
  intros σ r info Hin definition msg. subst definition msg.
  rewrite schemaAdditions_spec. cbn [fst].
  assert (Hs : info ∈ sortedDefinitions r).
  { unfold sortedDefinitions. by rewrite sort_Slice_Permutation. }
  destruct (definitionStage_from (sortedDefinitions r) [] σ) as (_ & _ & Hemit).
  destruct (Hemit info Hs) as (σi & Hσi & Hmem).
  destruct (Hσi (di_definition info))
    as (_ & Hdesc & Hname & _ & _ & _ & _ & Hpos & _).
  exists (shadowDefinition σi info).1.1.
  split; [|split].
  - apply elem_of_app. left.
    replace (_definitionHasExtends (σ (di_definition info)))
      with (shadowDefinition σi info).1.2.
    + unfold definitionStage. by destruct (shadowDefinition σi info).1.
    + cbn. unfold _definitionHasExtends. by rewrite Hpos.
  - reflexivity.
  - cbn. unfold _definitionHasExtends. rewrite <- Hpos, <- Hdesc, <- Hname.
    destruct (String.eqb_spec (dDescription (σ (di_definition info))) "") as [->|];
      [|reflexivity].
    match goal with |- context [negb ?b] => destruct b end; reflexivity.
Qed.

(** ** The guards of the Replacer (C6) *)

(** C6, as stated, does not hold: a second synthesis after a successful
    first one is not refused.  On the [Course] schema it returns the overlay
    once more and the error list stays empty. *)
Lemma second_synthesis_is_not_refused :
  ~ (forall (F : _internalFormatter) (σ : Heap) (r : Replacer),
        hasProcessedSchema r = true ->
        let first := getSchemaAdditions σ r in
        errors first.1.2 = [] ->
        let second := getSchemaAdditions first.2 first.1.2 in
        second.1.1 = ""
        /\ exists e, errors second.1.2 = [e] /\ kindOf e = kind.Internal).
Proof.
  intros H.
  specialize (H gqlFormatter (heapOf [Course])
                (processSchema (heapOf [Course]) NewReplacer (schemaOf [Course]))
                eq_refl eq_refl).
  destruct H as [H _]. vm_compute in H. discriminate.
Qed.

(** C6, amended: synthesis before indexing accumulates an Internal error and
    returns empty text; indexing a Replacer a second time accumulates an
    Internal error and leaves the indices as they are; synthesis itself has
    no guard against a second invocation: it leaves [hasProcessedSchema],
    the one flag that its guard reads, set, leaves the maps of the Replacer
    as they are, and adds to the error list only the errors of the markers
    on the arguments of renamed fields. *)
Theorem replacer_guards :
  forall (F : _internalFormatter) (σ : Heap) (r : Replacer) (schema : Schema),
    if hasProcessedSchema r then
      processSchema σ r schema
      = appendError r (Wrap kind.Internal "processSchema called multiple times")
      /\ (let first := getSchemaAdditions σ r in
          hasProcessedSchema first.1.2 = true
          /\ sameMaps r first.1.2
          /\ errors first.1.2 = errors r ++ fieldStageErrors r)
    else
      getSchemaAdditions σ r
      = ("",
         appendError r
           (Wrap kind.Internal "must call processSchema before getSchemaAdditions"),
         σ).
Proof.
  intros F σ r schema.
  destruct (hasProcessedSchema r) eqn:Hp.
  - split; [unfold processSchema; by rewrite Hp|].
    cbn zeta. rewrite (getSchemaAdditions_spec σ r Hp). cbn [fst snd].
    split; [exact Hp|]. split; [|reflexivity].
    unfold sameMaps. cbn. tauto.
  - unfold getSchemaAdditions. by rewrite Hp.
Qed.

(** ** The failure contract of GetReplacesDirectiveUpdates (C1) *)

(** C1, as stated, does not hold: synthesis runs although indexing has
    reported an error, and the caller can see that it did.  For the enum of
    TestEnumCanNotUseType with a renamed value, the schema that comes back
    has lost the marker of that value. *)
Lemma synthesis_runs_after_indexing_errors :
  ~ (forall (F : _internalFormatter) (σ : Heap) (schema : Schema),
        errors (processSchema σ NewReplacer schema) <> [] ->
        (GetReplacesDirectiveUpdates σ schema).1.1 = ""
        /\ (GetReplacesDirectiveUpdates σ schema).1.2 <> None
        /\ forall p, (GetReplacesDirectiveUpdates σ schema).2 p = σ p).
Proof.
  intros H.
  destruct (H gqlFormatter (heapOf [ContentKindWithType])
              (schemaOf [ContentKindWithType])) as (_ & _ & Hheap).
  - vm_compute. discriminate.
  - specialize (Hheap 0%nat). vm_compute in Hheap. discriminate.
Qed.

(** C1, amended: when indexing accumulates at least one error,
    GetReplacesDirectiveUpdates still runs synthesis (the schema comes back
    as synthesis leaves it), but the text is discarded: the string result is
    empty and the error result carries every error of indexing, followed by
    those of synthesis. *)
Theorem no_overlay_with_errors :
  forall (F : _internalFormatter) (σ : Heap) (schema : Schema),
    errors (processSchema σ NewReplacer schema) <> [] ->
    let indexed := processSchema σ NewReplacer schema in
    (exists E,
        (GetReplacesDirectiveUpdates σ schema).1
        = ("", Some (WrapWithErrorList kind.InvalidInput (errors indexed ++ E))))
    /\ (GetReplacesDirectiveUpdates σ schema).2 = (getSchemaAdditions σ indexed).2.
Proof.
  intros F σ schema Herr. cbn zeta.
  destruct (processSchema_fresh σ schema) as (Hp & _ & _).
  unfold GetReplacesDirectiveUpdates.
  rewrite (getSchemaAdditions_spec σ _ Hp). cbn [fst snd errors appendErrors set_errors set_definitions].
  destruct (errors (processSchema σ NewReplacer schema)) as [|e es] eqn:He;
    [contradiction|].
  cbn [app length Nat.ltb Nat.leb]. split; [|reflexivity].
  eexists. reflexivity.
Qed.

Lemma no_overlay_with_errors_witness :
  let σ := heapOf [ClassroomWithType] in
  let schema := schemaOf [ClassroomWithType] in
  errors (processSchema σ NewReplacer schema) <> []
  /\ (GetReplacesDirectiveUpdates σ schema).1.1 = "".
Proof.
  intros σ schema.
  assert (Herr : errors (processSchema σ NewReplacer schema) <> [])
    by (vm_compute; discriminate).
  split; [exact Herr|].
  destruct (proj1 (no_overlay_with_errors gqlFormatter σ schema Herr)) as [E ->].
  reflexivity.
Defined.

(** ** Synthesis and the input schema (C2) *)

(** C2 fails on a renamed enum: the clone's [EnumValues] slice is the
    input's, so stripping the markers of the clone's values strips them in
    the schema.  After synthesis on the schema of
    TestReplacedEnumValueOnReplacedEnum, the value [COURSE] of the input
    definition [ContentKind] has lost its [@replaces(name: "TOPIC")]. *)
Theorem synthesis_overwrites_input_enum_values :
  let σ := heapOf [ContentKind] in
  let r := processSchema σ NewReplacer (schemaOf [ContentKind]) in
  let σ' := (schemaAdditions σ r).2 in
  dEnumValues (σ 0%nat)
  = [enumValue "DOMAIN" []; enumValue "COURSE" [directive0 "test"; replaces "TOPIC"]]
  /\ dEnumValues (σ' 0%nat)
     = [enumValue "DOMAIN" []; enumValue "COURSE" [directive0 "test"]].
Proof. vm_compute. split; reflexivity. Qed.

(** ** What indexing leaves under the name of a definition *)

Lemma lookup_mapAppendList {A} (m : gmap string (list A)) k xs n :
  mapAppendList m k xs !! n = if decide (k = n) then appendedAt (m !! k) xs else m !! n.
Proof.
  destruct xs as [|x xs]; cbn.
  - by destruct (decide (k = n)) as [->|].
  - rewrite lookup_insert. by destruct (decide (k = n)).
Qed.

Lemma entriesOf_indexed σ r p name :
  entriesOf (indexed σ r p) name
  = if decide (dName (σ p) = name) then indexedEntries (σ p) (entriesOf r name)
    else entriesOf r name.
Proof.
  unfold entriesOf, indexed, indexedEntries. cbn.
  rewrite lookup_mapAppendList, !lookup_insert.
  destruct (decide (dName (σ p) = name)) as [->|Hne].
  - destruct (marker (dDirectives (σ p))); [by rewrite lookup_insert_eq | reflexivity].
  - destruct (marker (dDirectives (σ p))); [by rewrite lookup_insert_ne | reflexivity].
Qed.

Lemma entriesOf_foldl_indexed_other σ name l :
  forall r,
    name ∉ map (fun p => dName (σ p)) l ->
    entriesOf (foldl (indexed σ) r l) name = entriesOf r name.
Proof.
  induction l as [|q l IH]; intros r Hnotin; cbn [foldl]; [reflexivity|].
  cbn in Hnotin. apply not_elem_of_cons in Hnotin as [Hq Hl].
  rewrite IH by exact Hl. rewrite entriesOf_indexed.
  destruct (decide (dName (σ q) = name)); [congruence | reflexivity].
Qed.

Lemma entriesOf_foldl_indexed σ p l :
  forall r,
    NoDup (map (fun p => dName (σ p)) l) -> p ∈ l ->
    entriesOf (foldl (indexed σ) r l) (dName (σ p))
    = indexedEntries (σ p) (entriesOf r (dName (σ p))).
Proof.
  induction l as [|q l IH]; intros r Hnd Hin; [by apply elem_of_nil in Hin|].
  cbn in Hnd. apply NoDup_cons in Hnd as [Hq Hnd]. cbn [foldl].
  apply elem_of_cons in Hin as [->|Hin].
  - rewrite entriesOf_foldl_indexed_other by exact Hq.
    rewrite entriesOf_indexed. by destruct (decide (dName (σ q) = dName (σ q))).
  - rewrite IH by assumption. rewrite entriesOf_indexed.
    destruct (decide (dName (σ q) = dName (σ p))) as [Heq|]; [|reflexivity].
    exfalso. apply Hq. rewrite Heq.
    apply list_elem_of_In. apply (in_map (fun p => dName (σ p)) l p).
    by apply list_elem_of_In.
Qed.

Lemma entriesOf_processSchema σ schema p :
  NoDup (map (fun p => dName (σ p)) (Types schema)) -> p ∈ Types schema ->
  entriesOf (processSchema σ NewReplacer schema) (dName (σ p))
  = {| en_fields := appendedAt None (fieldInfosOf (σ p));
       en_cache := OldName <$> marker (dDirectives (σ p));
       en_kind := Some (dKind (σ p));
       en_keys := Some (_getFederationKeys (σ p)) |}.
Proof.
  intros Hnd Hin. rewrite processSchema_spec. cbn [hasProcessedSchema NewReplacer].
  set (r1 := foldl (indexed σ) _ _).
  destruct (foldl_backfilled_frame σ (Types schema) r1)
    as (_ & _ & _ & Hc & Hf & _ & Hk & Hg).
  unfold entriesOf at 1. rewrite Hc, Hf, Hk, Hg.
  fold (entriesOf r1 (dName (σ p))). subst r1.
  rewrite entriesOf_foldl_indexed by assumption.
  unfold indexedEntries, entriesOf. cbn.
  by destruct (marker (dDirectives (σ p))).
Qed.

Lemma elem_of_sortedKeys {A} (m : gmap string A) name :
  name ∈ sortedKeys m <-> is_Some (m !! name).
Proof.
  unfold sortedKeys, sort_Strings.
  rewrite (sort_Slice_Permutation (fun s : string => s)).
  rewrite list_elem_of_In, in_map_iff. split.
  - intros ([k v] & <- & Hin). apply list_elem_of_In, elem_of_map_to_list in Hin.
    by exists v.
  - intros [v Hv]. exists (name, v). split; [reflexivity|].
    by apply list_elem_of_In, elem_of_map_to_list.
Qed.

(** ** The doubling rule of stage 2 (C9) *)

(** C9: for a Definition of the schema that has renamed fields, stage 2
    emits the extension carrying the old fields under the new type name,
    and, if the Definition is itself renamed, a second extension with the
    same old fields under the old type name; if it is not renamed, the one
    under the new name is all that is emitted for it. *)
Theorem field_extension_under_both_names :
  forall (σ : Heap) (schema : Schema) (p : ptr),
    NoDup (map (fun p => dName (σ p)) (Types schema)) ->
    p ∈ Types schema ->
    fieldInfosOf (σ p) <> [] ->
    let d := σ p in
    let r := processSchema σ NewReplacer schema in
    let keys := map (fun key => (key, false)) (_getFederationKeys d) in
    let extension keys name := fieldExtensionOf (dKind d) (fieldInfosOf d) keys name in
    (fieldExtensions r (dName d)).1
    = (extension keys (dName d), true)
      :: match marker (dDirectives d) with
         | Some replaceInfo =>
             [(extension (rewriteKeysAll keys (fieldInfosOf d)) (OldName replaceInfo),
               true)]
         | None => []
         end
    /\ (forall e, e ∈ (fieldExtensions r (dName d)).1 ->
                   e ∈ (fieldStage r).1 /\ e ∈ (schemaAdditions σ r).1.1)
    /\ (forall keys name,
          dName (extension keys name) = name
          /\ dFields (extension keys name)
             = map (oldField (dKind d)) (fieldInfosOf d)).
Proof.
  intros σ schema p Hnd Hin Hne d r keys extension.
  pose proof (entriesOf_processSchema σ schema p Hnd Hin) as Hent.
  fold r d in Hent. unfold entriesOf in Hent.
  injection Hent as Hf Hc Hk Hg.
  assert (Hfields : fields r !! dName d = Some (fieldInfosOf d)).
  { rewrite Hf. unfold d. by destruct (fieldInfosOf (σ p)). }
  rewrite fieldExtensions_spec. cbn [fst].
  split; [|split].
  - unfold fieldExtensionsOf, allNames. rewrite Hfields, Hc, Hk, Hg. cbn.
    fold d. by destruct (marker (dDirectives d)).
  - intros e He.
    assert (Hstage : e ∈ fieldStageOf r).
    { unfold fieldStageOf. apply list_elem_of_In, in_flat_map. exists (dName d).
      split; apply list_elem_of_In; [|exact He].
      apply elem_of_sortedKeys. by rewrite Hfields. }
    split; [by rewrite fieldStage_spec|].
    rewrite schemaAdditions_spec. cbn [fst].
    apply elem_of_app. right. apply elem_of_app. by left.
  - intros keys' name. split; reflexivity.
Qed.

(** An instance: [Classroom], renamed from [StudentList], with its field
    [teacherKaid] renamed from [coachKaid]. *)
Lemma field_extension_under_both_names_witness :
  let σ := heapOf [Classroom] in
  let schema := schemaOf [Classroom] in
  NoDup (map (fun p => dName (σ p)) (Types schema))
  /\ 0%nat ∈ Types schema
  /\ fieldInfosOf (σ 0%nat) <> []
  /\ map (fun e : Emitted => dName e.1)
       (fieldExtensions (processSchema σ NewReplacer schema) "Classroom").1
     = ["Classroom"; "StudentList"].
Proof.
  intros σ schema.
  assert (H1 : NoDup (map (fun p => dName (σ p)) (Types schema))) by by_evaluation.
  assert (H2 : 0%nat ∈ Types schema) by (vm_compute; constructor).
  assert (H3 : fieldInfosOf (σ 0%nat) <> []) by (vm_compute; discriminate).
  split; [exact H1|]. split; [exact H2|]. split; [exact H3|].
  change "Classroom" with (dName (σ 0%nat)) at 1.
  rewrite (proj1 (field_extension_under_both_names σ schema 0%nat H1 H2 H3)).
  reflexivity.
Defined.

(** ** Whole words *)

Lemma append_cons c s1 s2 : String c s1 +:+ s2 = String c (s1 +:+ s2).
Proof. reflexivity. Qed.

Lemma append_nil_l s : "" +:+ s = s.
Proof. reflexivity. Qed.

Lemma wordRun_afterRun s : wordRun s +:+ afterRun s = s.
Proof.
  induction s as [|c s IH]; cbn; [reflexivity|].
  destruct (isWordChar c); [by rewrite append_cons, IH | reflexivity].
Qed.

Lemma allWordChars_wordRun s : allWordChars (wordRun s) = true.
Proof.
  induction s as [|c s IH]; cbn; [reflexivity|].
  destruct (isWordChar c) eqn:Hc; cbn; [by rewrite Hc | reflexivity].
Qed.

Lemma afterRun_start s : startsWithWordChar (afterRun s) = false.
Proof.
  induction s as [|c s IH]; cbn; [reflexivity|].
  destruct (isWordChar c) eqn:Hc; [exact IH | cbn; exact Hc].
Qed.

Lemma afterRun_length s : String.length (afterRun s) <= String.length s.
Proof.
  induction s as [|c s IH]; cbn; [lia|]. destruct (isWordChar c); cbn; lia.
Qed.

Lemma wordRun_none s : startsWithWordChar s = false -> wordRun s = "" /\ afterRun s = s.
Proof.
  destruct s as [|c s]; cbn; [done|]. intros ->. done.
Qed.

Lemma wordItems_start s :
  match wordItems s with
  | [] => s = ""
  | item :: _ => firstChar item = firstChar s /\ item <> ""
  end.
Proof.
  destruct s as [|c s]; cbn; [reflexivity|].
  destruct (isWordChar c); [|done].
  destruct (wordItems s) as [|[|d t] items]; [done..|].
  by destruct (isWordChar d).
Qed.

Lemma wordItems_run s :
  startsWithWordChar s = true ->
  wordItems s = wordRun s :: wordItems (afterRun s).
Proof.
  induction s as [|c s IH]; cbn; [done|].
  intros Hc. rewrite Hc.
  destruct (startsWithWordChar s) eqn:Hs.
  - rewrite (IH eq_refl).
    destruct s as [|d s']; [done|]. cbn in Hs |- *. rewrite Hs. by rewrite Hs.
  - destruct (wordRun_none s Hs) as [-> ->].
    pose proof (wordItems_start s) as Hstart.
    destruct (wordItems s) as [|[|d t] items]; [done| |].
    + by destruct Hstart as [_ ?].
    + destruct Hstart as [Hd _]. unfold startsWithWordChar in Hs.
      rewrite <- Hd in Hs. cbn in Hs. by rewrite Hs.
Qed.

Lemma wordItems_other c s :
  isWordChar c = false -> wordItems (String c s) = String c "" :: wordItems s.
Proof. intros Hc. cbn. by rewrite Hc. Qed.

Lemma wordRun_app t rest :
  allWordChars t = true -> startsWithWordChar rest = false ->
  wordRun (t +:+ rest) = t /\ afterRun (t +:+ rest) = rest.
Proof.
  intros Ht Hrest. induction t as [|c t IH].
  - rewrite append_nil_l. by apply wordRun_none.
  - cbn in Ht. apply andb_true_iff in Ht as [Hc Ht].
    rewrite append_cons. cbn. rewrite Hc.
    destruct (IH Ht) as [-> ->]. done.
Qed.

Lemma wordItems_app t rest :
  isWordString t = true -> startsWithWordChar rest = false ->
  wordItems (t +:+ rest) = t :: wordItems rest.
Proof.
  unfold isWordString. intros Ht Hrest.
  apply andb_true_iff in Ht as [Hne Ht].
  destruct (wordRun_app t rest Ht Hrest) as [Hrun Hafter].
  rewrite wordItems_run, Hrun, Hafter; [reflexivity|].
  destruct t as [|c t]; [done|]. rewrite append_cons. cbn in Ht |- *.
  by apply andb_true_iff in Ht as [-> _].
Qed.

Lemma joinItems_cons item items : joinItems (item :: items) = item +:+ joinItems items.
Proof. reflexivity. Qed.

Lemma joinItems_wordItems s : joinItems (wordItems s) = s.
Proof.
  induction s as [|c s IH]; [reflexivity|]. cbn [wordItems].
  destruct (isWordChar c).
  - destruct (wordItems s) as [|[|d t] items].
    + rewrite joinItems_cons, append_cons, append_nil_l. by rewrite <- IH.
    + rewrite joinItems_cons, append_cons, append_nil_l. by rewrite IH.
    + destruct (isWordChar d).
      * rewrite joinItems_cons, append_cons. rewrite joinItems_cons in IH.
        by rewrite IH.
      * rewrite joinItems_cons, append_cons, append_nil_l. by rewrite IH.
  - rewrite joinItems_cons, append_cons, append_nil_l. by rewrite IH.
Qed.

Lemma isWordChar_neq a c : isWordChar a = true -> isWordChar c = false -> Ascii.eqb a c = false.
Proof. intros Ha Hc. destruct (Ascii.eqb_spec a c) as [->|]; congruence. Qed.

Lemma string_eqb_cons a s c t :
  String.eqb (String a s) (String c t) = Ascii.eqb a c && String.eqb s t.
Proof. cbn. by destruct (Ascii.eqb a c). Qed.

Lemma replaceExactWord_nonempty text word replacement :
  word <> "" ->
  _replaceExactWord text word replacement
  = replaceWordFrom word replacement None 0 text.
Proof. by destruct word. Qed.

Lemma isWordString_nonempty word : isWordString word = true -> word <> "".
Proof. by intros H ->. Qed.

Section ExactWord.
Context (word replacement : string) (word_is_word : isWordString word = true).

Lemma stripLiteral_run rest (Hrest : startsWithWordChar rest = false) :
  forall w run b,
    isWordChar b = true -> allWordChars w = true -> allWordChars run = true ->
    match stripLiteral (Some b) w (run +:+ rest) with
    | Some (last, r) => wordBoundary last r
    | None => false
    end = String.eqb run w.
Proof.
  induction w as [|a w IH]; intros run b Hb Hw Hrun.
  - cbn [stripLiteral]. unfold wordBoundary. cbn [isWordAt]. rewrite Hb.
    destruct run as [|d t].
    + rewrite append_nil_l. unfold startsWithWordChar in Hrest. by rewrite Hrest.
    + rewrite append_cons. cbn in Hrun |- *.
      by apply andb_true_iff in Hrun as [-> _].
  - cbn in Hw. apply andb_true_iff in Hw as [Ha Hw].
    destruct run as [|d t].
    + rewrite append_nil_l. cbn.
      destruct rest as [|e r]; [reflexivity|]. cbn in Hrest.
      by rewrite (isWordChar_neq a e Ha Hrest).
    + rewrite append_cons. cbn [stripLiteral]. cbn in Hrun.
      apply andb_true_iff in Hrun as [Hd Hrun].
      rewrite string_eqb_cons, (Ascii.eqb_sym d a).
      destruct (Ascii.eqb_spec a d) as [->|Hne]; cbn [andb]; [|reflexivity].
      by apply IH.
Qed.

Lemma matchWordHere_other prev s :
  startsWithWordChar s = false -> matchWordHere word prev s = false.
Proof.
  intros Hs. unfold matchWordHere. unfold isWordString in word_is_word.
  destruct word as [|a w]; [done|].
  cbn in word_is_word. apply andb_true_iff in word_is_word as [Ha _].
  destruct s as [|c r]; cbn; [by rewrite andb_false_r|].
  cbn in Hs. rewrite (isWordChar_neq a c Ha Hs). by rewrite andb_false_r.
Qed.

Lemma matchWordHere_inside prev s :
  isWordAt prev = true -> startsWithWordChar s = true ->
  matchWordHere word prev s = false.
Proof.
  intros Hp Hs. unfold matchWordHere, wordBoundary.
  unfold startsWithWordChar in Hs. by rewrite Hp, Hs.
Qed.

Lemma matchWordHere_run prev s :
  isWordAt prev = false -> startsWithWordChar s = true ->
  matchWordHere word prev s = String.eqb (wordRun s) word.
Proof.
  intros Hp Hs. unfold matchWordHere, wordBoundary.
  unfold startsWithWordChar in Hs. rewrite Hp, Hs. cbn [xorb andb].
  unfold isWordString in word_is_word.
  destruct word as [|a w]; [done|].
  cbn in word_is_word. apply andb_true_iff in word_is_word as [Ha Hw].
  destruct s as [|c r]; [done|]. cbn in Hs. cbn [stripLiteral wordRun]. rewrite Hs.
  rewrite string_eqb_cons, (Ascii.eqb_sym c a).
  destruct (Ascii.eqb a c); [|reflexivity]. cbn [andb].
  rewrite <- (wordRun_afterRun r) at 1.
  apply (stripLiteral_run (afterRun r) (afterRun_start r) w (wordRun r) c Hs Hw
           (allWordChars_wordRun r)).
Qed.

Lemma word_neq_other c : isWordChar c = false -> String.eqb (String c "") word = false.
Proof.
  intros Hc. unfold isWordString in word_is_word.
  destruct word as [|a w]; [done|].
  cbn in word_is_word. apply andb_true_iff in word_is_word as [Ha _].
  rewrite string_eqb_cons, (Ascii.eqb_sym c a), (isWordChar_neq a c Ha Hc). done.
Qed.

(** [_containsExactWord]: the word is one of the whole words of the text. *)
Lemma matchSomewhere_other prev s :
  startsWithWordChar s = false ->
  matchSomewhere (matchWordHere word) prev s
  = matchSomewhere (matchWordHere word) None s.
Proof.
  intros Hs. destruct s as [|c r]; cbn [matchSomewhere];
    by rewrite !matchWordHere_other.
Qed.

Lemma matchSomewhere_inside s :
  forall prev, isWordAt prev = true ->
    matchSomewhere (matchWordHere word) prev s
    = matchSomewhere (matchWordHere word) None (afterRun s).
Proof.
  induction s as [|c r IH]; intros prev Hp.
  - cbn. by rewrite !matchWordHere_other.
  - destruct (isWordChar c) eqn:Hc.
    + cbn [matchSomewhere afterRun]. rewrite Hc.
      rewrite matchWordHere_inside by done. by apply IH.
    + cbn [afterRun]. rewrite Hc. by apply matchSomewhere_other.
Qed.

Lemma matchSomewhere_items n :
  forall s prev,
    String.length s <= n -> isWordAt prev = false ->
    matchSomewhere (matchWordHere word) prev s
    = existsb (String.eqb word) (wordItems s).
Proof.
  induction n as [|n IH]; intros s prev Hlen Hp.
  - destruct s; [|cbn in Hlen; lia]. cbn. by rewrite matchWordHere_other.
  - destruct s as [|c r]; [cbn; by rewrite matchWordHere_other|].
    cbn in Hlen. destruct (isWordChar c) eqn:Hc.
    + rewrite wordItems_run by exact Hc. cbn [matchSomewhere existsb].
      rewrite matchWordHere_run by done.
      rewrite matchSomewhere_inside by exact Hc.
      rewrite (String.eqb_sym word). f_equal.
      cbn [afterRun]. rewrite Hc. apply IH; [|done].
      pose proof (afterRun_length r). lia.
    + rewrite wordItems_other by exact Hc. cbn [matchSomewhere existsb].
      rewrite matchWordHere_other by exact Hc.
      rewrite (String.eqb_sym word), word_neq_other by exact Hc. cbn [orb].
      apply IH; [lia | exact Hc].
Qed.

Lemma containsExactWord_items text :
  _containsExactWord text word = existsb (String.eqb word) (wordItems text).
Proof.
  unfold _containsExactWord.
  rewrite (matchSomewhere_items (String.length text)) by done.
  unfold isWordString in word_is_word. by destruct word.
Qed.

(** [_replaceExactWord]: every whole word equal to the word is replaced. *)

Lemma replaceWordFrom_other prev s :
  startsWithWordChar s = false ->
  replaceWordFrom word replacement prev 0 s
  = replaceWordFrom word replacement None 0 s.
Proof.
  intros Hs. destruct s as [|c r]; [reflexivity|].
  cbn [replaceWordFrom]. by rewrite !matchWordHere_other.
Qed.

Lemma replaceWordFrom_inside s :
  forall prev, isWordAt prev = true ->
    replaceWordFrom word replacement prev 0 s
    = wordRun s +:+ replaceWordFrom word replacement None 0 (afterRun s).
Proof.
  induction s as [|c r IH]; intros prev Hp; [reflexivity|].
  destruct (isWordChar c) eqn:Hc.
  - cbn [replaceWordFrom wordRun afterRun]. rewrite Hc.
    rewrite matchWordHere_inside by done.
    rewrite append_cons. f_equal. by apply IH.
  - cbn [wordRun afterRun]. rewrite Hc, append_nil_l.
    by apply replaceWordFrom_other.
Qed.

Lemma replaceWordFrom_skip rest (Hrest : startsWithWordChar rest = false) u :
  forall prev,
    replaceWordFrom word replacement prev (String.length u) (u +:+ rest)
    = replaceWordFrom word replacement None 0 rest.
Proof.
  induction u as [|a u IH]; intros prev.
  - rewrite append_nil_l. by apply replaceWordFrom_other.
  - rewrite append_cons. cbn [String.length replaceWordFrom]. apply IH.
Qed.

Lemma replaceWordFrom_items n :
  forall s prev,
    String.length s <= n -> isWordAt prev = false ->
    replaceWordFrom word replacement prev 0 s
    = joinItems (map (replaceItem word replacement) (wordItems s)).
Proof.
  induction n as [|n IH]; intros s prev Hlen Hp.
  - destruct s; [reflexivity | cbn in Hlen; lia].
  - destruct s as [|c r]; [reflexivity|].
    cbn in Hlen. destruct (isWordChar c) eqn:Hc.
    + rewrite wordItems_run by exact Hc. cbn [map joinItems foldr].
      fold (joinItems (map (replaceItem word replacement) (wordItems (afterRun (String c r))))).
      cbn [replaceWordFrom]. rewrite matchWordHere_run by done.
      unfold replaceItem at 1.
      assert (Hafter : afterRun (String c r) = afterRun r) by (cbn; by rewrite Hc).
      assert (Hlen' : String.length (afterRun r) <= n)
        by (pose proof (afterRun_length r); lia).
      destruct (String.eqb_spec (wordRun (String c r)) word) as [Hrun|Hrun].
      * f_equal. rewrite Hafter, <- (IH (afterRun r) None Hlen' eq_refl).
        assert (Hr : r = match word with String _ w => w | "" => "" end
                         +:+ afterRun r).
        { pose proof (wordRun_afterRun (String c r)) as Hs.
          rewrite Hrun, Hafter in Hs. destruct word as [|a w].
          - unfold isWordString in word_is_word. done.
          - rewrite append_cons in Hs. injection Hs as _ Hs. by symmetry. }
        rewrite Hr at 1.
        replace (String.length word - 1)
          with (String.length match word with String _ w => w | "" => "" end).
        -- apply replaceWordFrom_skip, afterRun_start.
        -- destruct word; cbn; lia.
      * cbn [wordRun]. rewrite Hc, append_cons. f_equal.
        rewrite replaceWordFrom_inside by exact Hc.
        f_equal. rewrite Hafter. by apply IH.
    + rewrite wordItems_other by exact Hc. cbn [map joinItems foldr].
      fold (joinItems (map (replaceItem word replacement) (wordItems r))).
      cbn [replaceWordFrom]. rewrite matchWordHere_other by exact Hc.
      unfold replaceItem at 1. rewrite word_neq_other by exact Hc.
      rewrite append_cons, append_nil_l. f_equal.
      apply IH; [lia | exact Hc].
Qed.

Lemma replaceExactWord_items text :
  _replaceExactWord text word replacement
  = joinItems (map (replaceItem word replacement) (wordItems text)).
Proof.
  rewrite replaceExactWord_nonempty by (by apply isWordString_nonempty).
  by apply (replaceWordFrom_items (String.length text)).
Qed.

End ExactWord.

Lemma isWordString_wordRun s :
  startsWithWordChar s = true -> isWordString (wordRun s) = true.
Proof.
  intros Hs. unfold isWordString. rewrite allWordChars_wordRun, andb_true_r.
  destruct s as [|c r]; [done|]. cbn in Hs |- *. by rewrite Hs.
Qed.

(** A renaming of whole words: words go to words, the bytes between them
    stay.  The items of the renamed text are the renamed items. *)
Section RenameItems.
Context (f : string -> string).
Hypothesis f_word : forall t, isWordString t = true -> isWordString (f t) = true.
Hypothesis f_other : forall c, isWordChar c = false -> f (String c "") = String c "".

Lemma join_map_start s :
  startsWithWordChar s = false ->
  startsWithWordChar (joinItems (map f (wordItems s))) = false.
Proof.
  intros Hs. destruct s as [|c r]; [reflexivity|]. cbn in Hs.
  rewrite wordItems_other by exact Hs. cbn [map].
  rewrite joinItems_cons, f_other by exact Hs. by rewrite append_cons.
Qed.

Lemma wordItems_join_map n :
  forall s, String.length s <= n ->
    wordItems (joinItems (map f (wordItems s))) = map f (wordItems s).
Proof.
  induction n as [|n IH]; intros s Hlen.
  - destruct s; [reflexivity | cbn in Hlen; lia].
  - destruct s as [|c r]; [reflexivity|]. cbn in Hlen.
    destruct (isWordChar c) eqn:Hc.
    + rewrite (wordItems_run (String c r)) by exact Hc. cbn [map].
      rewrite joinItems_cons.
      assert (Hafter : afterRun (String c r) = afterRun r) by (cbn; by rewrite Hc).
      rewrite wordItems_app.
      * f_equal. rewrite Hafter. apply IH. pose proof (afterRun_length r). lia.
      * apply f_word, isWordString_wordRun. exact Hc.
      * apply join_map_start, afterRun_start.
    + rewrite (wordItems_other c r) by exact Hc. cbn [map].
      rewrite joinItems_cons, f_other by exact Hc.
      rewrite append_cons, append_nil_l, wordItems_other by exact Hc.
      f_equal. apply IH. lia.
Qed.
End RenameItems.

Lemma replaceItem_id_items newName oldName items :
  existsb (String.eqb newName) items = false ->
  map (replaceItem newName oldName) items = items.
Proof.
  induction items as [|t items IH]; cbn; [done|].
  intros H. apply orb_false_iff in H as [Ht Hitems].
  unfold replaceItem at 1. rewrite String.eqb_sym, Ht. by rewrite IH.
Qed.

Lemma wordItems_rewriteKey key newName oldName :
  isWordString newName = true -> isWordString oldName = true ->
  wordItems (rewriteKey key newName oldName)
  = map (replaceItem newName oldName) (wordItems key).
Proof.
  intros Hn Ho. unfold rewriteKey.
  rewrite (containsExactWord_items newName Hn).
  destruct (existsb (String.eqb newName) (wordItems key)) eqn:Hc.
  - rewrite (replaceExactWord_items newName oldName Hn).
    apply (wordItems_join_map _) with (n := String.length key); [| |lia].
    + intros t Ht. unfold replaceItem. by destruct (String.eqb t newName).
    + intros c Hc'. unfold replaceItem. by rewrite (word_neq_other newName Hn).
  - by rewrite replaceItem_id_items.
Qed.

(** ** Federation keys on the extensions (C8) *)

Lemma rewriteKeys_spec keys newName oldName :
  rewriteKeys keys newName oldName
  = map (fun '((key, hasUpdates) : string * bool) =>
           (rewriteKey key newName oldName,
            hasUpdates || _containsExactWord key newName))
        keys.
Proof.
  unfold rewriteKeys, rewriteKey. apply map_ext. intros [key u].
  destruct (_containsExactWord key newName);
    [by rewrite orb_true_r | by rewrite orb_false_r].
Qed.

Lemma rewriteKeysAll_map infos :
  forall keys, rewriteKeysAll keys infos = map (rewriteEntry infos) keys.
Proof.
  induction infos as [|fi l IH]; intros keys.
  - cbn. by rewrite map_id.
  - unfold rewriteKeysAll in *. cbn [foldl]. rewrite IH, rewriteKeys_spec, map_map.
    apply map_ext. by intros [key u].
Qed.

Lemma renameWord_nil item : renameWord [] item = item.
Proof. reflexivity. Qed.

Lemma find_none_iff {A} (p : A -> bool) (l : list A) :
  List.find p l = None <-> forall x, x ∈ l -> p x = false.
Proof.
  split.
  - intros H x Hx. apply (find_none p l H). by apply list_elem_of_In.
  - intros H. induction l as [|a l IH]; cbn; [reflexivity|].
    rewrite (H a) by (by left). apply IH. intros x Hx. apply H. by right.
Qed.

Lemma namesAreWords_tail fi l : namesAreWords (fi :: l) -> namesAreWords l.
Proof. intros H x Hx. apply H. by right. Qed.

Lemma noRenameChain_tail fi l : noRenameChain (fi :: l) -> noRenameChain l.
Proof. intros H f g Hf Hg. apply H; by right. Qed.

Lemma renameWord_cons fi l item :
  noRenameChain (fi :: l) ->
  renameWord l (replaceItem (fName (fi_field fi)) (fi_oldName fi) item)
  = renameWord (fi :: l) item.
Proof.
  intros Hchain. unfold replaceItem. unfold renameWord at 2. cbn [find].
  rewrite (String.eqb_sym item).
  destruct (String.eqb (fName (fi_field fi)) item); [|reflexivity].
  unfold renameWord.
  replace (find _ l) with (@None _fieldInfo); [reflexivity|].
  symmetry. apply find_none_iff. intros g Hg.
  apply String.eqb_neq. intros Heq. apply (Hchain fi g); [by left | by right | done].
Qed.

Lemma rewriteEntry_spec infos :
  forall key hasUpdates,
    namesAreWords infos -> noRenameChain infos ->
    rewriteEntry infos (key, hasUpdates)
    = (renameWords infos key, hasUpdates || anyRenamedWord infos key).
Proof.
  induction infos as [|fi l IH]; intros key u Hw Hchain.
  - unfold renameWords. cbn. rewrite orb_false_r.
    rewrite (map_ext _ (fun t => t) renameWord_nil), map_id.
    by rewrite joinItems_wordItems.
  - destruct (Hw fi) as [Hn Ho]; [by left|].
    unfold rewriteEntry in *. cbn [foldl].
    rewrite IH by eauto using namesAreWords_tail, noRenameChain_tail.
    f_equal.
    + unfold renameWords. rewrite wordItems_rewriteKey by assumption.
      rewrite map_map. f_equal. apply map_ext. intros t. by apply renameWord_cons.
    + cbn [anyRenamedWord existsb]. rewrite <- orb_assoc. f_equal.
      rewrite (containsExactWord_items _ Hn). unfold rewriteKey.
      rewrite (containsExactWord_items _ Hn).
      destruct (existsb (String.eqb (fName (fi_field fi))) (wordItems key));
        reflexivity.
Qed.

Lemma renameWord_word infos item :
  namesAreWords infos -> isWordString item = true ->
  isWordString (renameWord infos item) = true.
Proof.
  intros Hw Hitem. unfold renameWord.
  destruct (find _ infos) as [fi|] eqn:Hfind; [|exact Hitem].
  apply find_some in Hfind as [Hin _]. apply Hw. by apply list_elem_of_In.
Qed.

Lemma renameWord_other infos c :
  namesAreWords infos -> isWordChar c = false ->
  renameWord infos (String c "") = String c "".
Proof.
  intros Hw Hc. unfold renameWord.
  replace (find _ infos) with (@None _fieldInfo); [reflexivity|].
  symmetry. apply find_none_iff. intros g Hg.
  rewrite String.eqb_sym. apply word_neq_other; [|exact Hc]. by apply Hw.
Qed.

Lemma wordItems_renameWords infos key :
  namesAreWords infos ->
  wordItems (renameWords infos key) = map (renameWord infos) (wordItems key).
Proof.
  intros Hw. unfold renameWords.
  apply (wordItems_join_map _) with (n := String.length key); [| |lia].
  - intros t. by apply renameWord_word.
  - intros c. by apply renameWord_other.
Qed.

(** A renamed key has none of the new names left in it. *)
Lemma renameWords_clean infos key g :
  namesAreWords infos -> noRenameChain infos -> g ∈ infos ->
  _containsExactWord (renameWords infos key) (fName (fi_field g)) = false.
Proof.
  intros Hw Hchain Hg.
  rewrite containsExactWord_items by (by apply Hw).
  rewrite wordItems_renameWords by exact Hw.
  apply not_true_iff_false. intros Hex.
  apply existsb_exists in Hex as (t' & Hin & Heq).
  apply in_map_iff in Hin as (t & <- & _).
  apply String.eqb_eq in Heq. unfold renameWord in Heq.
  destruct (find _ infos) as [f|] eqn:Hfind.
  - apply find_some in Hfind as [Hf _].
    apply (Hchain f g); [by apply list_elem_of_In | exact Hg | done].
  - apply (proj1 (find_none_iff _ _)) with (x := g) in Hfind; [|exact Hg].
    apply String.eqb_neq in Hfind. by apply Hfind.
Qed.

Lemma rewriteEntry_fixed infos :
  forall entry,
    (forall g, g ∈ infos -> _containsExactWord entry.1 (fName (fi_field g)) = false) ->
    rewriteEntry infos entry = entry.
Proof.
  induction infos as [|fi l IH]; intros [key u] Hclean; [reflexivity|].
  unfold rewriteEntry in *. cbn [foldl]. unfold rewriteKey.
  assert (Hfi : _containsExactWord key (fName (fi_field fi)) = false)
    by (apply (Hclean fi); by left).
  rewrite Hfi, orb_false_r.
  apply IH. intros g Hg. apply Hclean. by right.
Qed.

Lemma rewriteKeysAll_first infos keys :
  namesAreWords infos -> noRenameChain infos ->
  rewriteKeysAll (map (fun key => (key, false)) keys) infos = renamedKeys infos keys.
Proof.
  intros Hw Hchain. rewrite rewriteKeysAll_map, map_map. apply map_ext.
  intros key. by rewrite rewriteEntry_spec.
Qed.

Lemma rewriteKeysAll_again infos keys :
  namesAreWords infos -> noRenameChain infos ->
  rewriteKeysAll (renamedKeys infos keys) infos = renamedKeys infos keys.
Proof.
  intros Hw Hchain. rewrite rewriteKeysAll_map. unfold renamedKeys.
  rewrite map_map. apply map_ext. intros key.
  apply rewriteEntry_fixed. intros g Hg. cbn. by apply renameWords_clean.
Qed.

Lemma updatedKeyDirectives_renamedKeys infos keys :
  updatedKeyDirectives (renamedKeys infos keys)
  = flat_map (fun key => if anyRenamedWord infos key
                         then [keyDirective (renameWords infos key)] else [])
      keys.
Proof.
  unfold updatedKeyDirectives, renamedKeys.
  induction keys as [|key keys IH]; cbn; [reflexivity|]. by rewrite IH.
Qed.

Lemma fieldExtensionsFrom_directives ownerKind infos keys names :
  rewriteKeysAll keys infos = keys ->
  forall e, e ∈ fieldExtensionsFrom ownerKind infos keys names ->
            dDirectives e.1 = updatedKeyDirectives keys.
Proof.
  intros Hfix. induction names as [|n names IH]; intros e He; cbn in He.
  - by apply elem_of_nil in He.
  - apply elem_of_cons in He as [->|He].
    + cbn. by rewrite Hfix.
    + rewrite Hfix in He. by apply IH.
Qed.

(** C8, as stated, does not hold for every renamed field: the keys are
    rewritten in place, field after field, so a word that one field has put
    into the key is rewritten again when it is the new name of another
    renamed field.  In [type T @key(fields: "c") { c: Int @replaces(name:
    "b")  b: Int @replaces(name: "a") }] the key attached to the extension
    is "a", not "b". *)
Lemma chained_renames_rewrite_key_twice :
  ~ (forall (σ : Heap) (schema : Schema) (owner : string) (fi : _fieldInfo)
            (key : string) (e : Emitted),
        let r := processSchema σ NewReplacer schema in
        fi ∈ default [] (fields r !! owner) ->
        key ∈ default [] (federationKeys r !! owner) ->
        _containsExactWord key (fName (fi_field fi)) = true ->
        e ∈ (fieldExtensions r owner).1 ->
        exists key', keyDirective key' ∈ dDirectives e.1
                     /\ _containsExactWord key' (fi_oldName fi) = true).
Proof.
  intros H.
  destruct (H (heapOf [ChainedRenames]) (schemaOf [ChainedRenames]) "T"
              {| fi_field := field "c" (NamedT "Int" false) [replaces "b"];
                 fi_oldName := "b"; fi_oldTypeName := "" |}
              "c"
              (fieldExtensionOf Object
                 [{| fi_field := field "c" (NamedT "Int" false) [replaces "b"];
                     fi_oldName := "b"; fi_oldTypeName := "" |};
                  {| fi_field := field "b" (NamedT "Int" false) [replaces "a"];
                     fi_oldName := "a"; fi_oldTypeName := "" |}]
                 [("c", false)] "T", true))
    as (key' & Hin & Hc).
  - vm_compute. constructor.
  - vm_compute. constructor.
  - reflexivity.
  - vm_compute. constructor.
  - vm_compute in Hin. apply list_elem_of_singleton in Hin.
    injection Hin as ->. vm_compute in Hc. discriminate.
Qed.

(** C8, amended: rewriting is by whole words and leaves the base type's key
    alone.  Where the names are words and no renamed field of the owner has
    an old name that is the new name of a renamed field of that owner, each
    extension emitted for the owner carries, for every key of the owner in
    which the new name of a renamed field occurs as a whole word, that key
    with each such word replaced by the field's old name ("id kaLocale"
    becomes "id locale"); a key in which the names occur at most inside
    longer words ("id kaLocaleValue") is not rewritten and not attached; the
    keys recorded for the owner and the directives of the input definitions
    are as they were. *)
Theorem extension_keys_rewrite_whole_words :
  forall (σ : Heap) (r : Replacer) (owner : string),
    let infos := default [] (fields r !! owner) in
    let keys := default [] (federationKeys r !! owner) in
    namesAreWords infos ->
    noRenameChain infos ->
    (forall e, e ∈ (fieldExtensions r owner).1 ->
       dDirectives e.1
       = flat_map (fun key => if anyRenamedWord infos key
                              then [keyDirective (renameWords infos key)] else [])
           keys)
    /\ federationKeys (schemaAdditions σ r).1.2 = federationKeys r
    /\ (forall q, dDirectives ((schemaAdditions σ r).2 q) = dDirectives (σ q)).
Proof.
  intros σ r owner infos keys Hw Hchain. split; [|split].
  - intros e He. rewrite fieldExtensions_spec in He. cbn [fst] in He.
    unfold fieldExtensionsOf, allNames in He.
    fold infos keys in He. cbn [fieldExtensionsFrom] in He.
    rewrite rewriteKeysAll_first in He by assumption.
    rewrite <- updatedKeyDirectives_renamedKeys.
    apply elem_of_cons in He as [->|He].
    + cbn. by rewrite rewriteKeysAll_first.
    + eapply fieldExtensionsFrom_directives; [|exact He].
      by apply rewriteKeysAll_again.
  - rewrite schemaAdditions_spec. reflexivity.
  - intros q. rewrite schemaAdditions_spec. cbn [snd].
    destruct (definitionStage_from (sortedDefinitions r) [] σ) as (Hheap & _).
    destruct (Hheap q) as (_ & _ & _ & Hd & _). symmetry. exact Hd.
Qed.

(** An instance: the two keys of the specification on one type. *)
Lemma extension_keys_rewrite_whole_words_witness :
  let σ := heapOf [CourseWithKeys] in
  let r := processSchema σ NewReplacer (schemaOf [CourseWithKeys]) in
  namesAreWords (default [] (fields r !! "Course"))
  /\ noRenameChain (default [] (fields r !! "Course"))
  /\ forall e, e ∈ (fieldExtensions r "Course").1 ->
               dDirectives e.1 = [keyDirective "id locale"].
Proof.
  intros σ r.
  assert (Hinfos : default [] (fields r !! "Course")
                   = [{| fi_field := field "kaLocale" String_ [replaces "locale"];
                         fi_oldName := "locale"; fi_oldTypeName := "" |}])
    by (vm_compute; reflexivity).
  assert (Hw : namesAreWords (default [] (fields r !! "Course"))).
  { rewrite Hinfos. intros fi Hfi. apply list_elem_of_singleton in Hfi as ->.
    split; reflexivity. }
  assert (Hchain : noRenameChain (default [] (fields r !! "Course"))).
  { rewrite Hinfos. intros f g Hf Hg.
    apply list_elem_of_singleton in Hf as ->.
    apply list_elem_of_singleton in Hg as ->. discriminate. }
  split; [exact Hw|]. split; [exact Hchain|].
  intros e He.
  rewrite (proj1 (extension_keys_rewrite_whole_words σ r "Course" Hw Hchain) e He).
  vm_compute. reflexivity.
Defined.

(** * Further properties of the code *)

(** ** Whole-word search and replacement *)

Lemma existsb_eqb_elem_of (w : string) (items : list string) :
  existsb (String.eqb w) items = true <-> w ∈ items.
Proof.
  rewrite existsb_exists. split.
  - intros (x & Hin & Heq). apply String.eqb_eq in Heq as ->. by apply list_elem_of_In.
  - intros Hin. exists w. split; [by apply list_elem_of_In | apply String.eqb_refl].
Qed.

(** X1: For a word (a non-empty run of letters, digits and underscores),
    _containsExactWord(text, word) is true exactly when the word occurs in
    the text as a whole word, that is as one of the text's maximal runs of
    word characters; when it is false, _replaceExactWord(text, word,
    replacement) returns the text unchanged for every replacement. *)
Theorem exact_word_is_a_whole_word :
  forall (text word : string),
    isWordString word = true ->
    (_containsExactWord text word = true <-> word ∈ wordItems text)
    /\ (_containsExactWord text word = false ->
        forall replacement, _replaceExactWord text word replacement = text).
Proof.
  intros text word Hw. rewrite (containsExactWord_items word Hw). split.
  - apply existsb_eqb_elem_of.
  - intros Hc replacement. rewrite (replaceExactWord_items word replacement Hw).
    rewrite replaceItem_id_items by exact Hc. apply joinItems_wordItems.
Qed.

Lemma exact_word_is_a_whole_word_witness :
  isWordString "kaLocale" = true
  /\ "kaLocale" ∈ wordItems "id kaLocale"
  /\ _replaceExactWord "id kaLocaleValue" "kaLocale" "locale" = "id kaLocaleValue".
Proof.
  assert (Hw : isWordString "kaLocale" = true) by reflexivity.
  split; [exact Hw|]. split.
  - apply (proj1 (exact_word_is_a_whole_word "id kaLocale" "kaLocale" Hw)). reflexivity.
  - apply (proj2 (exact_word_is_a_whole_word "id kaLocaleValue" "kaLocale" Hw)). reflexivity.
Defined.

Lemma wordItems_replaceExactWord text word replacement :
  isWordString word = true -> isWordString replacement = true ->
  wordItems (_replaceExactWord text word replacement)
  = map (replaceItem word replacement) (wordItems text).
Proof.
  intros Hw Hr. rewrite (replaceExactWord_items word replacement Hw).
  apply (wordItems_join_map _) with (n := String.length text); [| |lia].
  - intros t Ht. unfold replaceItem. by destruct (String.eqb t word).
  - intros c Hc. unfold replaceItem. by rewrite (word_neq_other word Hw).
Qed.

(** X2: For two different words, the text returned by
    _replaceExactWord(text, word, replacement) no longer contains word as a
    whole word, and if text contained word as a whole word the result
    contains replacement as a whole word. *)
Theorem replaced_word_is_gone :
  forall (text word replacement : string),
    isWordString word = true -> isWordString replacement = true ->
    replacement <> word ->
    _containsExactWord (_replaceExactWord text word replacement) word = false
    /\ (_containsExactWord text word = true ->
        _containsExactWord (_replaceExactWord text word replacement) replacement = true).
Proof.
  intros text word replacement Hw Hr Hne.
  rewrite (containsExactWord_items word Hw), (containsExactWord_items replacement Hr).
  rewrite (containsExactWord_items word Hw).
  rewrite wordItems_replaceExactWord by assumption. split.
  - apply not_true_is_false. rewrite existsb_eqb_elem_of.
    intros Hin. apply list_elem_of_In, in_map_iff in Hin as (item & Heq & _).
    unfold replaceItem in Heq. destruct (String.eqb_spec item word); congruence.
  - rewrite !existsb_eqb_elem_of. intros Hin.
    apply list_elem_of_In, in_map_iff. exists word. split; [|by apply list_elem_of_In].
    unfold replaceItem. by rewrite String.eqb_refl.
Qed.

Lemma replaced_word_is_gone_witness :
  _containsExactWord (_replaceExactWord "id kaLocale kaid" "kaLocale" "locale") "kaLocale"
  = false.
Proof.
  apply (replaced_word_is_gone "id kaLocale kaid" "kaLocale" "locale");
    [reflexivity | reflexivity | discriminate].
Defined.

(** X3: If text does not contain the word replacement as a whole word, then
    replacing word by replacement and afterwards replacement by word with
    _replaceExactWord gives back text (both names being words). *)
Theorem replaceExactWord_round_trip :
  forall (text word replacement : string),
    isWordString word = true -> isWordString replacement = true ->
    _containsExactWord text replacement = false ->
    _replaceExactWord (_replaceExactWord text word replacement) replacement word = text.
Proof.
  intros text word replacement Hw Hr Hfresh.
  rewrite (containsExactWord_items replacement Hr) in Hfresh.
  rewrite (replaceExactWord_items replacement word Hr).
  rewrite wordItems_replaceExactWord by assumption.
  rewrite map_map. rewrite <- (joinItems_wordItems text) at 2. f_equal.
  rewrite <- (map_id (wordItems text)) at 2. apply map_ext_in.
  intros item Hin. unfold replaceItem.
  destruct (String.eqb_spec item word) as [->|Hne].
  - by rewrite String.eqb_refl.
  - destruct (String.eqb_spec item replacement) as [->|]; [|reflexivity].
    exfalso. apply not_true_iff_false in Hfresh. apply Hfresh.
    apply existsb_eqb_elem_of. by apply list_elem_of_In.
Qed.

Lemma replaceExactWord_round_trip_witness :
  _replaceExactWord (_replaceExactWord "id kaLocale kaid" "kaLocale" "locale")
    "locale" "kaLocale"
  = "id kaLocale kaid".
Proof.
  apply (replaceExactWord_round_trip "id kaLocale kaid" "kaLocale" "locale");
    reflexivity.
Defined.

(** ** The text that comes back *)

Lemma list_ascii_append s1 s2 :
  list_ascii_of_string (s1 +:+ s2) = list_ascii_of_string s1 ++ list_ascii_of_string s2.
Proof. induction s1 as [|c s1 IH]; [reflexivity|]. cbn. by rewrite <- IH. Qed.

Lemma tabsToSpaces_no_tab s : tab ∉ list_ascii_of_string (tabsToSpaces s).
Proof.
  induction s as [|c s IH]; cbn; [apply not_elem_of_nil|].
  destruct (Ascii.eqb_spec c tab) as [->|Hne].
  - rewrite list_ascii_append, not_elem_of_app. split; [|exact IH].
    cbn. rewrite !not_elem_of_cons. repeat split; try discriminate. apply not_elem_of_nil.
  - cbn. rewrite not_elem_of_cons. split; [congruence | exact IH].
Qed.

Lemma tabsToSpaces_id s : tab ∉ list_ascii_of_string s -> tabsToSpaces s = s.
Proof.
  induction s as [|c s IH]; cbn; [reflexivity|].
  rewrite not_elem_of_cons. intros [Hne Hs].
  destruct (Ascii.eqb_spec c tab) as [->|_]; [congruence|]. by rewrite IH.
Qed.

(** X4: The text returned by getSchemaAdditions never contains a tab
    character, whatever the formatter writes; when the Replacer has been
    indexed and the formatter's output has no tab, the returned text is
    exactly the formatter's output for the emitted definitions. *)
Theorem overlay_text_has_no_tab :
  forall (F : _internalFormatter) (σ : Heap) (r : Replacer),
    (tab ∉ list_ascii_of_string (getSchemaAdditions σ r).1.1)
    /\ (hasProcessedSchema r = true ->
        tab ∉ list_ascii_of_string (render (schemaAdditions σ r).1.1) ->
        (getSchemaAdditions σ r).1.1 = render (schemaAdditions σ r).1.1).
Proof.
  intros F σ r. unfold getSchemaAdditions.
  destruct (hasProcessedSchema r); cbn [negb].
  - destruct (schemaAdditions σ r) as [[out r'] σ']. cbn [fst].
    split; [apply tabsToSpaces_no_tab | intros _; apply tabsToSpaces_id].
  - split; [apply not_elem_of_nil | discriminate].
Qed.

(** ** Rebuilding a type *)

(** X5: _updateType only replaces the innermost type name: applying it twice
    is the same as applying it once with the later name, applying it with
    the type's own innermost name returns the type unchanged, and so
    renaming a type and renaming it back restores it. *)
Theorem updateType_round_trip :
  forall (typ : Type_) (a b : string),
    _updateType (_updateType typ a) b = _updateType typ b
    /\ _updateType typ (innermost typ) = typ
    /\ _updateType (_updateType typ a) (innermost typ) = typ.
Proof.
  intros typ a b.
  assert (H1 : forall t x y, _updateType (_updateType t x) y = _updateType t y).
  { induction t as [n nn | e IH nn]; intros x y; cbn; [reflexivity | by rewrite IH]. }
  assert (H2 : forall t, _updateType t (innermost t) = t).
  { induction t as [n nn | e IH nn]; cbn; [reflexivity | by rewrite IH]. }
  split; [apply H1|]. split; [apply H2|]. by rewrite H1, H2.
Qed.

(** ** The marker extractor *)

Lemma find_app_not {A} (p : A -> bool) (l1 l2 : list A) :
  (forall x, x ∈ l1 -> p x = false) -> List.find p (l1 ++ l2) = List.find p l2.
Proof.
  induction l1 as [|a l1 IH]; intros H; cbn; [reflexivity|].
  rewrite (H a) by (by left). apply IH. intros x Hx. apply H. by right.
Qed.

Lemma GetReplaceInfo_NotFound_iff (directives : DirectiveList) :
  (forall d, d ∈ directives -> dirName d <> "replaces")
  <-> GetReplaceInfo directives = inr (WithStack kind.NotFound).
Proof.
  unfold GetReplaceInfo, DirectiveList_ForName. split.
  - intros H. rewrite (proj2 (find_none_iff _ directives)); [reflexivity|].
    intros x Hx. apply String.eqb_neq. by apply H.
  - destruct (find _ directives) as [d|] eqn:Hf.
    + destruct (ArgumentList_ForName (dirArguments d) "name");
        [|discriminate].
      destruct (ArgumentList_ForName (dirArguments d) "treatZeroAsUnset");
        discriminate.
    + intros _ d Hd. apply String.eqb_neq.
      by apply (proj1 (find_none_iff _ directives) Hf).
Qed.

(** X6: GetReplaceInfo returns the NotFound error exactly when no directive
    of the list is named replaces; otherwise its result is decided by the
    first directive named replaces alone: the directives before it and
    everything after it, later replaces directives included, are ignored. *)
Theorem GetReplaceInfo_first_marker :
  forall (directives : DirectiveList),
    ((forall d, d ∈ directives -> dirName d <> "replaces")
       <-> GetReplaceInfo directives = inr (WithStack kind.NotFound))
    /\ (forall before d after,
          directives = before ++ d :: after ->
          (forall x, x ∈ before -> dirName x <> "replaces") ->
          dirName d = "replaces" ->
          GetReplaceInfo directives = GetReplaceInfo [d]).
Proof.
  intros directives. split; [apply GetReplaceInfo_NotFound_iff|].
  intros before d after -> Hb Hd.
  unfold GetReplaceInfo, DirectiveList_ForName.
  rewrite find_app_not by (intros x Hx; apply String.eqb_neq; by apply Hb).
  cbn [find]. rewrite Hd. reflexivity.
Qed.

(** X7: When GetReplaceInfo succeeds, the list holds a replaces directive
    with a name argument whose raw value is the returned OldName;
    TreatZeroAsUnsetPresent is set exactly when that directive has a
    treatZeroAsUnset argument, a non-empty OldTypeName comes from a type
    argument of it, and TreatZeroAsUnset is never true without
    TreatZeroAsUnsetPresent. When it fails, the error is NotFound or the
    Internal error 'name required on @replaces directive', the latter only
    if some replaces directive has no name argument. *)
Theorem GetReplaceInfo_results :
  forall (directives : DirectiveList),
    match GetReplaceInfo directives with
    | inl info =>
        (exists d arg,
            d ∈ directives /\ dirName d = "replaces"
            /\ arg ∈ dirArguments d /\ argName arg = "name"
            /\ OldName info = Raw (argValue arg)
            /\ (TreatZeroAsUnsetPresent info = true
                <-> exists a, a ∈ dirArguments d /\ argName a = "treatZeroAsUnset")
            /\ (OldTypeName info <> "" ->
                exists a, a ∈ dirArguments d /\ argName a = "type"))
        /\ (TreatZeroAsUnset info = true -> TreatZeroAsUnsetPresent info = true)
    | inr e =>
        e = WithStack kind.NotFound
        \/ (e = Wrap kind.Internal "name required on @replaces directive"
            /\ exists d, d ∈ directives /\ dirName d = "replaces"
                         /\ forall arg, arg ∈ dirArguments d -> argName arg <> "name")
    end.
Proof.
  intros directives. unfold GetReplaceInfo, DirectiveList_ForName.
  destruct (find _ directives) as [d|] eqn:Hf; [|by left].
  apply find_some in Hf as [Hd Hn]. apply String.eqb_eq in Hn.
  apply list_elem_of_In in Hd.
  unfold ArgumentList_ForName.
  destruct (find _ (dirArguments d)) as [arg|] eqn:Ha.
  - apply find_some in Ha as [Harg Hname]. apply String.eqb_eq in Hname.
    apply list_elem_of_In in Harg.
    destruct (find (fun a => String.eqb (argName a) "treatZeroAsUnset") (dirArguments d))
      as [tz|] eqn:Htz.
    + cbn. split; [|done]. exists d, arg. repeat split; try done.
      * intros _. apply find_some in Htz as [Hin Heq]. exists tz.
        split; [by apply list_elem_of_In | by apply String.eqb_eq].
      * destruct (find (fun a => String.eqb (argName a) "type") (dirArguments d))
          as [ty|] eqn:Hty; [|done].
        intros _. apply find_some in Hty as [Hin Heq]. exists ty.
        split; [by apply list_elem_of_In | by apply String.eqb_eq].
    + cbn. split; [|done]. exists d, arg. repeat split; try done.
      * intros (a & Hin & Heq).
        apply (proj1 (find_none_iff _ _) Htz) in Hin. apply String.eqb_neq in Hin. done.
      * destruct (find (fun a => String.eqb (argName a) "type") (dirArguments d))
          as [ty|] eqn:Hty; [|done].
        intros _. apply find_some in Hty as [Hin Heq]. exists ty.
        split; [by apply list_elem_of_In | by apply String.eqb_eq].
  - right. split; [reflexivity|]. exists d. repeat split; try done.
    intros arg Harg. apply String.eqb_neq. by apply (proj1 (find_none_iff _ _) Ha).
Qed.

(** ** Stripping the marker *)

Lemma removeReplacesDirective_keeps (directives : DirectiveList) :
  forall d, d ∈ _removeReplacesDirective directives
            <-> d ∈ directives /\ dirName d <> "replaces".
Proof.
  intros d. unfold _removeReplacesDirective.
  rewrite list_elem_of_In, filter_In, <- list_elem_of_In, negb_true_iff.
  by rewrite String.eqb_neq.
Qed.

Lemma removeReplacesDirective_unmarked (directives : DirectiveList) :
  (forall d, d ∈ directives -> dirName d <> "replaces") ->
  _removeReplacesDirective directives = directives.
Proof.
  intros Hno. unfold _removeReplacesDirective.
  induction directives as [|d l IH]; [reflexivity|].
  cbn. assert (Hd : dirName d <> "replaces") by (apply Hno; by left).
  apply String.eqb_neq in Hd. rewrite Hd. cbn. f_equal. apply IH.
  intros x Hx. apply Hno. by right.
Qed.

Lemma removeReplacesDirective_only_markers (directives : DirectiveList) :
  (forall d, d ∈ directives -> dirName d = "replaces") ->
  _removeReplacesDirective directives = [].
Proof.
  intros Hall. unfold _removeReplacesDirective.
  induction directives as [|d l IH]; [reflexivity|].
  cbn. rewrite (Hall d) by (by left). cbn. apply IH.
  intros x Hx. apply Hall. by right.
Qed.

(** X8: _removeReplacesDirective returns nil for a nil list and panics on a
    list that is empty without being nil (make is called with the capacity
    len-1, here -1); on any other list it returns a new non-nil list holding
    exactly the directives not named replaces, in order, so with the same
    contents when there was no marker. GetReplaceInfo finds no marker
    (NotFound) in a returned list, also after _addDeprecatedDirective has
    appended to it. Applied to a non-empty list of replaces directives only,
    it returns the empty non-nil list, on which it panics: it does not
    accept its own result. *)
Theorem stripped_directives_have_no_marker :
  forall (directives : GoSlice Directive) (message : string),
    match _removeReplacesDirective_slice directives with
    | Some updated =>
        contents updated = _removeReplacesDirective (contents directives)
        /\ (updated = nilSlice <-> directives = nilSlice)
        /\ (forall d, d ∈ contents updated
                      <-> d ∈ contents directives /\ dirName d <> "replaces")
        /\ (GetReplaceInfo (contents directives) = inr (WithStack kind.NotFound) ->
            contents updated = contents directives)
        /\ GetReplaceInfo (contents updated) = inr (WithStack kind.NotFound)
        /\ GetReplaceInfo (_addDeprecatedDirective (contents updated) message)
           = inr (WithStack kind.NotFound)
    | None => directives = made []
    end
    /\ (forall l, l <> [] -> (forall d, d ∈ l -> dirName d = "replaces") ->
          exists updated,
            _removeReplacesDirective_slice (made l) = Some updated
            /\ _removeReplacesDirective_slice updated = None).
Proof.
  intros directives message. split.
  - assert (Hlist : forall l updated,
               contents updated = _removeReplacesDirective l ->
               (forall d, d ∈ contents updated <-> d ∈ l /\ dirName d <> "replaces")
               /\ (GetReplaceInfo l = inr (WithStack kind.NotFound) ->
                   contents updated = l)
               /\ GetReplaceInfo (contents updated) = inr (WithStack kind.NotFound)
               /\ GetReplaceInfo (_addDeprecatedDirective (contents updated) message)
                  = inr (WithStack kind.NotFound)).
    { intros l updated ->. split; [apply removeReplacesDirective_keeps|].
      split; [|split].
      - intros Hnf. apply removeReplacesDirective_unmarked.
        by apply GetReplaceInfo_NotFound_iff.
      - apply GetReplaceInfo_NotFound_iff. intros d Hd.
        by apply removeReplacesDirective_keeps in Hd as [_ ?].
      - apply GetReplaceInfo_NotFound_iff. intros d Hd.
        unfold _addDeprecatedDirective in Hd.
        apply elem_of_app in Hd as [Hd|Hd];
          [by apply removeReplacesDirective_keeps in Hd as [_ ?]|].
        apply list_elem_of_singleton in Hd as ->. discriminate. }
    destruct directives as [|l]; cbn [_removeReplacesDirective_slice contents].
    + split; [reflexivity|]. split; [done|]. by apply (Hlist [] nilSlice).
    + destruct (Z.ltb_spec (Z.of_nat (length l) - 1) 0) as [Hempty|Hsome].
      * destruct l; [reflexivity | cbn [length] in Hempty; lia].
      * split; [reflexivity|]. split; [split; discriminate|].
        by apply (Hlist l (made _)).
  - intros l Hne Hall. exists (made []).
    unfold _removeReplacesDirective_slice.
    destruct (Z.ltb_spec (Z.of_nat (length l) - 1) 0) as [Hempty|Hsome];
      [destruct l; [done | cbn [length] in Hempty; lia]|].
    split; [|reflexivity]. do 2 f_equal.
    by apply removeReplacesDirective_only_markers.
Qed.

(** ** A schema without markers *)

Lemma unmarked_marker directives :
  unmarked directives -> marker directives = None /\ markerErrors directives = [].
Proof.
  intros H. apply GetReplaceInfo_NotFound_iff in H.
  unfold marker, markerErrors. by rewrite H.
Qed.

Lemma flat_map_nil {A B} (f : A -> list B) (l : list A) :
  (forall x, x ∈ l -> f x = []) -> flat_map f l = [].
Proof.
  induction l as [|a l IH]; intros H; cbn; [reflexivity|].
  rewrite (H a) by (by left). apply IH. intros x Hx. apply H. by right.
Qed.

Lemma noMarkers_index d :
  noMarkers d ->
  marker (dDirectives d) = None /\ indexErrors d = []
  /\ fieldInfosOf d = [] /\ enumValueInfosOf d = [].
Proof.
  intros (Hd & Hf & Hv).
  destruct (unmarked_marker _ Hd) as [Hm He].
  split; [exact Hm|]. split; [|split].
  - unfold indexErrors, definitionIndexErrors. rewrite Hm, He. cbn.
    rewrite (flat_map_nil (fieldIndexErrors (dName d) (dKind d))).
    + rewrite (flat_map_nil (enumValueIndexErrors (dName d))).
      * by destruct (hasFields (dKind d)), (DefinitionKind_eqb (dKind d) Enum).
      * intros v Hin. unfold enumValueIndexErrors.
        destruct (unmarked_marker _ (Hv v Hin)) as [-> ->]. reflexivity.
    + intros f Hin. unfold fieldIndexErrors. destruct (Hf f Hin) as [Hfd Ha].
      destruct (unmarked_marker _ Hfd) as [-> ->]. cbn.
      apply flat_map_nil. intros a Hain. unfold argumentIndexErrors.
      destruct (unmarked_marker _ (Ha a Hain)) as [-> ->]. reflexivity.
  - unfold fieldInfosOf. destruct (hasFields (dKind d)); [|reflexivity].
    apply flat_map_nil. intros f Hin. unfold fieldInfoOf.
    destruct (Hf f Hin) as [Hfd _]. by destruct (unmarked_marker _ Hfd) as [-> _].
  - unfold enumValueInfosOf. destruct (DefinitionKind_eqb (dKind d) Enum); [|reflexivity].
    apply flat_map_nil. intros v Hin. unfold enumValueInfoOf.
    by destruct (unmarked_marker _ (Hv v Hin)) as [-> _].
Qed.

(** The Replacer has recorded no rename. *)
Lemma foldl_indexed_noMarkers σ l :
  (forall p, p ∈ l -> noMarkers (σ p)) ->
  forall r,
    fields (foldl (indexed σ) r l) = fields r
    /\ enumValues (foldl (indexed σ) r l) = enumValues r
    /\ cacheReplacedTypes (foldl (indexed σ) r l) = cacheReplacedTypes r
    /\ extraImplements (foldl (indexed σ) r l) = extraImplements r
    /\ extraUnionMembers (foldl (indexed σ) r l) = extraUnionMembers r.
Proof.
  induction l as [|p l IH]; intros H r; cbn [foldl]; [repeat split|].
  destruct (IH (fun q Hq => H q (list_elem_of_further _ _ _ Hq)) (indexed σ r p))
    as (-> & -> & -> & -> & ->).
  destruct (noMarkers_index _ (H p (list_elem_of_here _ _))) as (Hm & _ & Hf & Hv).
  unfold indexed. cbn. rewrite Hm, Hf, Hv. repeat split.
Qed.

Lemma foldl_backfilled_noRenames σ l :
  forall r,
    cacheReplacedTypes r = ∅ ->
    extraImplements (foldl (backfilled σ) r l) = extraImplements r
    /\ extraUnionMembers (foldl (backfilled σ) r l) = extraUnionMembers r.
Proof.
  induction l as [|p l IH]; intros r Hc; cbn [foldl]; [repeat split|].
  assert (Hold : forall names, oldNamesOf r names = []).
  { intros names. apply flat_map_nil. intros n _. by rewrite Hc, lookup_empty. }
  destruct (IH (backfilled σ r p)) as (-> & ->); [exact Hc|].
  unfold backfilled. cbn. rewrite !Hold.
  by destruct (DefinitionKind_eqb (dKind (σ p)) Object),
              (DefinitionKind_eqb (dKind (σ p)) Union).
Qed.

Lemma sortedKeys_empty {A} : sortedKeys (∅ : gmap string A) = [].
Proof. unfold sortedKeys. by rewrite map_to_list_empty. Qed.

(** X9: For a schema in which no definition, field, argument or enum value
    carries a replaces directive, GetReplacesDirectiveUpdates returns the
    empty text with a nil error and leaves the schema as it is, and
    ValidateReplacesDirectives returns nil. *)
Theorem no_markers_no_overlay :
  forall (F : _internalFormatter) (σ : Heap) (schema : Schema),
    (forall p, p ∈ Types schema -> noMarkers (σ p)) ->
    GetReplacesDirectiveUpdates σ schema = (("", None), σ)
    /\ ValidateReplacesDirectives σ schema = None.
Proof.
  intros F σ schema Hno.
  destruct (processSchema_fresh σ schema) as (Hp & Hd & He).
  assert (Herr : errors (processSchema σ NewReplacer schema) = []).
  { rewrite He. apply flat_map_nil. intros p Hin.
    by destruct (noMarkers_index _ (Hno p Hin)) as (_ & ? & _). }
  assert (Hdef : definitions (processSchema σ NewReplacer schema) = []).
  { rewrite Hd. apply flat_map_nil. intros p Hin. unfold definitionInfoOf.
    by destruct (noMarkers_index _ (Hno p Hin)) as (-> & _). }
  assert (Hmaps : fields (processSchema σ NewReplacer schema) = ∅
                  /\ enumValues (processSchema σ NewReplacer schema) = ∅
                  /\ extraImplements (processSchema σ NewReplacer schema) = ∅
                  /\ extraUnionMembers (processSchema σ NewReplacer schema) = ∅).
  { rewrite processSchema_spec. cbn [hasProcessedSchema NewReplacer].
    set (r1 := foldl (indexed σ) _ _).
    destruct (foldl_indexed_noMarkers σ (Types schema) Hno
                (set_hasProcessedSchema NewReplacer true))
      as (Hf & Hv & Hc & Hi & Hu). fold r1 in Hf, Hv, Hc, Hi, Hu.
    destruct (foldl_backfilled_frame σ (Types schema) r1)
      as (_ & _ & _ & _ & -> & -> & _).
    destruct (foldl_backfilled_noRenames σ (Types schema) r1 Hc) as (-> & ->).
    by rewrite Hf, Hv, Hi, Hu. }
  destruct Hmaps as (Hf & Hv & Hi & Hu).
  split.
  - unfold GetReplacesDirectiveUpdates.
    rewrite (getSchemaAdditions_spec σ _ Hp).
    unfold sortedDefinitions, fieldStageOf, fieldStageErrors, enumStage,
      implementsStage, unionStage.
    rewrite Hdef, Hf, Hv, Hi, Hu. repeat rewrite sortedKeys_empty.
    cbn [flat_map app fst snd errors appendErrors set_errors set_definitions].
    rewrite Herr. reflexivity.
  - unfold ValidateReplacesDirectives. by rewrite Herr.
Qed.

Lemma no_markers_no_overlay_witness :
  (forall p, p ∈ Types (schemaOf [PlainCourse]) -> noMarkers (heapOf [PlainCourse] p))
  /\ (GetReplacesDirectiveUpdates (heapOf [PlainCourse]) (schemaOf [PlainCourse])).1
     = ("", None).
Proof.
  assert (H : forall p, p ∈ Types (schemaOf [PlainCourse]) ->
                        noMarkers (heapOf [PlainCourse] p)).
  { intros p Hp. apply list_elem_of_singleton in Hp as ->.
    split; [|split].
    - intros d Hd. apply list_elem_of_singleton in Hd as ->. discriminate.
    - intros f Hf. apply list_elem_of_singleton in Hf as ->.
      split; intros x Hx; by apply elem_of_nil in Hx.
    - intros v Hv. by apply elem_of_nil in Hv. }
  split; [exact H|].
  by rewrite (proj1 (no_markers_no_overlay gqlFormatter _ _ H)).
Defined.

(** ** The two entry points together *)

(** X10: GetReplacesDirectiveUpdates and ValidateReplacesDirectives each
    range over schema.Types in an order of their own.
    GetReplacesDirectiveUpdates succeeds only on schemas that validation
    accepts; when validation fails with a list of errors,
    GetReplacesDirectiveUpdates returns no text and fails with an
    InvalidInput error whose list starts with the same errors up to their
    order (in the same order when both calls visit the types in the same
    order); when validation passes, GetReplacesDirectiveUpdates either
    succeeds or fails with exactly the errors raised while the field
    extensions are built. *)
Theorem validation_errors_come_first :
  forall (F : _internalFormatter) (σ : Heap) (validated updated : Schema),
    Types validated ≡ₚ Types updated ->
    let validation := ValidateReplacesDirectives σ validated in
    let updates := (GetReplacesDirectiveUpdates σ updated).1 in
    (updates.2 = None -> validation = None)
    /\ (forall E, validation = Some (WrapWithErrorList kind.InvalidInput E) ->
          exists E1 E',
            E1 ≡ₚ E
            /\ (Types validated = Types updated -> E1 = E)
            /\ updates = ("", Some (WrapWithErrorList kind.InvalidInput (E1 ++ E'))))
    /\ (validation = None ->
        updates.2 = None
        \/ updates
           = ("", Some (WrapWithErrorList kind.InvalidInput
                          (fieldStageErrors (processSchema σ NewReplacer updated))))).
Proof.
  intros F σ validated updated Hperm. cbn zeta.
  destruct (processSchema_fresh σ updated) as (Hp & _ & He).
  destruct (processSchema_fresh σ validated) as (_ & _ & Hv).
  unfold ValidateReplacesDirectives, GetReplacesDirectiveUpdates.
  rewrite (getSchemaAdditions_spec σ _ Hp).
  cbn [fst snd errors appendErrors set_errors set_definitions].
  set (r := processSchema σ NewReplacer updated) in *.
  rewrite Hv, He.
  assert (Hsame : flat_map (fun p => indexErrors (σ p)) (Types updated)
                  ≡ₚ flat_map (fun p => indexErrors (σ p)) (Types validated)).
  { rewrite !flat_map_concat_map. by rewrite Hperm. }
  set (E2 := flat_map _ (Types updated)) in *.
  set (E1 := flat_map _ (Types validated)) in *.
  destruct E2 as [|e es] eqn:HE2; cbn [app length Nat.ltb Nat.leb].
  - apply Permutation_nil in Hsame. rewrite Hsame.
    cbn [length Nat.ltb Nat.leb].
    split; [done|]. split; [discriminate|]. intros _.
    destruct (fieldStageErrors r) as [|e' es']; cbn; [by left | by right].
  - split; [discriminate|].
    destruct E1 as [|e1 es1] eqn:HE1;
      [by apply Permutation_sym, Permutation_nil in Hsame|].
    cbn [length Nat.ltb Nat.leb]. split; [|discriminate].
    intros E [= <-]. exists (e :: es), (fieldStageErrors r).
    split; [exact Hsame|]. split; [|reflexivity].
    intros Heq. subst E1 E2. rewrite Heq in HE1. congruence.
Qed.

Lemma validation_errors_come_first_witness :
  let σ := heapOf [ClassroomWithType; ContentKindWithType] in
  let validated := {| Types := [0; 1] |} in
  let updated := {| Types := [1; 0] |} in
  Types validated ≡ₚ Types updated
  /\ exists E E1 E',
       ValidateReplacesDirectives σ validated
       = Some (WrapWithErrorList kind.InvalidInput E)
       /\ E1 ≡ₚ E
       /\ (GetReplacesDirectiveUpdates σ updated).1
          = ("", Some (WrapWithErrorList kind.InvalidInput (E1 ++ E'))).
Proof.
  cbn zeta.
  assert (Hperm : Types {| Types := [0; 1] |} ≡ₚ Types {| Types := [1; 0] |})
    by apply perm_swap.
  split; [exact Hperm|].
  pose proof (validation_errors_come_first gqlFormatter
                (heapOf [ClassroomWithType; ContentKindWithType])
                {| Types := [0; 1] |} {| Types := [1; 0] |} Hperm) as (_ & Hfails & _).
  assert (Hvalidation :
            ValidateReplacesDirectives
              (heapOf [ClassroomWithType; ContentKindWithType]) {| Types := [0; 1] |}
            = Some (WrapWithErrorList kind.InvalidInput
                      (flat_map (fun p => indexErrors
                                   (heapOf [ClassroomWithType; ContentKindWithType] p))
                         [0; 1])))
    by (vm_compute; reflexivity).
  destruct (Hfails _ Hvalidation) as (E1 & E' & HE1 & _ & Hupdates).
  eexists _, E1, E'. split; [exact Hvalidation|]. by split.
Defined.

Lemma indexErrors_kinds d e :
  e ∈ indexErrors d -> kindOf e = kind.InvalidInput \/ kindOf e = kind.Internal.
Proof.
  assert (Hmarker : forall ds x, x ∈ markerErrors ds -> kindOf x = kind.Internal).
  { intros ds x. unfold markerErrors, GetReplaceInfo.
    destruct (DirectiveList_ForName ds "replaces") as [dir|]; [|by intros ?%elem_of_nil].
    destruct (ArgumentList_ForName (dirArguments dir) "name").
    - destruct (ArgumentList_ForName (dirArguments dir) "treatZeroAsUnset");
        by intros ?%elem_of_nil.
    - cbn. by intros ->%list_elem_of_singleton. }
  unfold indexErrors, definitionIndexErrors. rewrite !elem_of_app.
  intros [[H|H]|[H|H]].
  - right. by apply Hmarker in H.
  - destruct (marker (dDirectives d)); [|by apply elem_of_nil in H].
    destruct (negb _); [|by apply elem_of_nil in H].
    apply list_elem_of_singleton in H as ->. by left.
  - destruct (hasFields (dKind d)); [|by apply elem_of_nil in H].
    apply list_elem_of_In, in_flat_map in H as (f & _ & H). apply list_elem_of_In in H.
    unfold fieldIndexErrors in H. apply elem_of_app in H as [H|H].
    + right. by apply Hmarker in H.
    + destruct (marker (fDirectives f)).
      * destruct (DefinitionKind_eqb (dKind d) InputObject); [|by apply elem_of_nil in H].
        apply elem_of_app in H as [H|H].
        -- destruct (NonNull (fType f)); [|by apply elem_of_nil in H].
           apply list_elem_of_singleton in H as ->. by left.
        -- destruct (_ && _); [|by apply elem_of_nil in H].
           apply list_elem_of_singleton in H as ->. by left.
      * apply list_elem_of_In, in_flat_map in H as (a & _ & H). apply list_elem_of_In in H.
        unfold argumentIndexErrors in H. apply elem_of_app in H as [H|H].
        -- right. by apply Hmarker in H.
        -- destruct (marker (aDirectives a)); [|by apply elem_of_nil in H].
           apply list_elem_of_singleton in H as ->. by right.
  - destruct (DefinitionKind_eqb (dKind d) Enum); [|by apply elem_of_nil in H].
    apply list_elem_of_In, in_flat_map in H as (v & _ & H). apply list_elem_of_In in H.
    unfold enumValueIndexErrors in H. apply elem_of_app in H as [H|H].
    + right. by apply Hmarker in H.
    + destruct (marker (eDirectives v)); [|by apply elem_of_nil in H].
      destruct (negb _); [|by apply elem_of_nil in H].
      apply list_elem_of_singleton in H as ->. by left.
Qed.

Lemma flat_map_eq_nil {A B} (f : A -> list B) (l : list A) :
  flat_map f l = [] -> forall x, x ∈ l -> f x = [].
Proof.
  induction l as [|a l IH]; intros H x Hin; [by apply elem_of_nil in Hin|].
  cbn in H. apply app_eq_nil in H as [Ha Hl].
  apply elem_of_cons in Hin as [->|Hin]; [exact Ha | by apply IH].
Qed.

(** X11: ValidateReplacesDirectives returns nil exactly when no definition
    of the schema has an indexing violation; otherwise it returns one
    InvalidInput error carrying the violations of all definitions, in the
    order in which schema.Types is ranged over, and every carried error is
    of kind InvalidInput or Internal. *)
Theorem validation_reports_every_violation :
  forall (σ : Heap) (schema : Schema),
    let violations := flat_map (fun p => indexErrors (σ p)) (Types schema) in
    ValidateReplacesDirectives σ schema
    = match violations with
      | [] => None
      | _ :: _ => Some (WrapWithErrorList kind.InvalidInput violations)
      end
    /\ (ValidateReplacesDirectives σ schema = None
        <-> forall p, p ∈ Types schema -> indexErrors (σ p) = [])
    /\ (forall e, e ∈ violations ->
          kindOf e = kind.InvalidInput \/ kindOf e = kind.Internal).
Proof.
  intros σ schema. cbn zeta.
  destruct (processSchema_fresh σ schema) as (_ & _ & He).
  unfold ValidateReplacesDirectives. rewrite He.
  set (violations := flat_map _ _).
  assert (Hnil : violations = [] <-> forall p, p ∈ Types schema -> indexErrors (σ p) = []).
  { subst violations. split; [apply flat_map_eq_nil | apply flat_map_nil]. }
  split; [|split].
  - clearbody violations. by destruct violations.
  - rewrite <- Hnil. clearbody violations.
    destruct violations; split; intros H; try discriminate H; reflexivity.
  - intros e Hin. subst violations.
    apply list_elem_of_In, in_flat_map in Hin as (p & _ & Hin).
    apply list_elem_of_In in Hin. by apply indexErrors_kinds in Hin.
Qed.

(** ** What the index holds *)

Lemma entriesOf_foldl_backfilled σ l r name :
  entriesOf (foldl (backfilled σ) r l) name = entriesOf r name.
Proof.
  destruct (foldl_backfilled_frame σ l r) as (_ & _ & _ & Hc & Hf & _ & Hk & Hg).
  unfold entriesOf. by rewrite Hc, Hf, Hk, Hg.
Qed.

(** X12: After processSchema on a fresh Replacer over a schema whose
    definitions have distinct names, every definition is indexed under its
    name: its kind in definitionKinds, its federation keys in
    federationKeys, its old name in cacheReplacedTypes exactly when it
    carries a readable marker, and its renamed fields in fields; a name that
    no definition of the schema has is in none of these maps. *)
Theorem index_covers_the_schema :
  forall (σ : Heap) (schema : Schema),
    NoDup (map (fun p => dName (σ p)) (Types schema)) ->
    let r := processSchema σ NewReplacer schema in
    (forall p, p ∈ Types schema ->
       let d := σ p in
       definitionKinds r !! dName d = Some (dKind d)
       /\ federationKeys r !! dName d = Some (_getFederationKeys d)
       /\ cacheReplacedTypes r !! dName d = OldName <$> marker (dDirectives d)
       /\ default [] (fields r !! dName d) = fieldInfosOf d)
    /\ (forall name, name ∉ map (fun p => dName (σ p)) (Types schema) ->
          definitionKinds r !! name = None /\ federationKeys r !! name = None
          /\ cacheReplacedTypes r !! name = None /\ fields r !! name = None).
Proof.
  intros σ schema Hnd r. split.
  - intros p Hin d.
    pose proof (entriesOf_processSchema σ schema p Hnd Hin) as Hent.
    fold r d in Hent. unfold entriesOf in Hent.
    injection Hent as Hf Hc Hk Hg. rewrite Hc, Hk, Hg, Hf.
    repeat split. unfold d. by destruct (fieldInfosOf (σ p)).
  - intros name Hname. subst r. rewrite processSchema_spec.
    cbn [hasProcessedSchema NewReplacer].
    pose proof (entriesOf_foldl_backfilled σ (Types schema)
                  (foldl (indexed σ) (set_hasProcessedSchema NewReplacer true)
                     (Types schema)) name) as Hent.
    rewrite entriesOf_foldl_indexed_other in Hent by exact Hname.
    unfold entriesOf in Hent. cbn in Hent. injection Hent as Hf Hc Hk Hg.
    by rewrite Hf, Hc, Hk, Hg.
Qed.

Lemma index_covers_the_schema_witness :
  let σ := heapOf [Classroom; ContentKind] in
  let schema := schemaOf [Classroom; ContentKind] in
  NoDup (map (fun p => dName (σ p)) (Types schema))
  /\ definitionKinds (processSchema σ NewReplacer schema) !! "ContentKind" = Some Enum
  /\ definitionKinds (processSchema σ NewReplacer schema) !! "StudentList" = None.
Proof.
  intros σ schema.
  assert (Hnd : NoDup (map (fun p => dName (σ p)) (Types schema))) by by_evaluation.
  split; [exact Hnd|]. split.
  - apply (proj1 (index_covers_the_schema σ schema Hnd) 1%nat). vm_compute. do 2 constructor.
  - apply (proj2 (index_covers_the_schema σ schema Hnd) "StudentList").
    vm_compute. intros H. repeat (apply elem_of_cons in H as [H|H]; [discriminate|]).
    by apply elem_of_nil in H.
Defined.

(** ** Pass 2 reads the finished rename table *)

Lemma oldNamesOf_cache r1 r2 names :
  cacheReplacedTypes r1 = cacheReplacedTypes r2 -> oldNamesOf r1 names = oldNamesOf r2 names.
Proof. intros H. unfold oldNamesOf. by rewrite H. Qed.

Lemma foldl_indexed_extras σ l :
  forall r,
    extraImplements (foldl (indexed σ) r l) = extraImplements r
    /\ extraUnionMembers (foldl (indexed σ) r l) = extraUnionMembers r.
Proof.
  induction l as [|p l IH]; intros r; cbn [foldl]; [done|].
  by destruct (IH (indexed σ r p)) as (-> & ->).
Qed.

Lemma extrasOf_backfilled σ r p name :
  extrasOf (backfilled σ r p) name
  = if decide (dName (σ p) = name) then backfilledExtras r (σ p) (extrasOf r name)
    else extrasOf r name.
Proof.
  unfold extrasOf, backfilled, backfilledExtras.
  cbn [extraImplements extraUnionMembers fst snd].
  destruct (DefinitionKind_eqb (dKind (σ p)) Object),
           (DefinitionKind_eqb (dKind (σ p)) Union);
    rewrite ?lookup_mapAppendList;
    destruct (decide (dName (σ p) = name)) as [Heq|]; try rewrite Heq; reflexivity.
Qed.

Lemma backfilledExtras_cache r1 r2 d e :
  cacheReplacedTypes r1 = cacheReplacedTypes r2 ->
  backfilledExtras r1 d e = backfilledExtras r2 d e.
Proof.
  intros H. unfold backfilledExtras.
  by rewrite (oldNamesOf_cache r1 r2 _ H), (oldNamesOf_cache r1 r2 _ H).
Qed.

Lemma backfilled_cache σ r p : cacheReplacedTypes (backfilled σ r p) = cacheReplacedTypes r.
Proof. reflexivity. Qed.

Lemma extrasOf_foldl_backfilled_other σ name l :
  forall r,
    name ∉ map (fun p => dName (σ p)) l ->
    extrasOf (foldl (backfilled σ) r l) name = extrasOf r name.
Proof.
  induction l as [|q l IH]; intros r Hnotin; cbn [foldl]; [reflexivity|].
  cbn in Hnotin. apply not_elem_of_cons in Hnotin as [Hq Hl].
  rewrite IH by exact Hl. rewrite extrasOf_backfilled.
  destruct (decide (dName (σ q) = name)); [congruence | reflexivity].
Qed.

Lemma extrasOf_foldl_backfilled σ p l :
  forall r,
    NoDup (map (fun p => dName (σ p)) l) -> p ∈ l ->
    extrasOf (foldl (backfilled σ) r l) (dName (σ p))
    = backfilledExtras r (σ p) (extrasOf r (dName (σ p))).
Proof.
  induction l as [|q l IH]; intros r Hnd Hin; [by apply elem_of_nil in Hin|].
  cbn in Hnd. apply NoDup_cons in Hnd as [Hq Hnd]. cbn [foldl].
  apply elem_of_cons in Hin as [->|Hin].
  - rewrite extrasOf_foldl_backfilled_other by exact Hq.
    rewrite extrasOf_backfilled. by destruct (decide (dName (σ q) = dName (σ q))).
  - rewrite IH by assumption. rewrite extrasOf_backfilled.
    rewrite (backfilledExtras_cache _ r) by apply backfilled_cache.
    destruct (decide (dName (σ q) = dName (σ p))) as [Heq|]; [|reflexivity].
    exfalso. apply Hq. rewrite Heq.
    apply list_elem_of_In. apply (in_map (fun p => dName (σ p)) l p).
    by apply list_elem_of_In.
Qed.

Lemma extrasOf_processSchema σ schema p :
  NoDup (map (fun p => dName (σ p)) (Types schema)) -> p ∈ Types schema ->
  let r := processSchema σ NewReplacer schema in
  extrasOf r (dName (σ p)) = backfilledExtras r (σ p) (None, None).
Proof.
  intros Hnd Hin r. subst r. rewrite processSchema_spec.
  cbn [hasProcessedSchema NewReplacer].
  set (r1 := foldl (indexed σ) _ _).
  rewrite extrasOf_foldl_backfilled by assumption.
  destruct (foldl_backfilled_frame σ (Types schema) r1) as (_ & _ & _ & Hc & _).
  rewrite (backfilledExtras_cache (foldl (backfilled σ) r1 (Types schema)) r1)
    by exact Hc.
  f_equal. unfold extrasOf. subst r1.
  destruct (foldl_indexed_extras σ (Types schema) (set_hasProcessedSchema NewReplacer true))
    as (-> & ->).
  reflexivity.
Qed.

Lemma cache_processSchema σ schema name :
  NoDup (map (fun p => dName (σ p)) (Types schema)) ->
  forall old,
    cacheReplacedTypes (processSchema σ NewReplacer schema) !! name = Some old
    <-> exists q info, q ∈ Types schema /\ dName (σ q) = name
                       /\ marker (dDirectives (σ q)) = Some info
                       /\ OldName info = old.
Proof.
  intros Hnd old.
  destruct (decide (name ∈ map (fun p => dName (σ p)) (Types schema))) as [Hin|Hout].
  - apply list_elem_of_In, in_map_iff in Hin as (p & <- & Hp). apply list_elem_of_In in Hp.
    pose proof (entriesOf_processSchema σ schema p Hnd Hp) as Hent.
    unfold entriesOf in Hent. injection Hent as _ Hc _ _. rewrite Hc. split.
    + destruct (marker (dDirectives (σ p))) as [info|] eqn:Hm; [|discriminate].
      intros [= <-]. by exists p, info.
    + intros (q & info & Hq & Hname & Hm & <-).
      assert (q = p) as ->.
      { by apply (NoDup_map_inj_on (fun p => dName (σ p)) (Types schema)). }
      by rewrite Hm.
  - split.
    + rewrite processSchema_spec. cbn [hasProcessedSchema NewReplacer].
      pose proof (entriesOf_foldl_backfilled σ (Types schema)
                    (foldl (indexed σ) (set_hasProcessedSchema NewReplacer true)
                       (Types schema)) name) as Hent.
      rewrite entriesOf_foldl_indexed_other in Hent by exact Hout.
      unfold entriesOf in Hent. cbn in Hent. injection Hent as _ Hc _ _.
      rewrite Hc. discriminate.
    + intros (q & info & Hq & Hname & _). exfalso. apply Hout. rewrite <- Hname.
      apply list_elem_of_In. apply (in_map (fun p => dName (σ p))). by apply list_elem_of_In.
Qed.

(** X13: Pass 2 of processSchema (over definitions with distinct names)
    records for each object the old names of the renamed interfaces it
    implements and for each union the old names of its renamed members, with
    no entry when there are none and none for other kinds; the old names
    come from the rename table that pass 1 has completed, so a rename is
    seen wherever the renamed definition stands in the order of
    schema.Types. *)
Theorem backfill_reads_the_finished_table :
  forall (σ : Heap) (schema : Schema),
    NoDup (map (fun p => dName (σ p)) (Types schema)) ->
    let r := processSchema σ NewReplacer schema in
    (forall p, p ∈ Types schema ->
       let d := σ p in
       extraImplements r !! dName d
       = (if DefinitionKind_eqb (dKind d) Object
          then appendedAt None (oldNamesOf r (dInterfaces d)) else None)
       /\ extraUnionMembers r !! dName d
          = (if DefinitionKind_eqb (dKind d) Union
             then appendedAt None (oldNamesOf r (dTypes d)) else None))
    /\ (forall names old,
          old ∈ oldNamesOf r names
          <-> exists q info, q ∈ Types schema /\ dName (σ q) ∈ names
                             /\ marker (dDirectives (σ q)) = Some info
                             /\ OldName info = old).
Proof.
  intros σ schema Hnd r. split.
  - intros p Hin d.
    pose proof (extrasOf_processSchema σ schema p Hnd Hin) as He. cbn zeta in He.
    fold r d in He. unfold extrasOf, backfilledExtras in He. cbn [fst snd] in He.
    by injection He as -> ->.
  - intros names old. unfold oldNamesOf.
    rewrite list_elem_of_In, in_flat_map. split.
    + intros (n & Hn & Hold).
      destruct (cacheReplacedTypes r !! n) as [o|] eqn:Hc; [|by destruct Hold].
      destruct Hold as [<-|[]].
      apply (cache_processSchema σ schema n Hnd) in Hc as (q & info & Hq & <- & Hm & Ho).
      exists q, info. by rewrite <- list_elem_of_In in Hn.
    + intros (q & info & Hq & Hn & Hm & Ho). exists (dName (σ q)).
      split; [by apply list_elem_of_In|].
      assert (Hc : cacheReplacedTypes r !! dName (σ q) = Some old).
      { apply (cache_processSchema σ schema _ Hnd). by exists q, info. }
      rewrite Hc. by left.
Qed.

(** The object is visited before the interface it implements. *)
Lemma backfill_reads_the_finished_table_witness :
  let σ := heapOf [Domain; CurationNode] in
  let schema := schemaOf [Domain; CurationNode] in
  NoDup (map (fun p => dName (σ p)) (Types schema))
  /\ extraImplements (processSchema σ NewReplacer schema) !! "Domain" = Some ["Topic"].
Proof.
  intros σ schema.
  assert (Hnd : NoDup (map (fun p => dName (σ p)) (Types schema))) by by_evaluation.
  split; [exact Hnd|].
  assert (Hin : 0%nat ∈ Types schema) by (vm_compute; constructor).
  change "Domain" with (dName (σ 0%nat)).
  rewrite (proj1 (proj1 (backfill_reads_the_finished_table σ schema Hnd) 0%nat Hin)).
  vm_compute. reflexivity.
Defined.

(** ** Stages 3 to 5 *)

Lemma enumValues_indexed σ r p name :
  enumValues (indexed σ r p) !! name
  = if decide (dName (σ p) = name)
    then appendedAt (enumValues r !! name) (enumValueInfosOf (σ p))
    else enumValues r !! name.
Proof.
  unfold indexed. cbn [enumValues]. rewrite lookup_mapAppendList.
  destruct (decide (dName (σ p) = name)) as [Heq|]; [by rewrite Heq | reflexivity].
Qed.

Lemma enumValues_foldl_indexed_other σ name l :
  forall r,
    name ∉ map (fun p => dName (σ p)) l ->
    enumValues (foldl (indexed σ) r l) !! name = enumValues r !! name.
Proof.
  induction l as [|q l IH]; intros r Hnotin; cbn [foldl]; [reflexivity|].
  cbn in Hnotin. apply not_elem_of_cons in Hnotin as [Hq Hl].
  rewrite IH by exact Hl. rewrite enumValues_indexed.
  destruct (decide (dName (σ q) = name)); [congruence | reflexivity].
Qed.

Lemma enumValues_foldl_indexed σ p l :
  forall r,
    NoDup (map (fun p => dName (σ p)) l) -> p ∈ l ->
    enumValues (foldl (indexed σ) r l) !! dName (σ p)
    = appendedAt (enumValues r !! dName (σ p)) (enumValueInfosOf (σ p)).
Proof.
  induction l as [|q l IH]; intros r Hnd Hin; [by apply elem_of_nil in Hin|].
  cbn in Hnd. apply NoDup_cons in Hnd as [Hq Hnd]. cbn [foldl].
  apply elem_of_cons in Hin as [->|Hin].
  - rewrite enumValues_foldl_indexed_other by exact Hq.
    rewrite enumValues_indexed. by destruct (decide (dName (σ q) = dName (σ q))).
  - rewrite IH by assumption. rewrite enumValues_indexed.
    destruct (decide (dName (σ q) = dName (σ p))) as [Heq|]; [|reflexivity].
    exfalso. apply Hq. rewrite Heq.
    apply list_elem_of_In. apply (in_map (fun p => dName (σ p)) l p).
    by apply list_elem_of_In.
Qed.

Lemma enumValues_processSchema σ schema p :
  NoDup (map (fun p => dName (σ p)) (Types schema)) -> p ∈ Types schema ->
  enumValues (processSchema σ NewReplacer schema) !! dName (σ p)
  = appendedAt None (enumValueInfosOf (σ p)).
Proof.
  intros Hnd Hin. rewrite processSchema_spec. cbn [hasProcessedSchema NewReplacer].
  destruct (foldl_backfilled_frame σ (Types schema)
              (foldl (indexed σ) (set_hasProcessedSchema NewReplacer true) (Types schema)))
    as (_ & _ & _ & _ & _ & -> & _).
  by rewrite enumValues_foldl_indexed.
Qed.

Lemma allNames_processSchema σ schema p :
  NoDup (map (fun p => dName (σ p)) (Types schema)) -> p ∈ Types schema ->
  allNames (processSchema σ NewReplacer schema) (dName (σ p))
  = dName (σ p) :: match marker (dDirectives (σ p)) with
                   | Some info => [OldName info]
                   | None => []
                   end.
Proof.
  intros Hnd Hin.
  pose proof (entriesOf_processSchema σ schema p Hnd Hin) as Hent.
  unfold entriesOf in Hent. injection Hent as _ Hc _ _.
  unfold allNames. rewrite Hc. by destruct (marker (dDirectives (σ p))).
Qed.

Lemma enumValueInfosOf_values d info :
  info ∈ enumValueInfosOf d ->
  ei_enumValue info ∈ dEnumValues d /\ ei_newName info = eName (ei_enumValue info)
  /\ OldName <$> marker (eDirectives (ei_enumValue info)) = Some (ei_oldName info).
Proof.
  unfold enumValueInfosOf. destruct (DefinitionKind_eqb (dKind d) Enum);
    [|by intros ?%elem_of_nil].
  intros Hin. apply list_elem_of_In, in_flat_map in Hin as (v & Hv & Hin).
  unfold enumValueInfoOf in Hin. destruct (marker (eDirectives v)) as [ri|] eqn:Hm;
    [|by destruct Hin].
  destruct Hin as [<-|[]]. cbn. rewrite Hm. by apply list_elem_of_In in Hv.
Qed.

(** X14: For an enum of the schema with renamed values, synthesis emits an
    enum extension under the enum's name that holds the old values and, when
    the enum itself is renamed, a second one with the same values under its
    old name, and nothing else for it. Each old value has the old name and
    the description of the new value, and the new value's directives without
    replaces followed by deprecated(reason: 'Replaced by <new name>.'). *)
Theorem enum_extension_under_both_names :
  forall (σ : Heap) (schema : Schema) (p : ptr),
    NoDup (map (fun p => dName (σ p)) (Types schema)) ->
    p ∈ Types schema ->
    enumValueInfosOf (σ p) <> [] ->
    let d := σ p in
    let r := processSchema σ NewReplacer schema in
    let extension name :=
      ({| dKind := Enum; dDescription := ""; dName := name; dDirectives := [];
          dInterfaces := []; dFields := []; dTypes := [];
          dEnumValues := map oldEnumValueOf (enumValueInfosOf d);
          dPosition := None; dBuiltIn := false |}, true) in
    enumExtensions r (dName d)
    = extension (dName d)
        :: match marker (dDirectives d) with
           | Some replaceInfo => [extension (OldName replaceInfo)]
           | None => []
           end
    /\ (forall e, e ∈ enumExtensions r (dName d) -> e ∈ (schemaAdditions σ r).1.1)
    /\ (forall info, info ∈ enumValueInfosOf d ->
          let old := oldEnumValueOf info in
          ei_enumValue info ∈ dEnumValues d
          /\ OldName <$> marker (eDirectives (ei_enumValue info)) = Some (eName old)
          /\ eDescription old = eDescription (ei_enumValue info)
          /\ eDirectives old
             = _removeReplacesDirective (eDirectives (ei_enumValue info))
               ++ [{| dirName := "deprecated";
                      dirArguments :=
                        [stringArgument "reason"
                           ("Replaced by " +:+ eName (ei_enumValue info) +:+ ".")] |}]).
Proof.
  intros σ schema p Hnd Hin Hne d r extension.
  assert (Hvalues : enumValues r !! dName d = Some (enumValueInfosOf d)).
  { unfold r, d. rewrite enumValues_processSchema by assumption.
    by destruct (enumValueInfosOf (σ p)). }
  split; [|split].
  - unfold enumExtensions. rewrite Hvalues.
    unfold r, d. rewrite allNames_processSchema by assumption. cbn [default map].
    fold d. by destruct (marker (dDirectives d)).
  - intros e He. rewrite schemaAdditions_spec. cbn [fst].
    apply elem_of_app. right. apply elem_of_app. right. apply elem_of_app. left.
    unfold enumStage. apply list_elem_of_In, in_flat_map. exists (dName d).
    split; apply list_elem_of_In; [|exact He].
    apply elem_of_sortedKeys. by rewrite Hvalues.
  - intros info Hinfo old.
    destruct (enumValueInfosOf_values d info Hinfo) as (Hv & Hn & Hm).
    split; [exact Hv|]. split; [exact Hm|]. split; [reflexivity|].
    unfold old, oldEnumValueOf, _addDeprecatedDirective. cbn. by rewrite Hn.
Qed.

Lemma enum_extension_under_both_names_witness :
  let σ := heapOf [ContentKind] in
  let schema := schemaOf [ContentKind] in
  NoDup (map (fun p => dName (σ p)) (Types schema))
  /\ 0%nat ∈ Types schema
  /\ enumValueInfosOf (σ 0%nat) <> []
  /\ map (fun e : Emitted => (dName e.1, map eName (dEnumValues e.1)))
       (enumExtensions (processSchema σ NewReplacer schema) "ContentKind")
     = [("ContentKind", ["TOPIC"]); ("OldContentKind", ["TOPIC"])].
Proof.
  intros σ schema.
  assert (H1 : NoDup (map (fun p => dName (σ p)) (Types schema))) by by_evaluation.
  assert (H2 : 0%nat ∈ Types schema) by (vm_compute; constructor).
  assert (H3 : enumValueInfosOf (σ 0%nat) <> []) by (vm_compute; discriminate).
  split; [exact H1|]. split; [exact H2|]. split; [exact H3|].
  change "ContentKind" with (dName (σ 0%nat)) at 1.
  rewrite (proj1 (enum_extension_under_both_names σ schema 0%nat H1 H2 H3)).
  reflexivity.
Defined.

(** X15: For an object of the schema that implements renamed interfaces,
    synthesis emits an extension implementing the interfaces' old names
    under the object's name and, when the object is itself renamed, also
    under its old name; likewise a union with renamed members gets
    extensions listing the members' old names under its name and its old
    name. These extensions carry nothing else (no fields, directives or
    description). *)
Theorem backfill_extensions_under_both_names :
  forall (σ : Heap) (schema : Schema) (p : ptr),
    NoDup (map (fun p => dName (σ p)) (Types schema)) ->
    p ∈ Types schema ->
    let d := σ p in
    let r := processSchema σ NewReplacer schema in
    let names := dName d :: match marker (dDirectives d) with
                            | Some replaceInfo => [OldName replaceInfo]
                            | None => []
                            end in
    (dKind d = Object -> oldNamesOf r (dInterfaces d) <> [] ->
     implementsExtensions r (dName d)
     = map (fun name =>
              ({| dKind := Object; dDescription := ""; dName := name;
                  dDirectives := []; dInterfaces := oldNamesOf r (dInterfaces d);
                  dFields := []; dTypes := []; dEnumValues := [];
                  dPosition := None; dBuiltIn := false |}, true))
           names
     /\ forall e, e ∈ implementsExtensions r (dName d) -> e ∈ (schemaAdditions σ r).1.1)
    /\ (dKind d = Union -> oldNamesOf r (dTypes d) <> [] ->
        unionExtensions r (dName d)
        = map (fun name =>
                 ({| dKind := Union; dDescription := ""; dName := name;
                     dDirectives := []; dInterfaces := []; dFields := [];
                     dTypes := oldNamesOf r (dTypes d); dEnumValues := [];
                     dPosition := None; dBuiltIn := false |}, true))
              names
        /\ forall e, e ∈ unionExtensions r (dName d) -> e ∈ (schemaAdditions σ r).1.1).
Proof.
  intros σ schema p Hnd Hin d r names.
  pose proof (extrasOf_processSchema σ schema p Hnd Hin) as He. cbn zeta in He.
  fold r d in He. unfold extrasOf, backfilledExtras in He. cbn [fst snd] in He.
  injection He as Hi Hu.
  pose proof (allNames_processSchema σ schema p Hnd Hin) as Hall. fold r d names in Hall.
  split.
  - intros Hk Hne. rewrite Hk in Hi. cbn [DefinitionKind_eqb] in Hi.
    assert (Hi' : extraImplements r !! dName d = Some (oldNamesOf r (dInterfaces d))).
    { rewrite Hi. by destruct (oldNamesOf r (dInterfaces d)). }
    split.
    + unfold implementsExtensions. by rewrite Hi', Hall.
    + intros e Hemit. rewrite schemaAdditions_spec. cbn [fst].
      apply elem_of_app. right. apply elem_of_app. right. apply elem_of_app. right.
      apply elem_of_app. left.
      unfold implementsStage. apply list_elem_of_In, in_flat_map. exists (dName d).
      split; apply list_elem_of_In; [|exact Hemit].
      apply elem_of_sortedKeys. by rewrite Hi'.
  - intros Hk Hne. rewrite Hk in Hu. cbn [DefinitionKind_eqb] in Hu.
    assert (Hu' : extraUnionMembers r !! dName d = Some (oldNamesOf r (dTypes d))).
    { rewrite Hu. by destruct (oldNamesOf r (dTypes d)). }
    split.
    + unfold unionExtensions. by rewrite Hu', Hall.
    + intros e Hemit. rewrite schemaAdditions_spec. cbn [fst].
      apply elem_of_app. right. apply elem_of_app. right. apply elem_of_app. right.
      apply elem_of_app. right.
      unfold unionStage. apply list_elem_of_In, in_flat_map. exists (dName d).
      split; apply list_elem_of_In; [|exact Hemit].
      apply elem_of_sortedKeys. by rewrite Hu'.
Qed.

Lemma backfill_extensions_under_both_names_witness :
  let σ := heapOf [Domain; CurationNode] in
  let schema := schemaOf [Domain; CurationNode] in
  NoDup (map (fun p => dName (σ p)) (Types schema))
  /\ 0%nat ∈ Types schema
  /\ map (fun e : Emitted => (dName e.1, dInterfaces e.1))
       (implementsExtensions (processSchema σ NewReplacer schema) "Domain")
     = [("Domain", ["Topic"]); ("OldDomain", ["Topic"])].
Proof.
  intros σ schema.
  assert (Hnd : NoDup (map (fun p => dName (σ p)) (Types schema))) by by_evaluation.
  assert (Hin : 0%nat ∈ Types schema) by (vm_compute; constructor).
  split; [exact Hnd|]. split; [exact Hin|].
  change "Domain" with (dName (σ 0%nat)) at 1.
  rewrite (proj1 (proj1 (backfill_extensions_under_both_names σ schema 0%nat Hnd Hin)
                    eq_refl ltac:(vm_compute; discriminate))).
  vm_compute. reflexivity.
Defined.

(** ** The old fields of stage 2 *)

Lemma oldArgumentOf_spec r argument :
  oldArgumentOf r argument
  = (oldArgument argument, appendErrors r (markerErrors (aDirectives argument))).
Proof.
  unfold oldArgument, oldArgumentOf. rewrite !getReplaceInfo_spec.
  by destruct (marker (aDirectives argument)).
Qed.

Lemma oldArgumentsOf_from_spec arguments :
  forall out r,
    foldl (fun '(out, r) argument =>
             let '(a, r) := oldArgumentOf r argument in (out ++ [a], r))
          (out, r) arguments
    = (out ++ map oldArgument arguments,
       appendErrors r (flat_map (fun a => markerErrors (aDirectives a)) arguments)).
Proof.
  induction arguments as [|a l IH]; intros out r; cbn [foldl map flat_map].
  - by rewrite app_nil_r, appendErrors_nil.
  - rewrite oldArgumentOf_spec, IH, appendErrors_app, <- app_assoc. reflexivity.
Qed.

Lemma oldArgumentsOf_spec r arguments :
  oldArgumentsOf r arguments
  = (map oldArgument arguments,
     appendErrors r (flat_map (fun a => markerErrors (aDirectives a)) arguments)).
Proof. unfold oldArgumentsOf. by rewrite oldArgumentsOf_from_spec. Qed.

Lemma oldFieldOf_closed ownerKind r fieldInfo :
  let field := fi_field fieldInfo in
  let sentence := "Replaced by " +:+ fName field +:+ "." in
  oldFieldOf ownerKind r fieldInfo
  = ({| fDescription :=
          if DefinitionKind_eqb ownerKind InputObject then
            if String.eqb (fDescription field) "" then "Deprecated: " +:+ sentence
            else fDescription field +:+ newline +:+ "Deprecated: " +:+ sentence
          else fDescription field;
        fName := fi_oldName fieldInfo;
        fArguments := map oldArgument (fArguments field);
        fDefaultValue := fDefaultValue field;
        fType := if negb (String.eqb (fi_oldTypeName fieldInfo) "")
                 then _updateType (fType field) (fi_oldTypeName fieldInfo)
                 else fType field;
        fDirectives :=
          _removeReplacesDirective (fDirectives field)
          ++ (if DefinitionKind_eqb ownerKind InputObject then []
              else [deprecatedDirective sentence])
          ++ [goFieldDirective (fi_oldName fieldInfo)] |},
     appendErrors r
       (flat_map (fun a => markerErrors (aDirectives a)) (fArguments field))).
Proof.
  cbn zeta. unfold oldFieldOf. rewrite oldArgumentsOf_spec.
  destruct (DefinitionKind_eqb ownerKind InputObject); cbn [negb].
  - by destruct (String.eqb (fDescription (fi_field fieldInfo)) "").
  - unfold _addDeprecatedDirective, deprecatedDirective. by rewrite <- app_assoc.
Qed.

Lemma oldArgument_closed argument :
  oldArgument argument
  = match GetReplaceInfo (aDirectives argument) with
    | inl replaceInfo =>
        {| aDescription := aDescription argument;
           aName := OldName replaceInfo;
           aDefaultValue := aDefaultValue argument;
           aType := if negb (String.eqb (OldTypeName replaceInfo) "")
                    then _updateType (aType argument) (OldTypeName replaceInfo)
                    else aType argument;
           aDirectives := _removeReplacesDirective (aDirectives argument) |}
    | inr _ => argument
    end.
Proof.
  unfold oldArgument, oldArgumentOf, getReplaceInfo.
  destruct (GetReplaceInfo (aDirectives argument)) as [info|err]; [reflexivity|].
  by destruct (errors_Is err kind.NotFound).
Qed.

(** X16: The old field built for a renamed field has the old name and the
    field's directives without replaces. On an input object it gets
    goField(name: 'Deprecated' + title-cased old name) and the sentence
    'Deprecated: Replaced by <new name>.' in its description (on a new line
    after an existing description); on any other kind it gets
    deprecated(reason: 'Replaced by <new name>.') followed by that goField
    directive and keeps its description. Each argument with a marker gets
    its old name, keeps its list and non-null nesting, takes the override
    type if the marker gives one, and loses replaces; the other arguments
    are unchanged. *)
Theorem old_field_is_deprecated_by_kind :
  forall (ownerKind : DefinitionKind) (r : Replacer) (fieldInfo : _fieldInfo),
    let field := fi_field fieldInfo in
    let old := (oldFieldOf ownerKind r fieldInfo).1 in
    let sentence := "Replaced by " +:+ fName field +:+ "." in
    fName old = fi_oldName fieldInfo
    /\ (if DefinitionKind_eqb ownerKind InputObject then
          fDirectives old
          = _removeReplacesDirective (fDirectives field)
            ++ [goFieldDirective (fi_oldName fieldInfo)]
          /\ fDescription old
             = (if String.eqb (fDescription field) "" then "Deprecated: " +:+ sentence
                else fDescription field +:+ newline +:+ "Deprecated: " +:+ sentence)
        else
          fDirectives old
          = _removeReplacesDirective (fDirectives field)
            ++ [deprecatedDirective sentence; goFieldDirective (fi_oldName fieldInfo)]
          /\ fDescription old = fDescription field)
    /\ Forall2
         (fun argument oldArgument =>
            match GetReplaceInfo (aDirectives argument) with
            | inl replaceInfo =>
                aName oldArgument = OldName replaceInfo
                /\ nesting (aType oldArgument) = nesting (aType argument)
                /\ innermost (aType oldArgument)
                   = (if String.eqb (OldTypeName replaceInfo) ""
                      then innermost (aType argument) else OldTypeName replaceInfo)
                /\ aDirectives oldArgument
                   = _removeReplacesDirective (aDirectives argument)
                /\ aDefaultValue oldArgument = aDefaultValue argument
                /\ aDescription oldArgument = aDescription argument
            | inr _ => oldArgument = argument
            end)
         (fArguments field) (fArguments old).
Proof.
  intros ownerKind r fieldInfo field old sentence. subst old.
  rewrite oldFieldOf_closed. cbn [fst fName fDirectives fDescription fArguments].
  fold field sentence. split; [reflexivity|]. split.
  - destruct (DefinitionKind_eqb ownerKind InputObject); split; reflexivity.
  - induction (fArguments field) as [|a l IH]; cbn [map]; constructor; [|exact IH].
    rewrite oldArgument_closed.
    destruct (GetReplaceInfo (aDirectives a)) as [info|]; [|reflexivity]. cbn.
    destruct (String.eqb (OldTypeName info) ""); cbn;
      rewrite ?updateType_nesting, ?updateType_innermost; repeat split.
Qed.

(** ** No marker in the overlay *)

Lemma unmarked_removeReplacesDirective directives :
  unmarked (_removeReplacesDirective directives).
Proof.
  intros d. unfold _removeReplacesDirective.
  rewrite list_elem_of_In, filter_In, negb_true_iff, String.eqb_neq. tauto.
Qed.

Lemma unmarked_app ds1 ds2 : unmarked ds1 -> unmarked ds2 -> unmarked (ds1 ++ ds2).
Proof. intros H1 H2 d Hd. apply elem_of_app in Hd as [Hd|Hd]; [by apply H1 | by apply H2]. Qed.

Lemma GetReplaceInfo_inr directives err :
  GetReplaceInfo directives = inr err ->
  err = WithStack kind.NotFound
  \/ err = Wrap kind.Internal "name required on @replaces directive".
Proof.
  unfold GetReplaceInfo.
  destruct (DirectiveList_ForName directives "replaces") as [dir|]; [|intros [= <-]; by left].
  destruct (ArgumentList_ForName (dirArguments dir) "name"); [|intros [= <-]; by right].
  by destruct (ArgumentList_ForName (dirArguments dir) "treatZeroAsUnset").
Qed.

Lemma unmarked_markerErrors directives :
  marker directives = None -> markerErrors directives = [] -> unmarked directives.
Proof.
  unfold marker, markerErrors, unmarked. intros Hm He.
  apply (proj2 (GetReplaceInfo_NotFound_iff directives)).
  destruct (GetReplaceInfo directives) as [info|err] eqn:Hg; [discriminate|].
  by destruct (GetReplaceInfo_inr _ _ Hg) as [->| ->].
Qed.

Lemma unmarked_oldArgument argument :
  markerErrors (aDirectives argument) = [] -> unmarked (aDirectives (oldArgument argument)).
Proof.
  intros He. rewrite oldArgument_closed.
  destruct (GetReplaceInfo (aDirectives argument)) as [info|err] eqn:Hg.
  - apply unmarked_removeReplacesDirective.
  - apply unmarked_markerErrors; [|exact He]. unfold marker. by rewrite Hg.
Qed.

Lemma noMarkers_shadowDefinition σ info : noMarkers (shadowDefinition σ info).1.1.
Proof.
  unfold shadowDefinition. cbn. split; [|split].
  - apply unmarked_removeReplacesDirective.
  - intros f Hf. apply list_elem_of_In, in_map_iff in Hf as (f0 & <- & _). cbn. split.
    + apply unmarked_removeReplacesDirective.
    + intros a Ha. apply list_elem_of_In, in_map_iff in Ha as (a0 & <- & _). cbn.
      apply unmarked_removeReplacesDirective.
  - intros v Hv. apply list_elem_of_In, in_map_iff in Hv as (v0 & <- & _). cbn.
    apply unmarked_removeReplacesDirective.
Qed.

Lemma definitionStage_from_emitted infos :
  forall out σ e,
    e ∈ (foldl (fun '(out, σ) definitionInfo =>
                  let '(e, σ) := shadowDefinition σ definitionInfo in
                  (out ++ [e], σ))
               (out, σ) infos).1 ->
    e ∈ out \/ exists σi info, info ∈ infos /\ e = (shadowDefinition σi info).1.
Proof.
  induction infos as [|i l IH]; intros out σ e; cbn [foldl]; [by left|].
  destruct (shadowDefinition σ i) as [e1 σ1] eqn:Hs. intros He.
  apply IH in He as [He|(σi & info & Hin & ->)].
  - apply elem_of_app in He as [He|He]; [by left|].
    apply list_elem_of_singleton in He as ->. right. exists σ, i.
    split; [by left | by rewrite Hs].
  - right. exists σi, info. split; [by right | reflexivity].
Qed.

Lemma unmarked_updatedKeyDirectives keys : unmarked (updatedKeyDirectives keys).
Proof.
  intros d Hd. unfold updatedKeyDirectives in Hd.
  apply list_elem_of_In, in_flat_map in Hd as ([key u] & _ & Hd).
  destruct u; [|by destruct Hd]. destruct Hd as [<-|[]]. discriminate.
Qed.

Lemma fieldExtensionsFrom_emitted ownerKind infos names :
  forall keys e,
    e ∈ fieldExtensionsFrom ownerKind infos keys names ->
    exists keys' name, e = (fieldExtensionOf ownerKind infos keys' name, true).
Proof.
  induction names as [|n names IH]; intros keys e He; cbn in He;
    [by apply elem_of_nil in He|].
  apply elem_of_cons in He as [->|He]; [by exists keys, n | by apply IH in He].
Qed.

Lemma oldFieldErrors_closed ownerKind fieldInfo :
  oldFieldErrors ownerKind fieldInfo
  = flat_map (fun a => markerErrors (aDirectives a)) (fArguments (fi_field fieldInfo)).
Proof. unfold oldFieldErrors. by rewrite oldFieldOf_closed. Qed.

Lemma noMarkers_fieldExtensionOf ownerKind infos keys name :
  (forall fi, fi ∈ infos -> oldFieldErrors ownerKind fi = []) ->
  noMarkers (fieldExtensionOf ownerKind infos keys name).
Proof.
  intros Herr. unfold fieldExtensionOf. split; [|split]; cbn.
  - apply unmarked_updatedKeyDirectives.
  - intros f Hf. apply list_elem_of_In, in_map_iff in Hf as (fi & <- & Hfi).
    apply list_elem_of_In in Hfi. unfold oldField. rewrite oldFieldOf_closed. cbn. split.
    + apply unmarked_app; [apply unmarked_removeReplacesDirective|].
      apply unmarked_app.
      * destruct (DefinitionKind_eqb ownerKind InputObject);
          intros d Hd; [by apply elem_of_nil in Hd|].
        apply list_elem_of_singleton in Hd as ->. discriminate.
      * intros d Hd. apply list_elem_of_singleton in Hd as ->. discriminate.
    + intros a Ha. apply list_elem_of_In, in_map_iff in Ha as (a0 & <- & Ha0).
      apply unmarked_oldArgument.
      specialize (Herr fi Hfi). rewrite oldFieldErrors_closed in Herr.
      apply (flat_map_eq_nil _ _ Herr). by apply list_elem_of_In.
  - intros v Hv. by apply elem_of_nil in Hv.
Qed.

Lemma noMarkers_enumExtensions r name e :
  e ∈ enumExtensions r name -> noMarkers e.1.
Proof.
  unfold enumExtensions. intros He.
  apply list_elem_of_In, in_map_iff in He as (n & <- & _). split; [|split]; cbn.
  - intros d Hd. by apply elem_of_nil in Hd.
  - intros f Hf. by apply elem_of_nil in Hf.
  - intros v Hv. apply list_elem_of_In, in_map_iff in Hv as (info & <- & _).
    unfold oldEnumValueOf, _addDeprecatedDirective. cbn.
    apply unmarked_app; [apply unmarked_removeReplacesDirective|].
    intros d Hd. apply list_elem_of_singleton in Hd as ->. discriminate.
Qed.

Lemma noMarkers_bare e :
  dDirectives e = [] -> dFields e = [] -> dEnumValues e = [] -> noMarkers e.
Proof.
  intros Hd Hf Hv. unfold noMarkers. rewrite Hd, Hf, Hv.
  split; [|split]; intros x Hx; by apply elem_of_nil in Hx.
Qed.

(** X17: When synthesis raises no error, no definition of the overlay
    carries a replaces directive: not on itself, not on its fields, their
    arguments, or its enum values. *)
Theorem overlay_carries_no_marker :
  forall (σ : Heap) (r : Replacer),
    errors (schemaAdditions σ r).1.2 = errors r ->
    forall e, e ∈ (schemaAdditions σ r).1.1 -> noMarkers e.1.
Proof.
  intros σ r Herr e. rewrite schemaAdditions_spec in Herr |- *.
  cbn [fst snd errors appendErrors set_errors set_definitions] in Herr |- *.
  assert (Hnone : fieldStageErrors r = []).
  { apply (app_inv_head (errors r)). by rewrite app_nil_r. }
  rewrite !elem_of_app. intros [He|[He|[He|[He|He]]]].
  - unfold definitionStage in He. apply definitionStage_from_emitted in He
      as [He|(σi & info & _ & ->)]; [by apply elem_of_nil in He|].
    apply noMarkers_shadowDefinition.
  - unfold fieldStageOf in He. apply list_elem_of_In, in_flat_map in He as (owner & Ho & He).
    apply list_elem_of_In in He. unfold fieldExtensionsOf in He.
    apply fieldExtensionsFrom_emitted in He as (keys' & name & ->). cbn [fst].
    apply noMarkers_fieldExtensionOf. intros fi Hfi.
    unfold fieldStageErrors in Hnone.
    pose proof (flat_map_eq_nil _ _ Hnone owner (proj2 (list_elem_of_In _ _) Ho)) as H1.
    unfold fieldExtensionsErrors in H1.
    pose proof (flat_map_eq_nil _ _ H1 owner) as H2. cbn beta in H2.
    apply (flat_map_eq_nil _ _ (H2 ltac:(unfold allNames; by left))). exact Hfi.
  - unfold enumStage in He. apply list_elem_of_In, in_flat_map in He as (n & _ & He).
    apply list_elem_of_In in He. by apply noMarkers_enumExtensions in He.
  - unfold implementsStage in He. apply list_elem_of_In, in_flat_map in He as (n & _ & He).
    unfold implementsExtensions in He. apply in_map_iff in He as (x & <- & _).
    by apply noMarkers_bare.
  - unfold unionStage in He. apply list_elem_of_In, in_flat_map in He as (n & _ & He).
    unfold unionExtensions in He. apply in_map_iff in He as (x & <- & _).
    by apply noMarkers_bare.
Qed.

Lemma overlay_carries_no_marker_witness :
  let σ := heapOf [Classroom; ContentKind] in
  let r := processSchema σ NewReplacer (schemaOf [Classroom; ContentKind]) in
  errors (schemaAdditions σ r).1.2 = errors r
  /\ forall e, e ∈ (schemaAdditions σ r).1.1 -> noMarkers e.1.
Proof.
  intros σ r.
  assert (H : errors (schemaAdditions σ r).1.2 = errors r) by (vm_compute; reflexivity).
  split; [exact H|]. exact (overlay_carries_no_marker σ r H).
Defined.

(** ** The order of the overlay *)

Lemma StronglySorted_strict {A} (R S : A -> A -> Prop) (l : list A) :
  (forall x y, R x y -> x <> y -> S x y) ->
  StronglySorted R l -> NoDup l -> StronglySorted S l.
Proof.
  intros HRS. induction 1 as [|a l Hl IH Ha]; intros Hnd; constructor.
  - apply IH. by apply NoDup_cons in Hnd as [_ ?].
  - apply NoDup_cons in Hnd as [Hnotin _].
    rewrite List.Forall_forall in Ha |- *. intros x Hx. apply HRS; [by apply Ha|].
    intros ->. by apply Hnotin, list_elem_of_In.
Qed.

Lemma StronglySorted_map {A B} (f : A -> B) (R : B -> B -> Prop) (l : list A) :
  StronglySorted (fun x y => R (f x) (f y)) l -> StronglySorted R (map f l).
Proof.
  induction 1 as [|a l Hl IH Ha]; cbn; constructor; [exact IH|].
  rewrite List.Forall_forall in Ha |- *. intros y Hy.
  apply in_map_iff in Hy as (x & <- & Hx). by apply Ha.
Qed.

(** X18: The list of names that a synthesis stage iterates over (the keys of
    one of the Replacer's maps, collected and passed to sort.Strings) is
    strictly ascending and holds exactly the keys of the map, each once. *)
Theorem sorted_keys_strictly_ascending :
  forall (A : Type) (m : gmap string A),
    StronglySorted (fun a b => String.ltb a b = true) (sortedKeys m)
    /\ (forall k, k ∈ sortedKeys m <-> is_Some (m !! k))
    /\ length (sortedKeys m) = size m.
Proof.
  intros A m.
  assert (Hperm : sortedKeys m ≡ₚ map fst (map_to_list m)).
  { unfold sortedKeys, sort_Strings.
    apply (sort_Slice_Permutation (fun s : string => s)). }
  split; [|split].
  - apply (StronglySorted_strict (notAfter (fun s : string => s))).
    + unfold notAfter, lessBy. intros x y Hyx Hne.
      destruct (String.ltb x y) eqn:Hxy; [reflexivity|].
      exfalso. apply Hne. by apply ltb_total.
    + apply (sort_Slice_StronglySorted (fun s : string => s)).
    + rewrite Hperm. apply NoDup_fst_map_to_list.
  - apply elem_of_sortedKeys.
  - rewrite Hperm, length_map. apply length_map_to_list.
Qed.

Lemma definitionStage_from_names infos :
  forall out σ,
    map (fun e : Emitted => dName e.1)
      (foldl (fun '(out, σ) definitionInfo =>
                let '(e, σ) := shadowDefinition σ definitionInfo in
                (out ++ [e], σ))
             (out, σ) infos).1
    = map (fun e : Emitted => dName e.1) out ++ map di_oldName infos.
Proof.
  induction infos as [|i l IH]; intros out σ; cbn [foldl map].
  - by rewrite app_nil_r.
  - destruct (shadowDefinition σ i) as [e σ1] eqn:Hs.
    rewrite IH, map_app, <- app_assoc. cbn. do 3 f_equal.
    unfold shadowDefinition in Hs. by injection Hs as <- _.
Qed.

Lemma extensions_only (r : Replacer) e :
  e ∈ fieldStageOf r ++ enumStage r ++ implementsStage r ++ unionStage r -> e.2 = true.
Proof.
  rewrite !elem_of_app. intros [He|[He|[He|He]]].
  - unfold fieldStageOf in He. apply list_elem_of_In, in_flat_map in He as (o & _ & He).
    apply list_elem_of_In, fieldExtensionsFrom_emitted in He as (k & n & ->). reflexivity.
  - unfold enumStage in He. apply list_elem_of_In, in_flat_map in He as (o & _ & He).
    unfold enumExtensions in He. by apply in_map_iff in He as (x & <- & _).
  - unfold implementsStage in He. apply list_elem_of_In, in_flat_map in He as (o & _ & He).
    unfold implementsExtensions in He. by apply in_map_iff in He as (x & <- & _).
  - unfold unionStage in He. apply list_elem_of_In, in_flat_map in He as (o & _ & He).
    unfold unionExtensions in He. by apply in_map_iff in He as (x & <- & _).
Qed.

(** X19: The overlay consists of the shadow definitions, one for each
    recorded renamed definition under its old name and in ascending order of
    old name, followed only by extensions. *)
Theorem overlay_starts_with_the_shadow_definitions :
  forall (σ : Heap) (r : Replacer),
    exists shadows extensions : list Emitted,
      (schemaAdditions σ r).1.1 = shadows ++ extensions
      /\ map (fun e : Emitted => dName e.1) shadows ≡ₚ map di_oldName (definitions r)
      /\ StronglySorted (fun a b => String.ltb b a = false)
           (map (fun e : Emitted => dName e.1) shadows)
      /\ (forall e, e ∈ extensions -> e.2 = true).
Proof.
  intros σ r. rewrite schemaAdditions_spec. cbn [fst].
  exists (definitionStage σ (sortedDefinitions r)).1,
         (fieldStageOf r ++ enumStage r ++ implementsStage r ++ unionStage r).
  split; [reflexivity|].
  unfold definitionStage. rewrite definitionStage_from_names. cbn [map app].
  split; [|split].
  - unfold sortedDefinitions. by rewrite (sort_Slice_Permutation di_oldName).
  - apply StronglySorted_map. apply (sort_Slice_StronglySorted di_oldName).
  - apply extensions_only.
Qed.

(** ** Looking back for "extend" *)

Lemma string_split (s : string) (n : nat) :
  n <= String.length s ->
  exists s1 s2, s = s1 +:+ s2 /\ String.length s1 = n.
Proof.
  revert n. induction s as [|c s IH]; intros n Hn.
  - exists "", "". cbn in Hn. split; [reflexivity | cbn; lia].
  - destruct n as [|n]; [by exists "", (String c s)|].
    cbn in Hn. destruct (IH n ltac:(lia)) as (s1 & s2 & -> & Hlen).
    exists (String c s1), s2. split; [reflexivity | cbn; lia].
Qed.

Lemma length_append (s1 s2 : string) :
  String.length (s1 +:+ s2) = String.length s1 + String.length s2.
Proof. induction s1 as [|c s1 IH]; [reflexivity|]. rewrite append_cons. cbn. lia. Qed.

Lemma substring_prefix (s2 s3 : string) :
  String.substring 0 (String.length s2) (s2 +:+ s3) = s2.
Proof.
  induction s2 as [|c s2 IH].
  - rewrite append_nil_l. by destruct s3.
  - rewrite append_cons. cbn. f_equal. exact IH.
Qed.

Lemma substring_middle (s1 s2 s3 : string) :
  String.substring (String.length s1) (String.length s2) (s1 +:+ s2 +:+ s3) = s2.
Proof.
  induction s1 as [|c s1 IH].
  - rewrite append_nil_l. change (String.length "") with 0. apply substring_prefix.
  - rewrite append_cons. cbn. exact IH.
Qed.

Lemma append_assoc (s1 s2 s3 : string) : (s1 +:+ s2) +:+ s3 = s1 +:+ (s2 +:+ s3).
Proof.
  induction s1 as [|c s1 IH]; [reflexivity|]. by rewrite !append_cons, IH.
Qed.

Lemma lastChar_append (s1 s2 : string) :
  s2 <> "" -> lastChar (s1 +:+ s2) = lastChar s2.
Proof.
  intros Hne. induction s1 as [|c s1 IH]; [reflexivity|].
  rewrite append_cons. cbn [lastChar]. rewrite IH.
  destruct (s1 +:+ s2) eqn:Happ; [|reflexivity].
  destruct s1; [by rewrite append_nil_l in Happ | by rewrite append_cons in Happ].
Qed.

Lemma matchSomewhere_after (m : option ascii -> string -> bool) (pre rest : string) :
  forall prev,
    m (match lastChar pre with Some c => Some c | None => prev end) rest = true ->
    matchSomewhere m prev (pre +:+ rest) = true.
Proof.
  induction pre as [|c pre IH]; intros prev Hm.
  - rewrite append_nil_l. destruct rest; cbn in *; by rewrite Hm.
  - rewrite append_cons. cbn [matchSomewhere]. apply orb_true_iff. right.
    apply IH. cbn [lastChar] in Hm. destruct pre as [|c' pre']; [exact Hm|].
    destruct (lastChar (String c' pre')) eqn:Hl; [exact Hm|].
    exfalso. clear -Hl. revert c' Hl. induction pre' as [|x p IHp]; intros c' Hl; [done|].
    cbn [lastChar] in Hl. by apply (IHp x).
Qed.

Lemma spanChars_run (p : ascii -> bool) (run rest : string) :
  allChars p run = true ->
  match rest with EmptyString => true | String c _ => negb (p c) end = true ->
  spanChars p (run +:+ rest) = (String.length run, rest).
Proof.
  intros Hrun Hrest. induction run as [|c run IH].
  - rewrite append_nil_l. destruct rest as [|c r]; [reflexivity|].
    cbn. apply negb_true_iff in Hrest. by rewrite Hrest.
  - rewrite append_cons. cbn in Hrun |- *. apply andb_true_iff in Hrun as [-> Hrun].
    by rewrite IH.
Qed.

Lemma append_nil_r (s : string) : s +:+ "" = s.
Proof. induction s as [|c s IH]; [reflexivity|]. by rewrite append_cons, IH. Qed.

Lemma wordChar_not_space c : isWordChar c = true -> isSpaceChar c = false.
Proof.
  destruct c as [[] [] [] [] [] [] [] []]; vm_compute; congruence.
Qed.

Lemma blankChar_is_space c : isBlankChar c = true -> isSpaceChar c = true.
Proof.
  destruct c as [[] [] [] [] [] [] [] []]; vm_compute; congruence.
Qed.

Lemma allWordChars_allChars s : allWordChars s = allChars isWordChar s.
Proof. induction s as [|c s IH]; [reflexivity|]. cbn. by rewrite IH. Qed.

Lemma isRunOf_cons p s :
  isRunOf p s = true -> exists c rest, s = String c rest /\ p c = true /\ allChars p s = true.
Proof.
  unfold isRunOf. destruct s as [|c rest]; [discriminate|]. cbn.
  intros H. exists c, rest. apply andb_true_iff in H as [-> ->]. by repeat split.
Qed.

Lemma extendRegex_matchHere_pattern prev blanks keyword spaces :
  isWordAt prev = false ->
  isRunOf isBlankChar blanks = true -> isWordString keyword = true ->
  isRunOf isSpaceChar spaces = true ->
  _extendRegex_matchHere prev ("extend" +:+ blanks +:+ keyword +:+ spaces) = true.
Proof.
  intros Hprev Hb Hk Hs. unfold _extendRegex_matchHere.
  change ("extend" +:+ blanks +:+ keyword +:+ spaces)
    with (String "e" (String "x" (String "t" (String "e" (String "n" (String "d"
            (blanks +:+ keyword +:+ spaces))))))).
  unfold wordBoundary. rewrite Hprev. cbn [firstChar isWordAt xorb].
  change (isWordChar "e") with true. cbn [andb stripLiteral].
  rewrite !Ascii.eqb_refl.
  destruct (isRunOf_cons _ _ Hb) as (b & brest & -> & Hb1 & Hball).
  assert (Hkw : isRunOf isWordChar keyword = true).
  { unfold isRunOf, isWordString in *. by rewrite <- allWordChars_allChars. }
  destruct (isRunOf_cons _ _ Hkw) as (k & krest & -> & Hk1 & Hkall).
  destruct (isRunOf_cons _ _ Hs) as (s & srest & -> & Hs1 & Hsall).
  assert (Hkb : negb (isBlankChar k) = true).
  { apply negb_true_iff. destruct (isBlankChar k) eqn:Hbk; [|reflexivity].
    apply blankChar_is_space in Hbk. by rewrite (wordChar_not_space k Hk1) in Hbk. }
  assert (Hsw : negb (isWordChar s) = true).
  { apply negb_true_iff. destruct (isWordChar s) eqn:Hws; [|reflexivity].
    by rewrite (wordChar_not_space s Hws) in Hs1. }
  rewrite (spanChars_run isBlankChar (String b brest) _ Hball)
    by (rewrite append_cons; exact Hkb).
  rewrite (spanChars_run isWordChar (String k krest) _ Hkall) by exact Hsw.
  rewrite <- (append_nil_r (String s srest)).
  rewrite (spanChars_run isSpaceChar (String s srest) "" Hsall) by reflexivity.
  reflexivity.
Qed.

(** X25: _definitionHasExtends returns true for a definition whose position
    says that the source text before its name ends with the word extend (not
    preceded by a word character), one or more spaces or tabs, a keyword of
    word characters and one or more white-space characters, the whole being
    at most 25 bytes long. *)
Theorem definitionHasExtends_sees_extend :
  forall (before blanks keyword spaces after : string) (d : Definition_),
    let pattern := "extend" +:+ blanks +:+ keyword +:+ spaces in
    isWordAt (lastChar before) = false ->
    isRunOf isBlankChar blanks = true ->
    isWordString keyword = true ->
    isRunOf isSpaceChar spaces = true ->
    String.length pattern <= 25 ->
    dPosition d
    = Some {| Start := Z.of_nat (String.length (before +:+ pattern));
              SrcInput := (before +:+ pattern) +:+ after |} ->
    _definitionHasExtends d = true.
Proof.
  intros before blanks keyword spaces after d pattern Hlast Hb Hk Hs Hlen Hpos.
  unfold _definitionHasExtends. rewrite Hpos. cbn [Start SrcInput].
  change (Z.of_nat (String.length "extend") + Z.of_nat (String.length "interface") + 10)%Z
    with 25%Z.
  rewrite length_append.
  set (B := String.length before) in *. set (L := String.length pattern) in *.
  assert (Hmatch : forall seen,
            isWordAt (match lastChar seen with Some c => Some c | None => None end) = false ->
            _extendRegex_FindString_nonempty (seen +:+ pattern) = true).
  { intros seen Hseen. unfold _extendRegex_FindString_nonempty.
    apply matchSomewhere_after. by apply extendRegex_matchHere_pattern. }
  destruct (Z.ltb_spec (Z.of_nat (B + L) - 25) 0) as [Hshort|Hlong].
  - replace (Z.to_nat 0) with 0 by reflexivity.
    replace (Z.to_nat (25 + (Z.of_nat (B + L) - 25))) with (String.length (before +:+ pattern))
      by (rewrite length_append; fold B L; lia).
    rewrite substring_prefix. apply Hmatch. by destruct (lastChar before).
  - destruct (string_split before (B - (25 - L))) as (s1 & s2 & Hsplit & Hs1);
      [fold B; lia|].
    assert (Hs2 : String.length s2 = 25 - L).
    { assert (HB : B = String.length s1 + String.length s2)
        by (unfold B; rewrite Hsplit; apply length_append).
      lia. }
    replace (Z.to_nat (Z.of_nat (B + L) - 25)) with (String.length s1) by lia.
    replace (Z.to_nat 25) with (String.length (s2 +:+ pattern))
      by (rewrite length_append; fold L; lia).
    rewrite Hsplit, !append_assoc, <- (append_assoc s2 pattern after).
    rewrite substring_middle. apply Hmatch.
    destruct s2 as [|c s2']; [reflexivity|].
    rewrite Hsplit, lastChar_append in Hlast by discriminate.
    by destruct (lastChar (String c s2')).
Qed.

Lemma definitionHasExtends_sees_extend_witness :
  _definitionHasExtends
    (object "StudentList" [] []
       (at_ "enum ContentKind { ARTICLE VIDEO EXERCISE } extend type StudentList { kaid: String! }"
          56))
  = true.
Proof.
  apply (definitionHasExtends_sees_extend
           "enum ContentKind { ARTICLE VIDEO EXERCISE } " " " "type" " "
           "StudentList { kaid: String! }");
    first [reflexivity | vm_compute; lia].
Defined.

(** ** The shadow definitions and the extend heuristic (C3) *)

Lemma substring_dropBytes (a n : nat) :
  forall s, String.substring a n s = dropBytes a (String.substring 0 (a + n) s).
Proof.
  induction a as [|a IH]; intros s.
  - cbn [dropBytes Nat.add]. by destruct (String.substring 0 n s).
  - destruct s as [|c s]; [reflexivity|].
    cbn [String.substring Nat.add dropBytes]. apply IH.
Qed.

Lemma length_substring_prefix (n : nat) :
  forall s, n <= String.length s -> String.length (String.substring 0 n s) = n.
Proof.
  induction n as [|n IH]; intros s Hn.
  - by destruct s.
  - destruct s as [|c s]; cbn in Hn; [lia|]. cbn. rewrite IH; lia.
Qed.

Lemma definitionHasExtends_window (d : Definition_) (pos : Position) :
  dPosition d = Some pos ->
  (0 <= Start pos <= Z.of_nat (String.length (SrcInput pos)))%Z ->
  _definitionHasExtends d
  = _extendRegex_FindString_nonempty (lastBytes 25 (textBefore pos)).
Proof.
  intros Hpos Hrange. unfold _definitionHasExtends. rewrite Hpos.
  change (Z.of_nat (String.length "extend") + Z.of_nat (String.length "interface") + 10)%Z
    with 25%Z.
  unfold lastBytes, textBefore.
  rewrite length_substring_prefix by lia.
  destruct (Z.ltb_spec (Start pos - 25) 0) as [Hshort|Hlong].
  - replace (Z.to_nat 0) with 0 by reflexivity.
    replace (Z.to_nat (25 + (Start pos - 25))) with (Z.to_nat (Start pos)) by lia.
    replace (Z.to_nat (Start pos) - 25) with 0 by lia.
    cbn [dropBytes]. by destruct (String.substring 0 _ _).
  - rewrite substring_dropBytes. do 2 f_equal; [lia|]. f_equal. lia.
Qed.

Lemma lastChar_cons c s :
  lastChar (String c s) = match lastChar s with Some x => Some x | None => Some c end.
Proof.
  destruct s as [|c' s']; [reflexivity|]. cbn [lastChar].
  assert (H : forall x t, lastChar (String x t) <> None).
  { intros x t. revert x. induction t as [|y t IH]; intros x; [discriminate|].
    cbn [lastChar]. apply IH. }
  destruct (lastChar (String c' s')) eqn:Hl; [|by apply H in Hl].
  cbn [lastChar] in Hl. by rewrite Hl.
Qed.

Lemma matchSomewhere_split (m : option ascii -> string -> bool) (text : string) :
  forall prev,
    matchSomewhere m prev text = true ->
    exists pre rest,
      text = pre +:+ rest
      /\ m (match lastChar pre with Some c => Some c | None => prev end) rest = true.
Proof.
  induction text as [|c text IH]; intros prev; cbn [matchSomewhere].
  - rewrite orb_false_r. intros Hm. by exists "", "".
  - intros [Hm|Hm]%orb_true_iff.
    + by exists "", (String c text).
    + destruct (IH _ Hm) as (pre & rest & -> & Hrest).
      exists (String c pre), rest. split; [by rewrite append_cons|].
      rewrite lastChar_cons. by destruct (lastChar pre).
Qed.

Lemma spanChars_spec (p : ascii -> bool) (s : string) :
  exists run,
    s = run +:+ (spanChars p s).2 /\ allChars p run = true
    /\ String.length run = (spanChars p s).1.
Proof.
  induction s as [|c s IH]; [by exists ""|].
  cbn [spanChars]. destruct (p c) eqn:Hc; [|by exists ""].
  destruct IH as (run & Hs & Hall & Hlen).
  destruct (spanChars p s) as [n r]. cbn [fst snd] in *.
  exists (String c run). rewrite append_cons, <- Hs. cbn. by rewrite Hc, Hall, Hlen.
Qed.

Lemma stripLiteral_spec (w : string) :
  forall prev text last rest,
    stripLiteral prev w text = Some (last, rest) -> text = w +:+ rest.
Proof.
  induction w as [|x w IH]; intros prev text last rest; cbn [stripLiteral].
  - by intros [= _ ->].
  - destruct text as [|c text]; [discriminate|].
    destruct (Ascii.eqb_spec x c) as [->|]; [|discriminate].
    intros H. rewrite append_cons. f_equal. by apply (IH _ _ _ _ H).
Qed.

Lemma isRunOf_span (p : ascii -> bool) (run : string) (n : nat) :
  allChars p run = true -> String.length run = n -> Nat.ltb 0 n = true ->
  isRunOf p run = true.
Proof.
  intros Hall Hlen Hn. unfold isRunOf. rewrite Hall, andb_true_r.
  destruct run; [cbn in Hlen; subst n; discriminate | reflexivity].
Qed.

Lemma extendRegex_matchHere_inv prev text :
  _extendRegex_matchHere prev text = true ->
  isWordAt prev = false
  /\ exists blanks keyword spaces,
       text = "extend" +:+ blanks +:+ keyword +:+ spaces
       /\ isRunOf isBlankChar blanks = true
       /\ isWordString keyword = true
       /\ isRunOf isSpaceChar spaces = true.
Proof.
  unfold _extendRegex_matchHere. intros [Hb Hm]%andb_true_iff.
  destruct (stripLiteral prev "extend" text) as [[last rest]|] eqn:Hstrip; [|discriminate].
  apply stripLiteral_spec in Hstrip as ->.
  split.
  { unfold wordBoundary in Hb.
    change (firstChar ("extend" +:+ rest)) with (Some "e"%char) in Hb.
    change (isWordAt (Some "e"%char)) with true in Hb.
    by destruct (isWordAt prev). }
  destruct (spanChars_spec isBlankChar rest) as (blanks & Hrest & Hball & Hblen).
  destruct (spanChars isBlankChar rest) as [nb rest1]. cbn [fst snd] in *.
  destruct (spanChars_spec isWordChar rest1) as (keyword & Hrest1 & Hkall & Hklen).
  destruct (spanChars isWordChar rest1) as [nk rest2]. cbn [fst snd] in *.
  destruct (spanChars_spec isSpaceChar rest2) as (spaces & Hrest2 & Hsall & Hslen).
  destruct (spanChars isSpaceChar rest2) as [ns rest3]. cbn [fst snd] in *.
  apply andb_true_iff in Hm as [Hm Hend]. apply andb_true_iff in Hm as [Hm Hns].
  apply andb_true_iff in Hm as [Hnb Hnk].
  apply String.eqb_eq in Hend. subst rest3. rewrite append_nil_r in Hrest2.
  exists blanks, keyword, spaces. subst rest2 rest1 rest.
  split; [reflexivity|]. split; [by apply (isRunOf_span _ _ nb)|].
  split; [|by apply (isRunOf_span _ _ ns)].
  pose proof (isRunOf_span _ _ nk Hkall Hklen Hnk) as Hk.
  unfold isWordString. unfold isRunOf in Hk. by rewrite allWordChars_allChars.
Qed.

Lemma extendRegex_recognises (seen : string) :
  _extendRegex_FindString_nonempty seen = true <-> endsWithExtend isBlankChar seen.
Proof.
  unfold _extendRegex_FindString_nonempty, endsWithExtend. split.
  - intros (pre & rest & -> & Hm)%matchSomewhere_split.
    apply extendRegex_matchHere_inv in Hm
      as (Hprev & blanks & keyword & spaces & -> & Hb & Hk & Hs).
    exists pre, blanks, keyword, spaces. split; [reflexivity|].
    split; [by destruct (lastChar pre) | by split].
  - intros (before & blanks & keyword & spaces & -> & Hprev & Hb & Hk & Hs).
    apply matchSomewhere_after. apply extendRegex_matchHere_pattern; try done.
    by destruct (lastChar before).
Qed.

(** C3, as stated, does not hold: a declaration that uses extend with a line
    break behind it is read by the parser as an extension with an empty
    description, but the look-back does not recognise it; the clone is
    emitted as a plain definition and carries the deprecation sentence as
    its description. *)
Lemma extend_before_a_line_break_is_missed :
  let σ := heapOf [ClassroomExtendedOnTwoLines] in
  let r := processSchema σ NewReplacer (schemaOf [ClassroomExtendedOnTwoLines]) in
  let pos := {| Start := 12; SrcInput := "extend" +:+ newline +:+ "type Classroom" |} in
  dPosition ClassroomExtendedOnTwoLines = Some pos
  /\ dDescription ClassroomExtendedOnTwoLines = ""
  /\ declaredWithExtend pos
  /\ exists clone : Definition_,
       (schemaAdditions σ r).1.1 = [(clone, false)]
       /\ dName clone = "StudentList"
       /\ dDescription clone = "Deprecated: Replaced by Classroom.".
Proof.
  cbn zeta. split; [reflexivity|]. split; [reflexivity|]. split.
  - exists "", newline, "type", " ". by vm_compute.
  - eexists. split; [vm_compute; reflexivity|]. by vm_compute.
Qed.

(** C3, amended: for every renamed Definition with the position the parser
    gives it, stage 1 emits a clone under the old name, as an extension
    exactly when the look-back recognises the declaration: the at most 25
    bytes of source in front of the name end with the word extend (not
    preceded by a word character), spaces or tabs, one word, and white
    space.  An empty description stays empty when the clone is emitted as an
    extension and becomes the sentence Deprecated: Replaced by <newName>.
    otherwise; a non-empty description gets that sentence appended on a new
    line. *)
Theorem shadow_clone_follows_the_extend_heuristic :
  forall (σ : Heap) (r : Replacer) (info : _definitionInfo) (pos : Position),
    info ∈ definitions r ->
    let definition := σ (di_definition info) in
    let deprecatedMessage := "Deprecated: Replaced by " +:+ dName definition +:+ "." in
    dPosition definition = Some pos ->
    (0 <= Start pos <= Z.of_nat (String.length (SrcInput pos)))%Z ->
    exists (clone : Definition_) (asExtension : bool),
      (clone, asExtension) ∈ (schemaAdditions σ r).1.1
      /\ dName clone = di_oldName info
      /\ (asExtension = true <-> recognisedExtend pos)
      /\ dDescription clone
         = if String.eqb (dDescription definition) "" then
             if asExtension then "" else deprecatedMessage
           else dDescription definition +:+ newline +:+ deprecatedMessage.
Proof.
  intros σ r info pos Hin definition msg Hpos Hrange.
  destruct (shadowDefinition_emitted σ r info Hin) as (clone & Hemitted & Hname & Hdesc).
  exists clone, (_definitionHasExtends definition).
  split; [exact Hemitted|]. split; [exact Hname|]. split; [|exact Hdesc].
  unfold recognisedExtend. rewrite <- extendRegex_recognises.
  by rewrite (definitionHasExtends_window definition pos Hpos Hrange).
Qed.

Lemma shadow_clone_follows_the_extend_heuristic_witness :
  let σ := heapOf [ClassroomExtended] in
  let r := processSchema σ NewReplacer (schemaOf [ClassroomExtended]) in
  let info := {| di_definition := 0; di_oldName := "StudentList" |} in
  let pos := {| Start := 12; SrcInput := "extend type Classroom" |} in
  info ∈ definitions r
  /\ dPosition (σ 0) = Some pos
  /\ (0 <= Start pos <= Z.of_nat (String.length (SrcInput pos)))%Z
  /\ recognisedExtend pos
  /\ exists clone : Definition_,
       (clone, true) ∈ (schemaAdditions σ r).1.1
       /\ dName clone = "StudentList" /\ dDescription clone = "".
Proof.
  intros σ r info pos.
  assert (Hin : info ∈ definitions r) by (vm_compute; constructor).
  assert (Hpos : dPosition (σ 0) = Some pos) by reflexivity.
  assert (Hrange : (0 <= Start pos <= Z.of_nat (String.length (SrcInput pos)))%Z)
    by (vm_compute; split; discriminate).
  assert (Hseen : recognisedExtend pos).
  { exists "", " ", "type", " ". by vm_compute. }
  split; [exact Hin|]. split; [exact Hpos|]. split; [exact Hrange|].
  split; [exact Hseen|].
  destruct (shadow_clone_follows_the_extend_heuristic σ r info pos Hin Hpos Hrange)
    as (clone & asExtension & Hemitted & Hname & Hflag & Hdesc).
  apply Hflag in Hseen. subst asExtension.
  exists clone. split; [exact Hemitted|]. split; [exact Hname | exact Hdesc].
Defined.

Section PluginProperties.
Import gqlgen_plugins.

(** ** The plugin's view of the schema *)

Lemma markerErrors_nil_cases directives :
  markerErrors directives = [] ->
  match GetReplaceInfo directives with
  | inl info => marker directives = Some info
  | inr err => errors_Is err kind.NotFound = true /\ marker directives = None
  end.
Proof.
  unfold markerErrors, marker.
  destruct (GetReplaceInfo directives) as [info|err]; [done|].
  by destruct (errors_Is err kind.NotFound).
Qed.

Lemma getSchemaInfo_field_fold d fs :
  (forall f, f ∈ fs -> markerErrors (fDirectives f) = []) ->
  forall s,
    exists s',
      foldl (getSchemaInfo_field d) (inl s) fs = inl s'
      /\ renamedTypes s' = renamedTypes s
      /\ forall name,
           renamedFields s' !! name
           = if decide (dName d = name)
             then groupAppended d (renamedFields s !! name) (flat_map pluginField fs)
             else renamedFields s !! name.
Proof.
  induction fs as [|f fs IH]; intros Hok s.
  - exists s. split; [reflexivity|]. split; [reflexivity|].
    intros name. by destruct (decide (dName d = name)).
  - cbn [foldl flat_map]. unfold getSchemaInfo_field at 2.
    pose proof (markerErrors_nil_cases _ (Hok f (list_elem_of_here _ _))) as Hf.
    unfold pluginField at 1.
    destruct (GetReplaceInfo (fDirectives f)) as [info|err].
    + rewrite Hf.
      match goal with |- context [foldl _ (inl ?s1) fs] =>
        destruct (IH (fun g Hg => Hok g (list_elem_of_further _ _ _ Hg)) s1)
          as (s' & Hfold & Ht & Hl)
      end.
      exists s'. split; [exact Hfold|]. split; [exact Ht|].
      intros name. rewrite Hl. cbn [renamedFields].
      destruct (decide (dName d = name)) as [<-|Hne].
      * rewrite lookup_insert_eq. cbn [app].
        destruct (flat_map pluginField fs) as [|i l]; cbn [groupAppended default].
        -- by destruct (renamedFields s !! dName d).
        -- cbn. rewrite <- app_assoc. by destruct (renamedFields s !! dName d).
      * by rewrite lookup_insert_ne.
    + destruct Hf as [-> ->]. cbn [app].
      apply IH. intros g Hg. apply Hok. by right.
Qed.

Lemma getSchemaInfo_definition_spec σ s p :
  (isObjectKind (dKind (σ p)) = true -> readable (σ p)) ->
  exists s',
    getSchemaInfo_definition σ (inl s) p = inl s'
    /\ forall name,
         pluginEntriesOf s' name
         = if decide (dName (σ p) = name)
           then pluginIndexedEntries (σ p) (pluginEntriesOf s name)
           else pluginEntriesOf s name.
Proof.
  intros Hok. unfold getSchemaInfo_definition, pluginIndexedEntries, pluginTypeInfoOf,
    pluginFieldInfosOf.
  destruct (isObjectKind (dKind (σ p))) eqn:Hk.
  - destruct (Hok eq_refl) as [Hd Hf].
    pose proof (markerErrors_nil_cases _ Hd) as Hm.
    assert (Hstep : forall s1,
              exists s', foldl (getSchemaInfo_field (σ p)) (inl s1) (dFields (σ p)) = inl s'
                         /\ renamedTypes s' = renamedTypes s1
                         /\ forall name,
                              renamedFields s' !! name
                              = if decide (dName (σ p) = name)
                                then groupAppended (σ p) (renamedFields s1 !! name)
                                       (flat_map pluginField (dFields (σ p)))
                                else renamedFields s1 !! name)
      by (intros s1; by apply getSchemaInfo_field_fold).
    destruct (GetReplaceInfo (dDirectives (σ p))) as [info|err].
    + rewrite Hm. cbn [fmap option_fmap option_map].
      match goal with |- context [foldl _ (inl ?s1) _] =>
        destruct (Hstep s1) as (s' & Hfold & Ht & Hl) end.
      exists s'. split; [by destruct (dKind (σ p)); try discriminate Hk|].
      intros name. unfold pluginEntriesOf. rewrite Ht, Hl. cbn [renamedTypes renamedFields fst snd].
      destruct (decide (dName (σ p) = name)) as [<-|Hne];
        [by rewrite lookup_insert_eq | by rewrite lookup_insert_ne].
    + destruct Hm as [-> ->]. cbn [fmap option_fmap option_map].
      destruct (Hstep s) as (s' & Hfold & Ht & Hl).
      exists s'. split; [by destruct (dKind (σ p)); try discriminate Hk|].
      intros name. unfold pluginEntriesOf. rewrite Ht, Hl. cbn [fst snd].
      by destruct (decide (dName (σ p) = name)).
  - exists s. split; [by destruct (dKind (σ p)); try discriminate Hk|].
    intros name. by destruct (decide (dName (σ p) = name)).
Qed.

Lemma getSchemaInfo_fold σ types :
  (forall p, p ∈ types -> isObjectKind (dKind (σ p)) = true -> readable (σ p)) ->
  forall s,
    exists s',
      foldl (getSchemaInfo_definition σ) (inl s) types = inl s'
      /\ (forall name, name ∉ map (fun p => dName (σ p)) types ->
            pluginEntriesOf s' name = pluginEntriesOf s name)
      /\ (NoDup (map (fun p => dName (σ p)) types) ->
          forall p, p ∈ types ->
            pluginEntriesOf s' (dName (σ p))
            = pluginIndexedEntries (σ p) (pluginEntriesOf s (dName (σ p)))).
Proof.
  induction types as [|q l IH]; intros Hok s.
  - exists s. split; [reflexivity|]. split; [reflexivity|].
    intros _ p Hp. by apply elem_of_nil in Hp.
  - cbn [foldl].
    destruct (getSchemaInfo_definition_spec σ s q (Hok q (list_elem_of_here _ _)))
      as (s1 & -> & Hs1).
    destruct (IH (fun p Hp => Hok p (list_elem_of_further _ _ _ Hp)) s1)
      as (s' & Hfold & Hother & Hin).
    exists s'. split; [exact Hfold|]. split.
    + intros name Hname. cbn in Hname. apply not_elem_of_cons in Hname as [Hq Hl].
      rewrite Hother by exact Hl. rewrite Hs1.
      destruct (decide (dName (σ q) = name)); [congruence | reflexivity].
    + intros Hnd p Hp. cbn in Hnd. apply NoDup_cons in Hnd as [Hq Hnd].
      apply elem_of_cons in Hp as [->|Hp].
      * rewrite Hother by exact Hq. rewrite Hs1.
        by destruct (decide (dName (σ q) = dName (σ q))).
      * rewrite Hin by assumption. rewrite Hs1.
        destruct (decide (dName (σ q) = dName (σ p))) as [Heq|]; [|reflexivity].
        exfalso. apply Hq. rewrite Heq.
        apply list_elem_of_In. apply (in_map (fun p => dName (σ p)) l p).
        by apply list_elem_of_In.
Qed.

Lemma indexErrors_readable d :
  indexErrors d = [] -> isObjectKind (dKind d) = true -> readable d.
Proof.
  unfold indexErrors, definitionIndexErrors. intros H Hk.
  apply app_eq_nil in H as [Hd H]. apply app_eq_nil in Hd as [Hd _].
  apply app_eq_nil in H as [Hf _].
  split; [exact Hd|]. intros f Hin.
  assert (Hhas : hasFields (dKind d) = true) by (by destruct (dKind d)).
  rewrite Hhas in Hf.
  pose proof (flat_map_eq_nil _ _ Hf f Hin) as Hfe. unfold fieldIndexErrors in Hfe.
  by apply app_eq_nil in Hfe as [? _].
Qed.

Lemma validation_readable σ schema types :
  types ≡ₚ Types schema ->
  ValidateReplacesDirectives σ schema = None ->
  forall p, p ∈ types -> isObjectKind (dKind (σ p)) = true -> readable (σ p).
Proof.
  intros Hperm Hv p Hp. apply indexErrors_readable.
  destruct (processSchema_fresh σ schema) as (_ & _ & He).
  unfold ValidateReplacesDirectives in Hv. rewrite He in Hv.
  destruct (flat_map _ (Types schema)) as [|e l] eqn:Hflat; [|discriminate].
  apply (flat_map_eq_nil _ _ Hflat). by rewrite <- Hperm.
Qed.

(** X20: The plugin's _getSchemaInfo returns the error of
    ValidateReplacesDirectives when validation fails, and when validation
    passes it returns a schema info and no error: its own reads of the
    markers cannot fail on a validated schema, in whatever order it ranges
    over schema.Types. *)
Theorem getSchemaInfo_fails_only_in_validation :
  forall (σ : Heap) (schema : Schema) (types : list ptr),
    types ≡ₚ Types schema ->
    match ValidateReplacesDirectives σ schema with
    | Some err => _getSchemaInfo σ schema types = inr err
    | None => exists replacements, _getSchemaInfo σ schema types = inl replacements
    end.
Proof.
  intros σ schema types Hperm. unfold _getSchemaInfo.
  destruct (ValidateReplacesDirectives σ schema) as [err|] eqn:Hv; [reflexivity|].
  destruct (getSchemaInfo_fold σ types (validation_readable σ schema types Hperm Hv)
              {| renamedTypes := ∅; renamedFields := ∅ |}) as (s' & Hfold & _).
  by exists s'.
Qed.

Lemma getSchemaInfo_fails_only_in_validation_witness :
  [1; 0]%nat ≡ₚ Types (schemaOf [Classroom; ContentKind])
  /\ exists replacements,
       _getSchemaInfo (heapOf [Classroom; ContentKind])
         (schemaOf [Classroom; ContentKind]) [1; 0]%nat
       = inl replacements.
Proof.
  assert (Hperm : [1; 0]%nat ≡ₚ Types (schemaOf [Classroom; ContentKind]))
    by apply perm_swap.
  split; [exact Hperm|].
  exact (getSchemaInfo_fails_only_in_validation (heapOf [Classroom; ContentKind])
           (schemaOf [Classroom; ContentKind]) [1; 0]%nat Hperm).
Defined.

Lemma existsb_map_to_list {A} (m : gmap string A) (f : A -> bool) :
  existsb (fun '((_, x) : string * A) => f x) (map_to_list m) = true
  <-> exists k x, m !! k = Some x /\ f x = true.
Proof.
  rewrite existsb_exists. split.
  - intros ([k x] & Hin & Hf). exists k, x.
    split; [by apply elem_of_map_to_list, list_elem_of_In | exact Hf].
  - intros (k & x & Hl & Hf). exists (k, x).
    split; [by apply list_elem_of_In, elem_of_map_to_list | exact Hf].
Qed.

(** X21: When _getSchemaInfo succeeds on definitions with distinct names, it
    has recorded a renamed type for exactly the objects and input objects
    that carry a marker (kind, old name, new name) and a field group for
    exactly those with renamed fields, holding the renamed fields in
    declaration order; other kinds and other names have no entry.
    hasObjectRenames is then true exactly when some object of the schema is
    renamed, and hasInputObjectFieldRenames exactly when some input object
    has a renamed field. *)
Theorem getSchemaInfo_records_objects_and_inputs :
  forall (σ : Heap) (schema : Schema) (types : list ptr) (replacements : _schemaInfo),
    types ≡ₚ Types schema ->
    NoDup (map (fun p => dName (σ p)) types) ->
    _getSchemaInfo σ schema types = inl replacements ->
    (forall p, p ∈ types ->
       renamedTypes replacements !! dName (σ p) = pluginTypeInfoOf (σ p)
       /\ renamedFields replacements !! dName (σ p) = pluginFieldGroupOf (σ p))
    /\ (forall name, name ∉ map (fun p => dName (σ p)) types ->
          renamedTypes replacements !! name = None
          /\ renamedFields replacements !! name = None)
    /\ (hasObjectRenames replacements = true
        <-> exists p, p ∈ types /\ dKind (σ p) = Object
                      /\ marker (dDirectives (σ p)) <> None)
    /\ (hasInputObjectFieldRenames replacements = true
        <-> exists p, p ∈ types /\ dKind (σ p) = InputObject
                      /\ pluginFieldInfosOf (σ p) <> []).
Proof.
  intros σ schema types replacements Hperm Hnd Hget. unfold _getSchemaInfo in Hget.
  destruct (ValidateReplacesDirectives σ schema) as [err|] eqn:Hv; [discriminate|].
  destruct (getSchemaInfo_fold σ types (validation_readable σ schema types Hperm Hv)
              {| renamedTypes := ∅; renamedFields := ∅ |}) as (s' & Hfold & Hother & Hin).
  rewrite Hfold in Hget. injection Hget as ->.
  assert (Hentries : forall p, p ∈ types ->
            renamedTypes replacements !! dName (σ p) = pluginTypeInfoOf (σ p)
            /\ renamedFields replacements !! dName (σ p) = pluginFieldGroupOf (σ p)).
  { intros p Hp. specialize (Hin Hnd p Hp).
    unfold pluginEntriesOf, pluginIndexedEntries in Hin.
    cbn [renamedTypes renamedFields] in Hin. rewrite !lookup_empty in Hin.
    unfold pluginTypeInfoOf, pluginFieldGroupOf, groupAppended in *. cbn [fst snd] in Hin.
    destruct (isObjectKind (dKind (σ p))).
    - injection Hin as -> ->. split.
      + by destruct (marker (dDirectives (σ p))).
      + by destruct (pluginFieldInfosOf (σ p)).
    - by injection Hin as -> ->. }
  assert (Hnone : forall name, name ∉ map (fun p => dName (σ p)) types ->
            renamedTypes replacements !! name = None
            /\ renamedFields replacements !! name = None).
  { intros name Hname. specialize (Hother name Hname).
    unfold pluginEntriesOf in Hother. cbn in Hother. by injection Hother as -> ->. }
  assert (Hdom : forall name, is_Some (renamedTypes replacements !! name)
                              \/ is_Some (renamedFields replacements !! name) ->
                 exists p, p ∈ types /\ dName (σ p) = name).
  { intros name Hsome.
    destruct (decide (name ∈ map (fun p => dName (σ p)) types)) as [Hn|Hn].
    - apply list_elem_of_In, in_map_iff in Hn as (p & <- & Hp).
      exists p. split; [by apply list_elem_of_In | reflexivity].
    - destruct (Hnone name Hn) as [H1 H2]. rewrite H1, H2 in Hsome.
      destruct Hsome as [[? ?]|[? ?]]; discriminate. }
  split; [exact Hentries|]. split; [exact Hnone|]. split.
  - unfold hasObjectRenames. rewrite existsb_map_to_list. split.
    + intros (k & ti & Hl & Hk).
      destruct (Hdom k (or_introl (mk_is_Some _ _ Hl))) as (p & Hp & <-).
      destruct (Hentries p Hp) as [Ht _]. rewrite Hl in Ht.
      unfold pluginTypeInfoOf in Ht. exists p. split; [exact Hp|].
      destruct (isObjectKind (dKind (σ p))); [|discriminate].
      destruct (marker (dDirectives (σ p))) as [info|]; [|discriminate].
      injection Ht as ->. cbn in Hk. split; [|discriminate].
      by destruct (dKind (σ p)).
    + intros (p & Hp & Hk & Hm). destruct (Hentries p Hp) as [Ht _].
      unfold pluginTypeInfoOf in Ht. rewrite Hk in Ht. cbn [isObjectKind] in Ht.
      destruct (marker (dDirectives (σ p))) as [info|]; [|done].
      eexists _, _. split; [exact Ht|]. reflexivity.
  - unfold hasInputObjectFieldRenames. rewrite existsb_map_to_list. split.
    + intros (k & fg & Hl & Hk).
      destruct (Hdom k (or_intror (mk_is_Some _ _ Hl))) as (p & Hp & <-).
      destruct (Hentries p Hp) as [_ Hf]. rewrite Hl in Hf.
      unfold pluginFieldGroupOf in Hf. exists p. split; [exact Hp|].
      destruct (isObjectKind (dKind (σ p))); [|discriminate].
      destruct (pluginFieldInfosOf (σ p)) as [|i l]; [discriminate|].
      injection Hf as ->. cbn in Hk. split; [|discriminate].
      by destruct (dKind (σ p)).
    + intros (p & Hp & Hk & Hm). destruct (Hentries p Hp) as [_ Hf].
      unfold pluginFieldGroupOf in Hf. rewrite Hk in Hf. cbn [isObjectKind] in Hf.
      destruct (pluginFieldInfosOf (σ p)) as [|i l]; [done|].
      eexists _, _. split; [exact Hf|]. reflexivity.
Qed.

(** [Classroom] is a renamed object, [ContentKind] a renamed enum: the
    plugin records the first and leaves the second out. *)
Lemma getSchemaInfo_records_objects_and_inputs_witness :
  let σ := heapOf [Classroom; ContentKind] in
  let schema := schemaOf [Classroom; ContentKind] in
  exists replacements,
    _getSchemaInfo σ schema [1; 0]%nat = inl replacements
    /\ renamedTypes replacements !! "Classroom"
       = Some {| ti_kind := Object; ti_oldName := "StudentList";
                 ti_newName := "Classroom" |}
    /\ renamedTypes replacements !! "ContentKind" = None.
Proof.
  intros σ schema.
  assert (Hperm : [1; 0]%nat ≡ₚ Types schema) by apply perm_swap.
  assert (Hnd : NoDup (map (fun p => dName (σ p)) [1; 0]%nat)) by by_evaluation.
  destruct (_getSchemaInfo σ schema [1; 0]%nat) as [replacements|err] eqn:Hget;
    [|vm_compute in Hget; discriminate].
  exists replacements. split; [reflexivity|].
  pose proof (proj1 (getSchemaInfo_records_objects_and_inputs σ schema [1; 0]%nat
                       replacements Hperm Hnd Hget)) as H.
  split.
  - apply (H 0%nat). vm_compute. do 2 constructor.
  - apply (H 1%nat). vm_compute. constructor.
Defined.

End PluginProperties.

(** ** The metadata of an operation *)

Lemma hasCommonElement_lookup (a : list string) :
  forall (m : gmap string bool) x,
    default false (foldl (fun m x => <[x := true]> m) m a !! x)
    = default false (m !! x) || bool_decide (x ∈ a).
Proof.
  induction a as [|y a IH]; intros m x; cbn [foldl].
  - rewrite bool_decide_eq_false_2 by apply not_elem_of_nil. by rewrite orb_false_r.
  - rewrite IH. destruct (decide (y = x)) as [->|Hne].
    + rewrite lookup_insert_eq. cbn.
      rewrite bool_decide_eq_true_2 by (by left). by rewrite orb_true_r.
    + rewrite lookup_insert_ne by exact Hne. f_equal.
      apply bool_decide_ext. rewrite elem_of_cons.
      split; [by right | intros [Heq|Hin]; [congruence | exact Hin]].
Qed.

(** X22: _hasCommonElement(a, b) is true exactly when some string occurs in
    both slices, and it gives the same answer with its arguments exchanged. *)
Theorem hasCommonElement_iff :
  forall (a b : list string),
    (_hasCommonElement a b = true <-> exists x, x ∈ a /\ x ∈ b)
    /\ _hasCommonElement a b = _hasCommonElement b a.
Proof.
  assert (Hiff : forall a b, _hasCommonElement a b = true <-> exists x, x ∈ a /\ x ∈ b).
  { intros a b. unfold _hasCommonElement. rewrite existsb_exists. split.
    - intros (x & Hb & Hx). rewrite hasCommonElement_lookup, lookup_empty in Hx.
      cbn in Hx. apply bool_decide_eq_true in Hx. exists x.
      split; [exact Hx | by apply list_elem_of_In].
    - intros (x & Ha & Hb). exists x. split; [by apply list_elem_of_In|].
      rewrite hasCommonElement_lookup, lookup_empty. cbn.
      by apply bool_decide_eq_true. }
  intros a b. split; [apply Hiff|].
  destruct (_hasCommonElement a b) eqn:Hab, (_hasCommonElement b a) eqn:Hba; try reflexivity.
  - apply Hiff in Hab as (x & ? & ?). apply not_true_iff_false in Hba.
    exfalso. apply Hba, Hiff. by exists x.
  - apply Hiff in Hba as (x & ? & ?). apply not_true_iff_false in Hab.
    exfalso. apply Hab, Hiff. by exists x.
Qed.

Lemma Selection_nested_ind (P : Selection -> Prop) :
  (forall alias name object definition selectionSet,
      Forall P selectionSet -> P (Field alias name object definition selectionSet)) ->
  (forall selectionSet, Forall P selectionSet -> P (FragmentSpread selectionSet)) ->
  (forall selectionSet, Forall P selectionSet -> P (InlineFragment selectionSet)) ->
  forall selection, P selection.
Proof.
  intros Hf Hs Hi. fix IH 1. intros [alias name object definition sel | sel | sel].
  - apply Hf. induction sel as [|x l IHl]; constructor; [apply IH | exact IHl].
  - apply Hs. induction sel as [|x l IHl]; constructor; [apply IH | exact IHl].
  - apply Hi. induction sel as [|x l IHl]; constructor; [apply IH | exact IHl].
Qed.

Lemma aliasedNames_cons s l : aliasedNames (s :: l) = aliasedNames [s] ++ aliasedNames l.
Proof. unfold aliasedNames. cbn. by rewrite app_nil_r, flat_map_app. Qed.

Lemma plainNames_cons s l : plainNames (s :: l) = plainNames [s] ++ plainNames l.
Proof. unfold plainNames. cbn. by rewrite app_nil_r, flat_map_app. Qed.

Lemma fold_selectionAdds selectionSet :
  Forall (fun s => forall st, processSelectionMetadata s st = selectionAdds s st)
    selectionSet ->
  forall st,
    fold_left (fun st s => processSelectionMetadata s st) selectionSet st
    = selectionSetAdds selectionSet st.
Proof.
  induction 1 as [|s l Hs Hl IH]; intros [m a]; cbn [fold_left].
  - unfold selectionSetAdds, aliasedNames, plainNames. cbn.
    rewrite !orb_false_r, !app_nil_r. by destruct m, a.
  - rewrite Hs, IH. unfold selectionSetAdds, selectionAdds. cbn [fst snd existsb
      HasCanaryFields HasSideBySideFields HasMixedAliases aliasFields nonAliasFields].
    rewrite (aliasedNames_cons s l), (plainNames_cons s l).
    by rewrite !orb_assoc, !app_assoc.
Qed.

Lemma processSelectionMetadata_spec selection :
  forall st, processSelectionMetadata selection st = selectionAdds selection st.
Proof.
  induction selection as [alias name object definition sel IH | sel IH | sel IH]
    using Selection_nested_ind; intros [m a].
  - cbn [processSelectionMetadata]. rewrite (fold_selectionAdds sel IH).
    unfold selectionAdds, selectionSetAdds, withCommonElement, canaryFlag, sideBySideFlag.
    cbn [fst snd anyField mixedBelow HasCanaryFields HasSideBySideFields HasMixedAliases
         aliasFields nonAliasFields zeroMetadata new_aliasFields orb app].
    destruct (migrateState (fDirectives definition)) as [isCanary isSideBySide]. cbn [fst snd].
    unfold aliasedNames, plainNames. cbn [flat_map levelFields app].
    f_equal.
    + f_equal.
      * by rewrite orb_assoc.
      * rewrite (orb_comm isSideBySide). by rewrite orb_assoc.
    + destruct (negb (String.eqb alias name)); cbn; by rewrite ?app_nil_r.
  - cbn [processSelectionMetadata]. rewrite (fold_selectionAdds sel IH).
    unfold selectionAdds, selectionSetAdds.
    cbn [fst snd anyField mixedBelow aliasFields nonAliasFields].
    rewrite !orb_false_r. f_equal; [by destruct m|].
    unfold aliasedNames, plainNames. cbn [flat_map levelFields]. by rewrite !app_nil_r.
  - cbn [processSelectionMetadata]. rewrite (fold_selectionAdds sel IH).
    unfold selectionAdds, selectionSetAdds.
    cbn [fst snd anyField mixedBelow aliasFields nonAliasFields].
    rewrite !orb_false_r. f_equal; [by destruct m|].
    unfold aliasedNames, plainNames. cbn [flat_map levelFields]. by rewrite !app_nil_r.
Qed.

Lemma processSelectionSetMetadata_spec selectionSet aliasInfo :
  processSelectionSetMetadata selectionSet aliasInfo
  = let aliasInfo' :=
      {| aliasFields := aliasFields aliasInfo ++ aliasedNames selectionSet;
         nonAliasFields := nonAliasFields aliasInfo ++ plainNames selectionSet |} in
    ({| HasCanaryFields := existsb (anyField canaryFlag) selectionSet;
        HasSideBySideFields := existsb (anyField sideBySideFlag) selectionSet;
        HasMixedAliases :=
          existsb mixedBelow selectionSet
          || _hasCommonElement (aliasFields aliasInfo') (nonAliasFields aliasInfo') |},
     aliasInfo').
Proof.
  unfold processSelectionSetMetadata.
  rewrite fold_selectionAdds
    by (apply List.Forall_forall; intros s _; apply processSelectionMetadata_spec).
  reflexivity.
Qed.

(** The queries of TestHasMixedAliasesInFragment,
    TestNoMetadataMixedAliasesAtDifferentLevels and TestHasCanaryNested;
    the flags do not read the object a field is selected on. *)
Example metadata_tests :
  let testType := object "TestType" [] [] None in
  let selected name directives below :=
    Field name name testType (field name String_ directives) below in
  let renamed alias name := Field alias name testType (field name String_ []) [] in
  let migrate state :=
    [{| dirName := "migrate";
        dirArguments := [stringArgument "from" "python"; stringArgument "state" state] |}] in
  (processSelectionSetMetadata
     [selected "testType" []
        [selected "scalarField" [] [];
         InlineFragment [renamed "rename" "scalarField"]]]
     new_aliasFields).1
  = {| HasCanaryFields := false; HasSideBySideFields := false; HasMixedAliases := true |}
  /\ (processSelectionSetMetadata
        [selected "testType" []
           [selected "objectField" [] [selected "scalarField" [] []];
            renamed "rename" "scalarField"]]
        new_aliasFields).1
     = zeroMetadata
  /\ (processSelectionSetMetadata
        [selected "testType" []
           [selected "objectField" []
              [selected "canaryField" (migrate "canary") []]]]
        new_aliasFields).1
     = {| HasCanaryFields := true; HasSideBySideFields := false; HasMixedAliases := false |}.
Proof. vm_compute. repeat split. Qed.

Lemma migrateState_exclusive directives :
  canaryFlag directives && sideBySideFlag directives = false.
Proof.
  unfold canaryFlag, sideBySideFlag, migrateState.
  assert (H : forall st : bool * bool, st.1 && st.2 = false ->
            let st' := foldl (fun '((isCanary, isSideBySide) : bool * bool) directive =>
                         if String.eqb (dirName directive) "migrate" then
                           match ArgumentList_ForName (dirArguments directive) "state" with
                           | Some argument =>
                               (String.eqb (Raw (argValue argument)) "canary",
                                String.eqb (Raw (argValue argument)) "side-by-side")
                           | None => (isCanary, isSideBySide)
                           end
                         else (isCanary, isSideBySide)) st directives in
            st'.1 && st'.2 = false).
  { induction directives as [|d l IH]; intros [c s] Hst; cbn [foldl]; [exact Hst|].
    apply IH. destruct (String.eqb (dirName d) "migrate"); [|exact Hst].
    destruct (ArgumentList_ForName (dirArguments d) "state") as [arg|]; [|exact Hst].
    cbn [fst snd]. destruct (String.eqb_spec (Raw (argValue arg)) "canary") as [->|];
      reflexivity. }
  by apply H.
Qed.

(** X23: HasCanaryFields (HasSideBySideFields) of a selection set is true
    exactly when some field reached through nested field selections, not
    through fragments, has the migrate state canary (side-by-side) on its
    definition, the last migrate directive with a state argument deciding;
    no field has both states; a selection set that consists of one fragment
    spread or inline fragment has neither flag whatever the fragment
    selects, because the metadata returned for a fragment is discarded. *)
Theorem metadata_flags_follow_fields :
  forall (selectionSet : SelectionSet) (aliasInfo : _aliasFields),
    let metadata := (processSelectionSetMetadata selectionSet aliasInfo).1 in
    HasCanaryFields metadata = existsb (anyField canaryFlag) selectionSet
    /\ HasSideBySideFields metadata = existsb (anyField sideBySideFlag) selectionSet
    /\ (forall directives, canaryFlag directives && sideBySideFlag directives = false)
    /\ (forall inner,
          let viaSpread := (processSelectionSetMetadata [FragmentSpread inner] aliasInfo).1 in
          let viaInline := (processSelectionSetMetadata [InlineFragment inner] aliasInfo).1 in
          HasCanaryFields viaSpread = false /\ HasSideBySideFields viaSpread = false
          /\ HasCanaryFields viaInline = false /\ HasSideBySideFields viaInline = false).
Proof.
  intros selectionSet aliasInfo metadata. subst metadata.
  rewrite processSelectionSetMetadata_spec. cbn [fst HasCanaryFields HasSideBySideFields].
  split; [reflexivity|]. split; [reflexivity|]. split; [apply migrateState_exclusive|].
  intros inner. cbn zeta. rewrite !processSelectionSetMetadata_spec. by cbn.
Qed.

(** X24: Starting from fresh alias bookkeeping, HasMixedAliases is true
    exactly when, in the selection set itself or in the selection set of
    some field reached through nested fields, one field name is selected
    both under an alias and without one, where the fields inside fragment
    spreads and inline fragments count as fields of the enclosing selection
    set; mixed aliases below a field that stands inside a fragment are not
    reported. *)
Theorem mixed_aliases_are_found_through_fragments :
  forall (selectionSet : SelectionSet),
    HasMixedAliases (processSelectionSetMetadata selectionSet new_aliasFields).1 = true
    <-> existsb mixedBelow selectionSet = true
        \/ exists alias name,
             (alias, name) ∈ flat_map levelFields selectionSet /\ alias <> name
             /\ (name, name) ∈ flat_map levelFields selectionSet.
Proof.
  intros selectionSet. rewrite processSelectionSetMetadata_spec.
  cbn [fst HasMixedAliases aliasFields nonAliasFields new_aliasFields app].
  rewrite orb_true_iff.
  assert (Hcommon : _hasCommonElement (aliasedNames selectionSet) (plainNames selectionSet)
                    = true
                    <-> exists alias name,
                          (alias, name) ∈ flat_map levelFields selectionSet /\ alias <> name
                          /\ (name, name) ∈ flat_map levelFields selectionSet).
  { unfold _hasCommonElement. rewrite existsb_exists. unfold aliasedNames, plainNames. split.
    - intros (x & Hb & Hx). rewrite hasCommonElement_lookup, lookup_empty in Hx.
      cbn in Hx. apply bool_decide_eq_true in Hx.
      apply list_elem_of_In, in_flat_map in Hx as ([a n] & Ha & Hn).
      apply in_flat_map in Hb as ([a' n'] & Ha' & Hn').
      destruct (String.eqb_spec a n) as [->|Hne]; cbn in Hn; [by destruct Hn|].
      destruct Hn as [<-|[]].
      destruct (String.eqb_spec a' n') as [->|]; cbn in Hn'; [|by destruct Hn'].
      destruct Hn' as [->|[]].
      exists a, n. by rewrite !list_elem_of_In.
    - intros (a & n & Ha & Hne & Hn). exists n. split.
      + apply in_flat_map. exists (n, n). split; [by apply list_elem_of_In|].
        rewrite String.eqb_refl. by left.
      + rewrite hasCommonElement_lookup, lookup_empty. cbn.
        apply bool_decide_eq_true, list_elem_of_In, in_flat_map.
        exists (a, n). split; [by apply list_elem_of_In|].
        apply String.eqb_neq in Hne. rewrite Hne. by left. }
  by rewrite Hcommon.
Qed.

Section ServicesProperties.
Import OperationFixtures.

Example services_tests :
  ServicesForOperation 2 composed [interfaceMultipleServices]
  = Returns (inl ["serviceA"; "serviceB"])
  /\ ServicesForOperation 2 composed [interfaceInlineFragment]
     = Returns (inl ["serviceA"; "serviceB"])
  /\ ServicesForOperation 1 composed [interfaceMultipleServices] = OutOfFuel.
Proof. vm_compute. repeat split. Qed.

(** ** The services of an operation *)

Lemma andThen_Returns {A B} (o : Outcome A) (f : A -> Outcome B) b :
  andThen o f = Returns b <-> exists a, o = Returns a /\ f a = Returns b.
Proof.
  destruct o as [a| |]; cbn; split; try discriminate.
  - intros H. by exists a.
  - by intros (a' & [= <-] & H).
  - by intros (? & ? & _).
  - by intros (? & ? & _).
Qed.

Lemma servicesOfAll_from {A} (f : A -> Outcome uniqueServices) l :
  forall acc,
    fold_left (fun acc s =>
                 andThen acc (fun services =>
                 andThen (f s) (fun more => Returns (services ∪ more)))) l acc
    = andThen acc (fun services =>
      andThen (servicesOfAll f l) (fun more => Returns (services ∪ more))).
Proof.
  unfold servicesOfAll. induction l as [|x l IH]; intros acc; cbn [fold_left].
  - destruct acc as [a| |]; cbn; [|reflexivity..]. by rewrite (right_id_L ∅ (∪)).
  - rewrite IH. rewrite (IH (andThen (Returns ∅) _)).
    destruct acc as [a| |]; cbn; [|reflexivity..].
    destruct (f x) as [b| |]; cbn; [|reflexivity..].
    destruct (fold_left _ l (Returns ∅)) as [c| |]; cbn; [|reflexivity..].
    by rewrite (left_id_L ∅ (∪)), (assoc_L (∪)).
Qed.

Lemma servicesOfAll_cons {A} (f : A -> Outcome uniqueServices) x l :
  servicesOfAll f (x :: l)
  = andThen (f x) (fun services =>
    andThen (servicesOfAll f l) (fun more => Returns (services ∪ more))).
Proof.
  unfold servicesOfAll at 1. cbn [fold_left]. rewrite servicesOfAll_from. cbn.
  destruct (f x) as [b| |]; cbn; [|reflexivity..].
  destruct (servicesOfAll f l) as [c| |]; cbn; [|reflexivity..].
  by rewrite (left_id_L ∅ (∪)).
Qed.

Lemma servicesOfAll_app {A} (f : A -> Outcome uniqueServices) l1 l2 :
  servicesOfAll f (l1 ++ l2)
  = andThen (servicesOfAll f l1) (fun services =>
    andThen (servicesOfAll f l2) (fun more => Returns (services ∪ more))).
Proof.
  unfold servicesOfAll at 1. rewrite fold_left_app.
  fold (servicesOfAll f l1). by rewrite servicesOfAll_from.
Qed.

Lemma servicesOfAll_flat_map {A B} (f : A -> Outcome uniqueServices)
    (g : B -> Outcome uniqueServices) (h : A -> list B) l :
  Forall (fun x => f x = servicesOfAll g (h x)) l ->
  servicesOfAll f l = servicesOfAll g (flat_map h l).
Proof.
  induction 1 as [|x l Hx Hl IH]; [reflexivity|].
  cbn [flat_map]. by rewrite servicesOfAll_cons, servicesOfAll_app, Hx, IH.
Qed.

Lemma servicesOfAll_ext {A} (f g : A -> Outcome uniqueServices) l :
  (forall x, x ∈ l -> f x = g x) -> servicesOfAll f l = servicesOfAll g l.
Proof.
  induction l as [|x l IH]; intros Hfg; [reflexivity|].
  rewrite !servicesOfAll_cons, Hfg by (by left).
  rewrite IH; [reflexivity|]. intros y Hy. apply Hfg. by right.
Qed.

Lemma servicesOfAll_Returns {A} (f : A -> Outcome uniqueServices) l X :
  servicesOfAll f l = Returns X ->
  (forall x, x ∈ l -> exists part, f x = Returns part /\ part ⊆ X)
  /\ (forall s, s ∈ X -> exists x part, x ∈ l /\ f x = Returns part /\ s ∈ part).
Proof.
  revert X. induction l as [|x l IH]; intros X.
  - intros [= <-]. split; [by intros x ?%elem_of_nil|]. by intros s ?%elem_of_empty.
  - rewrite servicesOfAll_cons.
    intros (a & Ha & (b & Hb & [= <-])%andThen_Returns)%andThen_Returns.
    destruct (IH b Hb) as [Hall Hfrom]. split.
    + intros y [->|Hy]%elem_of_cons.
      * exists a. split; [exact Ha | apply union_subseteq_l].
      * destruct (Hall y Hy) as (part & Hpart & Hsub).
        exists part. split; [exact Hpart|].
        etrans; [exact Hsub | apply union_subseteq_r].
    + intros s [Hs|Hs]%elem_of_union.
      * exists x, a. split; [by left | by split].
      * destruct (Hfrom s Hs) as (y & part & Hy & Hpart & Hin).
        exists y, part. split; [by right | by split].
Qed.

Lemma servicesOfAll_not_OutOfFuel {A} (f : A -> Outcome uniqueServices) l :
  (forall x, x ∈ l -> f x <> OutOfFuel) -> servicesOfAll f l <> OutOfFuel.
Proof.
  induction l as [|x l IH]; intros Hf; [discriminate|].
  rewrite servicesOfAll_cons.
  assert (Hx : f x <> OutOfFuel) by (apply Hf; by left).
  assert (Hl : servicesOfAll f l <> OutOfFuel) by (apply IH; intros y Hy; apply Hf; by right).
  destruct (f x); cbn; [|discriminate|done].
  destruct (servicesOfAll f l); cbn; [discriminate|discriminate|done].
Qed.

Lemma selectionServices_reached fuel schema selection :
  selectionServices fuel schema selection
  = servicesOfAll (fieldServices fuel schema) (reachedFields selection).
Proof.
  induction selection as [alias name object definition sel IH | sel IH | sel IH]
    using Selection_nested_ind.
  - cbn [selectionServices reachedFields].
    rewrite servicesOfAll_cons, (servicesOfAll_flat_map _ _ _ _ IH).
    unfold fieldServices. cbn [fst snd].
    destruct (servicesForType schema object) as [os| |]; cbn; [|reflexivity..].
    destruct (serviceForField fuel schema object definition) as [fs| |]; cbn;
      reflexivity.
  - cbn [selectionServices reachedFields]. by apply servicesOfAll_flat_map.
  - cbn [selectionServices reachedFields]. by apply servicesOfAll_flat_map.
Qed.

Lemma processSelectionSet_reached fuel schema selectionSet :
  processSelectionSet fuel schema selectionSet
  = servicesOfAll (fieldServices fuel schema) (flat_map reachedFields selectionSet).
Proof.
  unfold processSelectionSet. apply servicesOfAll_flat_map, List.Forall_forall.
  intros s _. apply selectionServices_reached.
Qed.

(** X26: processSelectionSet computes the union, over all fields reached
    below fields and through fragment spreads and inline fragments, taken in
    source order, of the owners of the possible types of the field's object
    and of the field's own service; replacing a fragment spread or an inline
    fragment by its selections therefore changes nothing, neither the set
    returned nor a panic. *)
Theorem services_are_those_of_the_reached_fields :
  forall (fuel : nat) (schema : ComposedSchema) (selectionSet : SelectionSet),
    processSelectionSet fuel schema selectionSet
    = servicesOfAll (fieldServices fuel schema) (flat_map reachedFields selectionSet)
    /\ (forall (before inner after : SelectionSet),
          processSelectionSet fuel schema (before ++ FragmentSpread inner :: after)
          = processSelectionSet fuel schema (before ++ inner ++ after)
          /\ processSelectionSet fuel schema (before ++ InlineFragment inner :: after)
             = processSelectionSet fuel schema (before ++ inner ++ after)).
Proof.
  intros fuel schema selectionSet. split; [apply processSelectionSet_reached|].
  intros before inner after. rewrite !processSelectionSet_reached.
  rewrite !flat_map_app. cbn [flat_map reachedFields]. by split.
Qed.

Lemma servicesOfAll_Permutation {A} (f : A -> Outcome uniqueServices) l1 l2 :
  l1 ≡ₚ l2 ->
  forall X, servicesOfAll f l1 = Returns X <-> servicesOfAll f l2 = Returns X.
Proof.
  induction 1 as [|x l1 l2 Hl IH|x y l|l1 l2 l3 H12 IH12 H23 IH23]; intros X.
  - reflexivity.
  - rewrite !servicesOfAll_cons, !andThen_Returns.
    split; intros (a & Ha & (b & Hb & HX)%andThen_Returns); exists a;
      (split; [exact Ha|]); apply andThen_Returns; exists b;
      (split; [by apply IH | exact HX]).
  - rewrite !servicesOfAll_cons.
    destruct (f x) as [a| |], (f y) as [b| |]; cbn; try (split; discriminate).
    destruct (servicesOfAll f l) as [c| |]; cbn; try (split; discriminate).
    by rewrite !(assoc_L (∪)), (comm_L (∪) a b).
  - by rewrite IH12.
Qed.

Lemma sort_Strings_strict (l : list string) :
  NoDup l ->
  StronglySorted (fun a b => String.ltb a b = true) (sort_Strings l)
  /\ sort_Strings l ≡ₚ l.
Proof.
  intros Hnd.
  assert (Hperm : sort_Strings l ≡ₚ l)
    by apply (sort_Slice_Permutation (fun s : string => s)).
  split; [|exact Hperm].
  apply (StronglySorted_strict (notAfter (fun s : string => s))).
  - unfold notAfter, lessBy. intros x y Hyx Hne.
    destruct (String.ltb x y) eqn:Hxy; [reflexivity|].
    exfalso. apply Hne. by apply ltb_total.
  - apply (sort_Slice_StronglySorted (fun s : string => s)).
  - by rewrite Hperm.
Qed.

Lemma foldl_andThen_Panics {A B} (step : A -> B -> Outcome A) l :
  foldl (fun acc x => andThen acc (fun a => step a x)) Panics l = Panics.
Proof. induction l as [|x l IH]; [reflexivity | exact IH]. Qed.

Lemma foldl_andThen_OutOfFuel {A B} (step : A -> B -> Outcome A) l :
  foldl (fun acc x => andThen acc (fun a => step a x)) OutOfFuel l = OutOfFuel.
Proof. induction l as [|x l IH]; [reflexivity | exact IH]. Qed.

(** A loop that a panic ends keeps what held at its start and at each step. *)
Lemma foldl_andThen_invariant {A B} (step : A -> B -> Outcome A)
    (Inv : list B -> A -> Prop) l :
  forall done a a',
    Inv done a ->
    (forall done a x a', x ∈ l -> Inv done a -> step a x = Returns a' ->
                         Inv (done ++ [x]) a') ->
    foldl (fun acc x => andThen acc (fun a => step a x)) (Returns a) l = Returns a' ->
    Inv (done ++ l) a'.
Proof.
  induction l as [|x l IH]; intros done a a' Hinv Hstep; cbn [foldl].
  - intros [= <-]. by rewrite app_nil_r.
  - cbn [andThen]. destruct (step a x) as [b| |] eqn:Hb.
    + intros Hfold. rewrite (cons_middle x done l), app_assoc.
      apply (IH _ b); [|intros ? ? y ? Hy; apply Hstep; by right|exact Hfold].
      apply (Hstep done a); [by left | exact Hinv | exact Hb].
    + by rewrite foldl_andThen_Panics.
    + by rewrite foldl_andThen_OutOfFuel.
Qed.

Lemma foldl_andThen_not_OutOfFuel {A B} (step : A -> B -> Outcome A) l :
  (forall a x, x ∈ l -> step a x <> OutOfFuel) ->
  forall acc, acc <> OutOfFuel ->
    foldl (fun acc x => andThen acc (fun a => step a x)) acc l <> OutOfFuel.
Proof.
  induction l as [|x l IH]; intros Hstep acc Hacc; cbn [foldl]; [exact Hacc|].
  apply IH; [intros a y Hy; apply Hstep; by right|].
  destruct acc as [a| |]; cbn; [apply Hstep; by left | discriminate | done].
Qed.

Lemma foldl_andThen_ext {A B} (step step' : A -> B -> Outcome A) l :
  (forall a x, x ∈ l -> step a x = step' a x) ->
  forall acc,
    foldl (fun acc x => andThen acc (fun a => step a x)) acc l
    = foldl (fun acc x => andThen acc (fun a => step' a x)) acc l.
Proof.
  induction l as [|x l IH]; intros Hstep acc; cbn [foldl]; [reflexivity|].
  rewrite IH by (intros a y Hy; apply Hstep; by right).
  f_equal. destruct acc as [a| |]; cbn; [apply Hstep; by left | reflexivity..].
Qed.

Lemma serviceNameFromEnum_not_OutOfFuel schema enumName :
  serviceNameFromEnum schema enumName <> OutOfFuel.
Proof.
  unfold serviceNameFromEnum. destruct (cTypes schema !! "join__Graph"); [|discriminate].
  by destruct (firstHit _ _).
Qed.

Lemma serviceForConcreteType_not_OutOfFuel schema d :
  serviceForConcreteType schema d <> OutOfFuel.
Proof.
  unfold serviceForConcreteType. destruct (directiveArgument _ _ _); [|discriminate].
  apply serviceNameFromEnum_not_OutOfFuel.
Qed.

Lemma servicesForType_not_OutOfFuel schema d : servicesForType schema d <> OutOfFuel.
Proof.
  unfold servicesForType.
  apply (foldl_andThen_not_OutOfFuel
           (fun services concreteType =>
              andThen (serviceForConcreteType schema concreteType) (fun service =>
              Returns (if negb (String.eqb service "") then services ++ [service]
                       else services)))); [|discriminate].
  intros a x _. pose proof (serviceForConcreteType_not_OutOfFuel schema x).
  by destruct (serviceForConcreteType schema x).
Qed.

Lemma servicesForType_named schema d services :
  servicesForType schema d = Returns services -> "" ∉ services.
Proof.
  unfold servicesForType. intros Hfold.
  apply (foldl_andThen_invariant
           (fun services concreteType =>
              andThen (serviceForConcreteType schema concreteType) (fun service =>
              Returns (if negb (String.eqb service "") then services ++ [service]
                       else services)))
           (fun _ services => "" ∉ services) _ [] [] services) in Hfold;
    [exact Hfold | apply not_elem_of_nil|].
  intros _ a x a' _ Ha (s & _ & [= <-])%andThen_Returns.
  destruct (String.eqb_spec s "") as [->|Hne]; cbn; [exact Ha|].
  rewrite not_elem_of_app, list_elem_of_singleton. split; [exact Ha | congruence].
Qed.

Lemma fieldServices_named fuel schema reached part :
  fieldServices fuel schema reached = Returns part -> "" ∉ part.
Proof.
  unfold fieldServices.
  intros (os & Hos%servicesForType_named & (fs & _ & [= <-])%andThen_Returns)%andThen_Returns.
  rewrite not_elem_of_union, elem_of_list_to_set. split; [exact Hos|].
  destruct (String.eqb_spec fs "") as [->|Hne]; cbn; [apply not_elem_of_empty|].
  rewrite elem_of_singleton. congruence.
Qed.

(** X27: When ServicesForOperation returns a list, the list is strictly
    ascending (so without duplicates), never contains the empty service name
    and holds exactly the services found by processSelectionSet for the
    single operation; it returns the Internal error 'each query must contain
    exactly one operation' exactly when the loaded query does not have
    exactly one operation. *)
Theorem services_are_listed_once_in_order :
  forall (fuel : nat) (schema : ComposedSchema) (operations : list SelectionSet),
    match ServicesForOperation fuel schema operations with
    | Returns (inl services) =>
        StronglySorted (fun a b => String.ltb a b = true) services
        /\ ("" ∉ services)
        /\ exists operation found,
             operations = [operation]
             /\ processSelectionSet fuel schema operation = Returns found
             /\ forall service, service ∈ services <-> service ∈ found
    | Returns (inr err) =>
        length operations <> 1
        /\ err = Wrap kind.Internal "each query must contain exactly one operation"
    | Panics | OutOfFuel => length operations = 1
    end.
Proof.
  intros fuel schema [|operation [|second rest]]; cbn [ServicesForOperation];
    [by split | | by split].
  destruct (processSelectionSet fuel schema operation) as [found| |] eqn:Hfound;
    cbn [andThen]; [|reflexivity..].
  destruct (sort_Strings_strict (elements found)) as [Hsorted Hperm];
    [apply NoDup_elements|].
  split; [exact Hsorted|].
  assert (Hin : forall service,
             service ∈ sort_Strings (elements found) <-> service ∈ found).
  { intros service. by rewrite Hperm, elem_of_elements. }
  split; [|by exists operation, found].
  rewrite Hin. intros Hempty.
  rewrite processSelectionSet_reached in Hfound.
  apply servicesOfAll_Returns in Hfound as [_ Hfrom].
  destruct (Hfrom _ Hempty) as (reached & part & _ & Hpart & Hs).
  by apply fieldServices_named in Hpart.
Qed.

(** X28: Reordering the selections of a selection set changes neither
    whether processSelectionSet returns nor the set of services it returns,
    and so not the list that ServicesForOperation returns. *)
Theorem services_do_not_depend_on_selection_order :
  forall (fuel : nat) (schema : ComposedSchema) (first second : SelectionSet),
    first ≡ₚ second ->
    (forall found, processSelectionSet fuel schema first = Returns found
                   <-> processSelectionSet fuel schema second = Returns found)
    /\ (forall result, ServicesForOperation fuel schema [first] = Returns result
                       <-> ServicesForOperation fuel schema [second] = Returns result).
Proof.
  intros fuel schema first second Hperm.
  assert (Hsets : forall found,
             processSelectionSet fuel schema first = Returns found
             <-> processSelectionSet fuel schema second = Returns found).
  { intros found. unfold processSelectionSet. by apply servicesOfAll_Permutation. }
  split; [exact Hsets|]. intros result. cbn [ServicesForOperation].
  rewrite !andThen_Returns.
  split; intros (found & Hfound & Hresult); exists found;
    (split; [by apply Hsets | exact Hresult]).
Qed.

Lemma services_do_not_depend_on_selection_order_witness :
  let first := [selected SameServiceOwnerInterface "serviceAField" [];
                selected SameServiceOwnerInterface "serviceBField" []] in
  let second := [selected SameServiceOwnerInterface "serviceBField" [];
                 selected SameServiceOwnerInterface "serviceAField" []] in
  first ≡ₚ second
  /\ ServicesForOperation 2 composed [first] = Returns (inl ["serviceA"; "serviceB"])
  /\ ServicesForOperation 2 composed [second] = Returns (inl ["serviceA"; "serviceB"]).
Proof.
  cbn zeta.
  assert (Hperm : [selected SameServiceOwnerInterface "serviceAField" [];
                   selected SameServiceOwnerInterface "serviceBField" []]
                  ≡ₚ [selected SameServiceOwnerInterface "serviceBField" [];
                      selected SameServiceOwnerInterface "serviceAField" []])
    by apply perm_swap.
  split; [exact Hperm|].
  assert (Hfirst : ServicesForOperation 2 composed
                     [[selected SameServiceOwnerInterface "serviceAField" [];
                       selected SameServiceOwnerInterface "serviceBField" []]]
                   = Returns (inl ["serviceA"; "serviceB"])) by (vm_compute; reflexivity).
  split; [exact Hfirst|].
  exact (proj1 (proj2 (services_do_not_depend_on_selection_order 2 composed _ _ Hperm) _)
           Hfirst).
Defined.

Lemma DefinitionKind_eqb_Interface k :
  DefinitionKind_eqb k Interface = true <-> k = Interface.
Proof. by destruct k. Qed.

Lemma serviceForField_concrete fuel schema d field :
  dKind d <> Interface ->
  serviceForField (S fuel) schema d field = serviceForField 1 schema d field
  /\ serviceForField 1 schema d field <> OutOfFuel.
Proof.
  intros Hkind. cbn [serviceForField].
  destruct (DefinitionKind_eqb (dKind d) Interface) eqn:Hk;
    [by apply DefinitionKind_eqb_Interface in Hk|].
  split; [reflexivity|].
  destruct (directiveArgument _ _ _); [|discriminate].
  apply serviceNameFromEnum_not_OutOfFuel.
Qed.

Lemma serviceForInterfaceField_with_ext forField forField' schema d fieldName :
  (forall t field, t ∈ default [] (PossibleTypes schema !! dName d) ->
                   forField t field = forField' t field) ->
  serviceForInterfaceField_with forField schema d fieldName
  = serviceForInterfaceField_with forField' schema d fieldName.
Proof.
  intros Hext. unfold serviceForInterfaceField_with. f_equal.
  apply (foldl_andThen_ext (interfaceFieldStep forField fieldName)
           (interfaceFieldStep forField' fieldName)).
  intros [service previous] t Ht. unfold interfaceFieldStep.
  destruct (List.find _ _); [|reflexivity]. by rewrite Hext.
Qed.

Lemma serviceForInterfaceField_with_not_OutOfFuel forField schema d fieldName :
  (forall t field, t ∈ default [] (PossibleTypes schema !! dName d) ->
                   forField t field <> OutOfFuel) ->
  serviceForInterfaceField_with forField schema d fieldName <> OutOfFuel.
Proof.
  intros Hfor. unfold serviceForInterfaceField_with.
  match goal with |- andThen ?o _ <> _ => assert (Ho : o <> OutOfFuel) end.
  { apply (foldl_andThen_not_OutOfFuel (interfaceFieldStep forField fieldName));
      [|discriminate].
    intros [service previous] t Ht. unfold interfaceFieldStep.
    destruct (List.find _ _) as [field|]; [|discriminate].
    pose proof (Hfor t field Ht). destruct (forField t field); cbn; [|discriminate|done].
    by destruct (_ && _). }
  match goal with |- andThen ?o _ <> _ => destruct o end; cbn; [discriminate..|done].
Qed.

Lemma possible_concrete schema name :
  concretePossibleTypes schema ->
  Forall (fun t => dKind t <> Interface) (default [] (PossibleTypes schema !! name)).
Proof.
  intros Hflat. destruct (PossibleTypes schema !! name) as [types|] eqn:Htypes; cbn.
  - by apply (Hflat name).
  - constructor.
Qed.

Lemma serviceForField_two fuel schema d field :
  concretePossibleTypes schema ->
  serviceForField (S (S fuel)) schema d field = serviceForField 2 schema d field
  /\ serviceForField 2 schema d field <> OutOfFuel.
Proof.
  intros Hflat.
  destruct (DefinitionKind_eqb (dKind d) Interface) eqn:Hk;
    [apply DefinitionKind_eqb_Interface in Hk as Hkind
    |assert (Hkind : dKind d <> Interface)
       by (intros Heq%DefinitionKind_eqb_Interface; congruence)].
  - pose proof (possible_concrete schema (dName d) Hflat) as Hconcrete.
    rewrite List.Forall_forall in Hconcrete.
    cbn [serviceForField]. rewrite (proj2 (DefinitionKind_eqb_Interface _) Hkind).
    split.
    + apply serviceForInterfaceField_with_ext. intros t f Ht.
      apply serviceForField_concrete, Hconcrete. by apply list_elem_of_In.
    + apply serviceForInterfaceField_with_not_OutOfFuel. intros t f Ht.
      apply (serviceForField_concrete 0), Hconcrete. by apply list_elem_of_In.
  - destruct (serviceForField_concrete (S fuel) schema d field Hkind) as [-> Hne].
    destruct (serviceForField_concrete 1 schema d field Hkind) as [-> _].
    by split.
Qed.

(** X29: On a composed schema in which no interface is listed among the
    possible types of any type, the recursion of serviceForField through
    serviceForInterfaceField is at most two calls deep: ServicesForOperation
    terminates (it returns or panics), with the same outcome for every bound
    of at least two on the depth of that recursion. *)
Theorem services_need_two_levels :
  forall (schema : ComposedSchema) (fuel : nat) (operations : list SelectionSet),
    concretePossibleTypes schema ->
    2 <= fuel ->
    ServicesForOperation fuel schema operations = ServicesForOperation 2 schema operations
    /\ ServicesForOperation 2 schema operations <> OutOfFuel.
Proof.
  intros schema fuel operations Hflat Hfuel.
  destruct fuel as [|[|fuel]]; [lia..|].
  assert (Hfield : forall reached,
             fieldServices (S (S fuel)) schema reached = fieldServices 2 schema reached
             /\ fieldServices 2 schema reached <> OutOfFuel).
  { intros [d field]. unfold fieldServices. cbn [fst snd].
    destruct (serviceForField_two fuel schema d field Hflat) as [-> Hne].
    split; [reflexivity|].
    pose proof (servicesForType_not_OutOfFuel schema d).
    destruct (servicesForType schema d); cbn [andThen]; [|discriminate|done].
    destruct (serviceForField 2 schema d field); cbn [andThen];
      [discriminate|discriminate|done]. }
  assert (Hset : forall operation,
             processSelectionSet (S (S fuel)) schema operation
             = processSelectionSet 2 schema operation
             /\ processSelectionSet 2 schema operation <> OutOfFuel).
  { intros operation. rewrite !processSelectionSet_reached. split.
    - apply servicesOfAll_ext. intros reached _. apply Hfield.
    - apply servicesOfAll_not_OutOfFuel. intros reached _. apply Hfield. }
  destruct operations as [|operation [|second rest]]; cbn [ServicesForOperation];
    [by split | | by split].
  destruct (Hset operation) as [-> Hne]. split; [reflexivity|].
  destruct (processSelectionSet 2 schema operation); cbn [andThen];
    [discriminate|discriminate|done].
Qed.

Lemma composed_concretePossibleTypes : concretePossibleTypes composed.
Proof.
  intros name types Hlookup.
  assert (Hall : map_Forall (fun _ types => forallb (fun t =>
                    negb (DefinitionKind_eqb (dKind t) Interface)) types = true)
                   (PossibleTypes composed)).
  { apply map_Forall_to_list. by vm_compute; repeat constructor. }
  specialize (Hall name types Hlookup). cbn beta in Hall.
  rewrite forallb_forall in Hall. apply List.Forall_forall. intros t Ht Hkind.
  specialize (Hall t Ht). by rewrite Hkind in Hall.
Qed.

Lemma services_need_two_levels_witness :
  concretePossibleTypes composed
  /\ 2 <= 5
  /\ ServicesForOperation 5 composed [interfaceMultipleServices]
     = Returns (inl ["serviceA"; "serviceB"]).
Proof.
  split; [exact composed_concretePossibleTypes|]. split; [lia|].
  rewrite (proj1 (services_need_two_levels composed 5 [interfaceMultipleServices]
                    composed_concretePossibleTypes ltac:(lia))).
  vm_compute. reflexivity.
Defined.

(** X30: When serviceForInterfaceField returns a service for a field of an
    interface whose possible types all have non-empty names, serviceForField
    yields exactly that service on every possible type that has a field of
    that name (on a disagreement the function panics instead); if no
    possible type has such a field, the service returned is the empty
    string. *)
Theorem interface_field_has_one_owner :
  forall (fuel : nat) (schema : ComposedSchema) (objectDefinition : Definition_)
         (fieldName service : string),
    let possible := default [] (PossibleTypes schema !! dName objectDefinition) in
    let fieldOf (concreteType : Definition_) :=
      List.find (fun field => String.eqb (fName field) fieldName) (dFields concreteType) in
    Forall (fun concreteType => dName concreteType <> "") possible ->
    serviceForInterfaceField fuel schema objectDefinition fieldName = Returns service ->
    (forall concreteType field,
        concreteType ∈ possible -> fieldOf concreteType = Some field ->
        serviceForField fuel schema concreteType field = Returns service)
    /\ ((forall concreteType, concreteType ∈ possible -> fieldOf concreteType = None) ->
        service = "").
Proof.
  intros fuel schema objectDefinition fieldName service possible fieldOf Hnamed.
  unfold serviceForInterfaceField, serviceForInterfaceField_with.
  intros ([service' previous] & Hfold & [= <-])%andThen_Returns. fold possible in Hfold.
  rewrite List.Forall_forall in Hnamed.
  apply (foldl_andThen_invariant
           (interfaceFieldStep (serviceForField fuel schema) fieldName)
           (fun done st =>
              (forall concreteType field,
                  concreteType ∈ done -> fieldOf concreteType = Some field ->
                  serviceForField fuel schema concreteType field = Returns st.1)
              /\ (st.2 = "" ->
                  forall concreteType, concreteType ∈ done -> fieldOf concreteType = None)
              /\ ((forall concreteType, concreteType ∈ done -> fieldOf concreteType = None) ->
                  st.1 = ""))
           possible [] ("", "") (service', previous)) in Hfold.
  - cbn [app fst snd] in Hfold. destruct Hfold as (Hall & _ & Hnone). by split.
  - split; [by intros ? ? ?%elem_of_nil|]. split; [|reflexivity].
    by intros _ ? ?%elem_of_nil.
  - intros done [svc prev] t [svc' prev'] Ht (Hall & Hfirst & Hnone). cbn [fst snd] in *.
    subst fieldOf. cbn beta in *.
    unfold interfaceFieldStep. destruct (List.find _ (dFields t)) as [field|] eqn:Hfield.
    + intros (s & Hs & Hstep)%andThen_Returns.
      assert (Hnext : svc' = s /\ prev' = dName t
                      /\ (prev = "" \/ s = svc)).
      { destruct (String.eqb_spec prev "") as [->|Hprev]; cbn [negb andb] in Hstep.
        - injection Hstep as <- <-. split; [reflexivity|]. split; [reflexivity | by left].
        - destruct (String.eqb_spec s svc) as [->|Hne]; cbn [negb] in Hstep;
            [|discriminate].
          injection Hstep as <- <-. split; [reflexivity|]. split; [reflexivity | by right]. }
      destruct Hnext as (-> & -> & Hsame). split; [|split].
      * intros c f [Hc | ->%list_elem_of_singleton]%elem_of_app Hf.
        -- destruct Hsame as [Hprev|Hsvc]; [|rewrite Hsvc; by apply Hall].
           by rewrite (Hfirst Hprev c Hc) in Hf.
        -- rewrite Hfield in Hf. by injection Hf as <-.
      * intros Hempty. exfalso. by apply (Hnamed t); [apply list_elem_of_In|].
      * intros Hno. exfalso.
        assert (Ht' : t ∈ done ++ [t]) by (apply elem_of_app; right; by left).
        specialize (Hno t Ht'). by rewrite Hfield in Hno.
    + intros [= <- <-]. split; [|split].
      * intros c f [Hc | ->%list_elem_of_singleton]%elem_of_app Hf; [by apply Hall|].
        by rewrite Hfield in Hf.
      * intros Hprev c [Hc | ->%list_elem_of_singleton]%elem_of_app;
          [by apply Hfirst | exact Hfield].
      * intros Hno. apply Hnone. intros c Hc. apply Hno, elem_of_app. by left.
Qed.

Lemma interface_field_has_one_owner_witness :
  Forall (fun concreteType => dName concreteType <> "")
    [SameServiceOwnerConcreteOne; SameServiceOwnerConcreteTwo]
  /\ serviceForInterfaceField 1 composed SameServiceOwnerInterface "serviceBField"
     = Returns "serviceB"
  /\ serviceForField 1 composed SameServiceOwnerConcreteTwo
       (field "serviceBField" StringNN [joinField "SERVICE_B"])
     = Returns "serviceB".
Proof.
  assert (Hnamed : Forall (fun concreteType => dName concreteType <> "")
                     [SameServiceOwnerConcreteOne; SameServiceOwnerConcreteTwo])
    by (repeat constructor; discriminate).
  assert (Hreturns : serviceForInterfaceField 1 composed SameServiceOwnerInterface
                       "serviceBField" = Returns "serviceB")
    by (vm_compute; reflexivity).
  split; [exact Hnamed|]. split; [exact Hreturns|].
  assert (Hpossible : default [] (PossibleTypes composed
                                    !! dName SameServiceOwnerInterface)
                      = [SameServiceOwnerConcreteOne; SameServiceOwnerConcreteTwo])
    by (vm_compute; reflexivity).
  pose proof (interface_field_has_one_owner 1 composed SameServiceOwnerInterface
                "serviceBField" "serviceB") as Howner.
  cbn zeta in Howner. rewrite Hpossible in Howner.
  apply (proj1 (Howner Hnamed Hreturns) SameServiceOwnerConcreteTwo).
  - apply list_elem_of_further, list_elem_of_here.
  - reflexivity.
Defined.

End ServicesProperties.
